(** * Alias runtime compatibility layer: stream adapter and runner

    A shallow embedding of
    - [alias/runtime/runtime_compat/adapter/alias_stream_adapter.py]
    - [alias/runtime/runtime_compat/runner/alias_runner.py]
    - [alias/server/api/v1/chat_runtime.py]

    Python generators are modelled by the list of values they yield
    together with the way they terminate (normal return, or an
    exception that leaves the generator).  Dictionaries are finite maps;
    where iteration order is observable the insertion order is kept next
    to the map. *)

From stdpp Require Import gmap strings list sorting.
From Stdlib Require Import ZArith Ascii DecimalString.

Open Scope string_scope.
Open Scope list_scope.

(** ** Python values and strings *)

(** JSON-like dynamic values, as found in request dictionaries. *)
Unset Elimination Schemes.
Inductive pyval : Type :=
| PNone
| PBool (b : bool)
| PInt (z : Z)
| PStr (s : string)
| PList (l : list pyval)
| PDict (d : list (string * pyval)).
Set Elimination Schemes.

(** Truth value of a Python object ([bool(v)]). *)
Definition py_truthy (v : pyval) : bool :=
  match v with
  | PNone => false
  | PBool b => b
  | PInt z => negb (Z.eqb z 0)
  | PStr s => negb (String.eqb s "")
  | PList l => match l with [] => false | _ => true end
  | PDict d => match d with [] => false | _ => true end
  end.

(** [d.get(k)]: the value stored under [k], [None] when absent. *)
Fixpoint dict_get (d : list (string * pyval)) (k : string) : pyval :=
  match d with
  | [] => PNone
  | (k', v) :: d' => if String.eqb k k' then v else dict_get d' k
  end.

(** [k in d]. *)
Fixpoint dict_has (d : list (string * pyval)) (k : string) : bool :=
  match d with
  | [] => false
  | (k', _) :: d' => if String.eqb k k' then true else dict_has d' k
  end.

(** [v == s] for a string literal [s]. *)
Definition py_eq_str (v : pyval) (s : string) : bool :=
  match v with
  | PStr s' => String.eqb s' s
  | _ => false
  end.

(** [a or b] on optional strings: [None] and the empty string are falsy. *)
Definition str_truthy (a : option string) : bool :=
  match a with
  | Some s => negb (String.eqb s "")
  | None => false
  end.

Definition py_or (a b : option string) : option string :=
  if str_truthy a then a else b.

(** [f"{v}"] for an optional string: an absent value renders as [None]. *)
Definition format_opt (v : option string) : string :=
  match v with
  | Some s => s
  | None => "None"
  end.

(** [s[n:]] *)
Fixpoint string_drop (n : nat) (s : string) : string :=
  match n, s with
  | O, _ => s
  | S n', String _ s' => string_drop n' s'
  | S _, EmptyString => EmptyString
  end.

Definition newline : string := String "010"%char EmptyString.

(** [str(n)] for an integer. *)
Definition string_of_Z (z : Z) : string :=
  NilZero.string_of_int (Z.to_int z).

(** ** Exceptions and generators *)

(** Exceptions that can leave a coroutine.  [BaseError] is the
    application's structured error (a code and a message); every other
    exception is kept as its class name and its [str()]. *)
Inductive exn : Type :=
| BaseError (code : Z) (message : string)
| Exception (class_name : string) (text : string).

(** A generator that yields values of type [E] and then either returns
    an [A] or lets an exception escape.  Values yielded before the
    exception have already reached the consumer. *)
Definition Gen (E A : Type) : Type := (list E * (exn + A))%type.

Definition gen_ret {E A} (a : A) : Gen E A := ([], inr a).

Definition gen_bind {E A B} (f : A → Gen E B) (m : Gen E A) : Gen E B :=
  match m.2 with
  | inl x => (m.1, inl x)
  | inr a => let r := f a in (m.1 ++ r.1, r.2)
  end.

#[global] Instance Gen_ret {E} : MRet (Gen E) := λ A, @gen_ret E A.
#[global] Instance Gen_bind {E} : MBind (Gen E) := λ A B, @gen_bind E A B.

Definition yield {E} (e : E) : Gen E unit := ([e], inr tt).

Definition raise {E A} (x : exn) : Gen E A := ([], inl x).

(** [try: m  except Exception as x: h x] *)
Definition try_except {E A} (m : Gen E A) (h : exn → Gen E A) : Gen E A :=
  match m.2 with
  | inl x => let r := h x in (m.1 ++ r.1, r.2)
  | inr _ => m
  end.

(** What the consumer of a finished generator has seen. *)
Definition yielded {E A} (m : Gen E A) : list E := m.1.

Definition escaped {E A} (m : Gen E A) : option exn :=
  match m.2 with
  | inl x => Some x
  | inr _ => None
  end.

(** ** Stream adapter: data model *)

(** The four message kinds the adapter produces, with the string
    constants of [agentscope_runtime]'s [MessageType]. *)
Inductive MessageType : Type :=
| REASONING
| PLUGIN_CALL
| PLUGIN_CALL_OUTPUT
| MESSAGE.

Definition MessageType_value (t : MessageType) : string :=
  match t with
  | REASONING => "reasoning"
  | PLUGIN_CALL => "plugin_call"
  | PLUGIN_CALL_OUTPUT => "plugin_call_output"
  | MESSAGE => "message"
  end.

Inductive Role : Type := ASSISTANT | TOOL.

Inductive ContentType : Type := DATA | TEXT.

#[global] Instance MessageType_eq_dec : EqDecision MessageType.
Proof. solve_decision. Defined.

#[global] Instance Role_eq_dec : EqDecision Role.
Proof. solve_decision. Defined.

#[global] Instance ContentType_eq_dec : EqDecision ContentType.
Proof. solve_decision. Defined.

(** One entry of a [files] message. *)
Record AliasFile : Type := {
  filename : string;
  url : string
}.

(** [item["message"]]: the fields the adapter reads.  A field is [None]
    when the key is absent (or null).  [content] is text, as the backend
    sends it; [arguments] is any JSON value. *)
Record InnerMessage : Type := {
  msg_type : option string;
  msg_status : option string;
  msg_tool_call_id : option string;
  msg_content : option string;
  msg_files : option (list AliasFile);
  msg_tool_name : option string;
  msg_arguments : option pyval
}.

(** [{}], the replacement for a missing inner message. *)
Definition empty_message : InnerMessage :=
  {| msg_type := None; msg_status := None; msg_tool_call_id := None;
     msg_content := None; msg_files := None; msg_tool_name := None;
     msg_arguments := None |}.

(** One element of [chunk["data"]["messages"]]. *)
Record Item : Type := {
  item_id : option string;
  item_message : option InnerMessage
}.

(** A chunk of the source stream. *)
Inductive RawChunk : Type :=
| NotAData                              (* not a dict, or no "data" key *)
| DataChunk (messages : option (list Item)).  (* chunk["data"].get("messages") *)

(** The source stream: the chunks it delivers, then its end, which is
    either exhaustion or an exception raised by the producer. *)
Record SourceStream : Type := {
  chunks : list RawChunk;
  failure : option exn
}.

(** Payload of a structured-data content. *)
Inductive ToolData : Type :=
| FunctionCall (call_id : option string) (name : string) (arguments : string)
| FunctionCallOutput (call_id : option string) (name : string) (output : string).

(** Objects yielded by the adapter.  A message builder and its content
    builder are created once per state-map entry, so a builder is named
    by the key of the entry that owns it. *)
Inductive Event : Type :=
| RbCreated                                  (* rb.created() *)
| RbInProgress                               (* rb.in_progress() *)
| RbCompleted                                (* rb.completed() *)
| MessageOpened (key : string) (role : Role) (mtype : MessageType)
                                             (* mb.get_message_data() *)
| TextDelta (key : string) (delta : string)  (* cb.add_text_delta(delta) *)
| TextSet (key : string) (text : string)     (* cb.set_text(raw_text) *)
| DataSet (key : string) (data : ToolData)   (* cb.set_data(...) *)
| ContentCompleted (key : string)            (* cb.complete() *)
| MessageCompleted (key : string).           (* mb.complete() *)

(** [AliasAdapterState]; [mb] and [cb] are the builders named by the key
    under which the state is stored, [content_type] is the kind of the
    content builder. *)
Record AliasAdapterState : Type := {
  runtime_type : MessageType;
  content_type : ContentType;
  last_content : string;
  is_completed : bool
}.

Definition set_last_content (s : string) (st : AliasAdapterState)
  : AliasAdapterState :=
  {| runtime_type := runtime_type st; content_type := content_type st;
     last_content := s; is_completed := is_completed st |}.

Definition set_completed (st : AliasAdapterState) : AliasAdapterState :=
  {| runtime_type := runtime_type st; content_type := content_type st;
     last_content := last_content st; is_completed := true |}.

(** Local variables of [adapt_alias_message_stream]: the dictionary
    [state_map] (with the insertion order of its keys, which is the order
    in which [state_map.values()] iterates) and [last_active_key]. *)
Record AdapterVars : Type := {
  state_map : gmap string AliasAdapterState;
  state_keys : list string;
  last_active_key : option string
}.

Definition initial_vars : AdapterVars :=
  {| state_map := ∅; state_keys := []; last_active_key := None |}.

(** ** Stream adapter: operations *)

(** The item type decides the message kind and the role. *)
Definition classify (alias_type : option string) : MessageType * Role :=
  if bool_decide (alias_type ∈ [Some "thought"; Some "sub_thought"]) then
    (REASONING, ASSISTANT)
  else if bool_decide (alias_type ∈ [Some "tool_call"; Some "tool_use"]) then
    (PLUGIN_CALL, ASSISTANT)
  else if bool_decide (alias_type = Some "tool_result") then
    (PLUGIN_CALL_OUTPUT, TOOL)
  else
    (MESSAGE, ASSISTANT).

Definition inner_message (item : Item) : InnerMessage :=
  default empty_message (item_message item).

(** [tool_call_id = inner_msg.get("tool_call_id") or alias_id] *)
Definition correlation_id (item : Item) : option string :=
  py_or (msg_tool_call_id (inner_message item)) (item_id item).

Definition message_kind (item : Item) : MessageType :=
  (classify (msg_type (inner_message item))).1.

(** [f"{tool_call_id}_{runtime_type}"] *)
Definition make_state_key (tool_call_id : option string) (t : MessageType)
  : string :=
  format_opt tool_call_id +:+ "_" +:+ MessageType_value t.

Definition state_key (item : Item) : string :=
  make_state_key (correlation_id item) (message_kind item).

(** The file marker, U+1F4C1 in UTF-8. *)
Definition folder_icon : string :=
  String "240"%char (String "159"%char (String "147"%char
    (String "129"%char EmptyString))).

Definition render_file (f : AliasFile) : string :=
  folder_icon +:+ " [" +:+ filename f +:+ "](" +:+ url f +:+ ")".

(** [raw_text] of a MESSAGE/REASONING item. *)
Definition raw_text (item : Item) : string :=
  let inner_msg := inner_message item in
  let text := default "" (msg_content inner_msg) in
  match msg_files inner_msg with
  | Some fs =>
      if bool_decide (msg_type inner_msg = Some "files") then
        String.concat newline (map render_file fs)
      else text
  | None => text
  end.

Definition is_text_kind (t : MessageType) : bool :=
  bool_decide (t ∈ [MESSAGE; REASONING]).

Definition content_kind (t : MessageType) : ContentType :=
  if bool_decide (t ∈ [PLUGIN_CALL; PLUGIN_CALL_OUTPUT]) then DATA else TEXT.

Definition new_state (t : MessageType) : AliasAdapterState :=
  {| runtime_type := t; content_type := content_kind t;
     last_content := ""; is_completed := false |}.

Definition mark_completed (key : string) (v : AdapterVars) : AdapterVars :=
  {| state_map := alter set_completed key (state_map v);
     state_keys := state_keys v;
     last_active_key := last_active_key v |}.

Definition store_state (key : string) (st : AliasAdapterState)
    (v : AdapterVars) : AdapterVars :=
  {| state_map := <[key := st]> (state_map v);
     state_keys :=
       match state_map v !! key with
       | Some _ => state_keys v
       | None => state_keys v ++ [key]
       end;
     last_active_key := last_active_key v |}.

Definition set_last_active (key : string) (v : AdapterVars) : AdapterVars :=
  {| state_map := state_map v;
     state_keys := state_keys v;
     last_active_key := Some key |}.

Section Adapter.

(** The two completion calls of the builder library may raise; the
    adapter's own error handling (the [try] of the final loop) is
    about exactly that.  [cb_complete_raises key] is the exception
    raised by [cb.complete()] of the builder owned by [key], if any. *)
Variable cb_complete_raises : string → option exn.
Variable mb_complete_raises : string → option exn.

(** JSON helpers of the adapter module ([json.loads]/[json.dumps]
    inside); only their results are carried in tool payloads. *)
Variable _ensure_safe_json_string : pyval → string.
Variable _extract_alias_output_obj : string → pyval.

(** [yield state.cb.complete()] *)
Definition cb_complete (key : string) : Gen Event unit :=
  match cb_complete_raises key with
  | Some x => raise x
  | None => yield (ContentCompleted key)
  end.

(** [yield state.mb.complete()] *)
Definition mb_complete (key : string) : Gen Event unit :=
  match mb_complete_raises key with
  | Some x => raise x
  | None => yield (MessageCompleted key)
  end.

(** The three-statement closing sequence, used at three places. *)
Definition close_state (key : string) (v : AdapterVars)
  : Gen Event AdapterVars :=
  cb_complete key ;;
  mb_complete key ;;
  mret (mark_completed key v).

(** Lines 119-124: close the previously active entry on a key change. *)
Definition close_previous (key : string) (v : AdapterVars)
  : Gen Event AdapterVars :=
  match last_active_key v with
  | Some last =>
      if str_truthy (Some last) && negb (String.eqb last key) then
        match state_map v !! last with
        | Some old_state =>
            if negb (is_completed old_state) then close_state last v
            else mret v
        | None => mret v
        end
      else mret v
  | None => mret v
  end.

(** Lines 128-142: create the entry on first sight of the key. *)
Definition open_if_new (key : string) (t : MessageType) (role : Role)
    (v : AdapterVars) : Gen Event AdapterVars :=
  match state_map v !! key with
  | None =>
      yield (MessageOpened key role t) ;;
      mret (store_state key (new_state t) v)
  | Some _ => mret v
  end.

(** Lines 157-164: prefix-delta policy. *)
Definition text_payload (key : string) (text : string)
    (state : AliasAdapterState) : Gen Event AliasAdapterState :=
  if String.prefix (last_content state) text then
    let delta := string_drop (String.length (last_content state)) text in
    (if negb (String.eqb delta "") then yield (TextDelta key delta)
     else mret tt) ;;
    mret (set_last_content text state)
  else
    yield (TextSet key text) ;;
    mret (set_last_content text state).

(** Lines 146-184: kind-specific payload.  [FunctionCallOutput] is a
    schema class of the runtime library whose [call_id] is a required
    string: built for an item without correlation id it raises a
    validation error, of which the class name is kept and the text
    is the name of the field.  [FunctionCall] accepts an absent id. *)
Definition payload (item : Item) (key : string)
    (state : AliasAdapterState) : Gen Event AliasAdapterState :=
  let inner_msg := inner_message item in
  let tool_call_id := correlation_id item in
  match message_kind item with
  | MESSAGE | REASONING => text_payload key (raw_text item) state
  | PLUGIN_CALL =>
      let args :=
        match msg_arguments inner_msg with
        | Some a => if py_truthy a then a else PDict []
        | None => PDict []
        end in
      yield (DataSet key
               (FunctionCall tool_call_id
                  (format_opt (py_or (msg_tool_name inner_msg) (Some "tool")))
                  (_ensure_safe_json_string args))) ;;
      mret state
  | PLUGIN_CALL_OUTPUT =>
      let output_obj :=
        _extract_alias_output_obj (default "" (msg_content inner_msg)) in
      match tool_call_id with
      | Some _ =>
          yield (DataSet key
                   (FunctionCallOutput tool_call_id
                      (format_opt
                         (py_or (msg_tool_name inner_msg) (Some "tool")))
                      (_ensure_safe_json_string output_obj))) ;;
          mret state
      | None => raise (Exception "ValidationError" "call_id")
      end
  end.

(** Lines 186-189: close on the terminal status. *)
Definition close_if_finished (item : Item) (key : string)
    (v : AdapterVars) : Gen Event AdapterVars :=
  match state_map v !! key with
  | Some state =>
      if bool_decide (msg_status (inner_message item) = Some "finished")
         && negb (is_completed state)
      then close_state key v
      else mret v
  | None => raise (Exception "KeyError" key)
  end.

(** Body of the inner [for item in messages] loop. *)
Definition process_item (item : Item) (v : AdapterVars)
  : Gen Event AdapterVars :=
  let key := state_key item in
  let '(t, target_role) := classify (msg_type (inner_message item)) in
  v ← close_previous key v;
  let v := set_last_active key v in
  v ← open_if_new key t target_role v;
  match state_map v !! key with
  | Some state =>
      state ← payload item key state;
      close_if_finished item key (store_state key state v)
  | None => raise (Exception "KeyError" key)
  end.

Fixpoint process_items (items : list Item) (v : AdapterVars)
  : Gen Event AdapterVars :=
  match items with
  | [] => mret v
  | item :: rest => v ← process_item item v; process_items rest v
  end.

(** [messages = chunk["data"].get("messages") or []], nothing for a
    chunk that is skipped. *)
Definition chunk_items (chunk : RawChunk) : list Item :=
  match chunk with
  | NotAData => []
  | DataChunk messages => default [] messages
  end.

Fixpoint process_chunks (cs : list RawChunk) (v : AdapterVars)
  : Gen Event AdapterVars :=
  match cs with
  | [] => mret v
  | chunk :: rest =>
      v ← process_items (chunk_items chunk) v; process_chunks rest v
  end.

(** [async for chunk in source_stream]: an exception of the producer
    surfaces once its chunks are consumed. *)
Definition consume (src : SourceStream) (v : AdapterVars)
  : Gen Event AdapterVars :=
  v ← process_chunks (chunks src) v;
  match failure src with
  | Some x => raise x
  | None => mret v
  end.

(** Lines 191-201: the final loop over [state_map.values()]. *)
Fixpoint finalize (keys : list string) (v : AdapterVars)
  : Gen Event AdapterVars :=
  match keys with
  | [] => mret v
  | key :: rest =>
      match state_map v !! key with
      | Some state =>
          v ← (if negb (is_completed state) then
                 try_except (close_state key v) (λ _, mret v)
               else mret v);
          finalize rest v
      | None => finalize rest v
      end
  end.

Definition adapt_alias_message_stream (src : SourceStream)
  : Gen Event unit :=
  yield RbCreated ;;
  yield RbInProgress ;;
  v ← consume src initial_vars;
  v ← finalize (state_keys v) v;
  yield RbCompleted.

End Adapter.

(** ** Runner: data model *)

(** A [uuid.UUID], as its 128-bit integer. *)
Definition UUID : Type := N.

(** [Error(code=..., message=...)] of the runtime schemas. *)
Record Error : Type := {
  error_code : string;
  error_message : string
}.

Inductive RunStatus : Type :=
| Created
| InProgress
| Completed
| Failed.

#[global] Instance RunStatus_eq_dec : EqDecision RunStatus.
Proof. solve_decision. Defined.

(** The [AgentResponse] object of one call of [stream_query].  [output]
    lists the completed messages added by [add_new_message] (by builder
    key), [usage_from] the message whose usage was copied. *)
Record AgentResponse : Type := {
  resp_id : string;
  resp_session_id : string;
  resp_status : RunStatus;
  resp_error : option Error;
  resp_output : list string;
  resp_usage_from : option string
}.

(** [AgentResponse(id=request_id)] followed by the assignment of
    [session_id]; a fresh response has status [created]. *)
Definition new_response (request_id session_id : string) : AgentResponse :=
  {| resp_id := request_id; resp_session_id := session_id;
     resp_status := Created; resp_error := None; resp_output := [];
     resp_usage_from := None |}.

Definition with_status (s : RunStatus) (e : option Error)
    (r : AgentResponse) : AgentResponse :=
  {| resp_id := resp_id r; resp_session_id := resp_session_id r;
     resp_status := s; resp_error := e; resp_output := resp_output r;
     resp_usage_from := resp_usage_from r |}.

Definition in_progress (r : AgentResponse) : AgentResponse :=
  with_status InProgress (resp_error r) r.

Definition completed (r : AgentResponse) : AgentResponse :=
  with_status Completed (resp_error r) r.

Definition failed (err : Error) (r : AgentResponse) : AgentResponse :=
  with_status Failed (Some err) r.

Definition add_new_message (key : string) (r : AgentResponse)
  : AgentResponse :=
  {| resp_id := resp_id r; resp_session_id := resp_session_id r;
     resp_status := resp_status r; resp_error := resp_error r;
     resp_output := resp_output r ++ [key];
     resp_usage_from := resp_usage_from r |}.

(** [response.usage = response.output[-1].usage] when there is output. *)
Definition copy_usage (r : AgentResponse) : AgentResponse :=
  {| resp_id := resp_id r; resp_session_id := resp_session_id r;
     resp_status := resp_status r; resp_error := resp_error r;
     resp_output := resp_output r;
     resp_usage_from :=
       match last (resp_output r) with
       | Some k => Some k
       | None => resp_usage_from r
       end |}.

(** What [stream_query] yields: either its own response object or an
    object produced by the adapter, in both cases after
    [yield_with_sequence] has written the sequence number into it.  The
    response object is one mutable object yielded several times; an entry
    records its fields at the moment of the yield, which is what the
    consumer of the generator gets to see before the generator resumes. *)
Inductive Payload : Type :=
| ResponseEvent (r : AgentResponse)
| AdaptedEvent (e : Event).

Record Numbered : Type := {
  sequence_number : nat;
  payload_of : Payload
}.

(** [SequenceNumberGenerator] of the runtime schemas: the next number
    to hand out, starting at 0 and incremented by every call. *)
Definition SequenceNumberGenerator : Type := nat.

Definition new_sequence_generator : SequenceNumberGenerator := 0.

(** [yield seq_gen.yield_with_sequence(obj)] *)
Definition yield_with_sequence (seq_gen : SequenceNumberGenerator)
    (obj : Payload) : Gen Numbered SequenceNumberGenerator :=
  yield {| sequence_number := seq_gen; payload_of := obj |} ;;
  mret (S seq_gen).

(** The request dictionary of [stream_query]. *)
Record AgentRequest : Type := {
  req_id : option string;
  req_session_id : option string;
  req_input : pyval;
  req_user_id : option string;
  req_conversation_id : option string;
  req_task_id : option string;
  req_chat_mode : option string
}.

Record ChatRequest : Type := {
  query : string;
  chat_mode : string
}.

(** Result of [ChatRequest.model_validate]. *)
Inductive Validation : Type :=
| Valid (r : ChatRequest)
| Invalid (text : string) (detail : pyval)   (* pydantic ValidationError *)
| ValidationCrash (x : exn).                 (* any other exception *)

(** The object returned by [create_conversation]: its [id] attribute
    and its [repr]. *)
Inductive ConversationId : Type :=
| IdUUID (u : UUID)
| IdOther (s : option string).

Record Conversation : Type := {
  conv_id : ConversationId;
  conv_repr : string
}.

(** [AliasRunner]: the attributes the request paths read. *)
Record AliasRunner : Type := {
  _health : bool;
  default_chat_mode : string;
  default_conv_name : string;
  _session_conv_cache : gmap string UUID
}.

(** The runner together with the conversation service it talks to; of
    the service only the creation calls it has received are kept (user
    and name, oldest first). *)
Record World : Type := {
  runner : AliasRunner;
  created_conversations : list (UUID * string)
}.

(** Everything outside the three modules. *)
Record Externals : Type := {
  (* builder library *)
  cb_complete_raises : string → option exn;
  mb_complete_raises : string → option exn;
  (* json helpers of the adapter module *)
  _ensure_safe_json_string : pyval → string;
  _extract_alias_output_obj : string → pyval;
  (* uuid module *)
  uuid_parse : string → option UUID;      (* uuid.UUID(s), None if it raises *)
  uuid5_dns : string → UUID;              (* uuid.uuid5(NAMESPACE_DNS, s) *)
  uuid4_request : string;                 (* str(uuid.uuid4()) for the id *)
  uuid4_session : string;                 (* uuid.uuid4() for the session *)
  uuid4_task : UUID;                      (* uuid.uuid4() for the task *)
  (* alias.server *)
  create_conversation : nat → exn + Conversation;
                                          (* outcome of the n-th creation *)
  ChatRequest_model_validate : pyval → Validation;
  ChatService_chat : UUID → UUID → ChatRequest → UUID → exn + SourceStream;
  BaseError_str : Z → string → string     (* str() of a BaseError *)
}.

(** [str(exc)] *)
Definition exn_str (ext : Externals) (x : exn) : string :=
  match x with
  | BaseError c m => BaseError_str ext c m
  | Exception _ text => text
  end.

Definition exn_class (x : exn) : string :=
  match x with
  | BaseError _ _ => "BaseError"
  | Exception cls _ => cls
  end.

(** ** Runner: request normalisation *)

(** The [for blk in reversed(content)] loop, on the reversed list. *)
Fixpoint last_text_block (blocks : list pyval) : option pyval :=
  match blocks with
  | [] => None
  | PDict blk :: rest =>
      if py_eq_str (dict_get blk "type") "text" then
        let text := dict_get blk "text" in
        Some (if py_truthy text then text else PStr "")
      else last_text_block rest
  | _ :: rest => last_text_block rest
  end.

Definition _extract_text_from_agent_request (req : AgentRequest) : pyval :=
  match req_input req with
  | PStr agent_input => PStr agent_input
  | PList agent_input =>
      match last agent_input with
      | Some (PDict last_turn) =>
          match dict_get last_turn "content" with
          | PStr content => PStr content
          | content =>
              let from_blocks :=
                match content with
                | PList blocks => last_text_block (reverse blocks)
                | _ => None
                end in
              match from_blocks with
              | Some text => text
              | None =>
                  match dict_has last_turn "text", dict_get last_turn "text" with
                  | true, PStr text => PStr text
                  | _, _ => PStr ""
                  end
              end
          end
      | _ => PStr ""
      end
  | _ => PStr ""
  end.

(** [_to_uuid] on an optional string. *)
Definition _to_uuid (ext : Externals) (val : option string) : option UUID :=
  match val with
  | None => None
  | Some s => uuid_parse ext s
  end.

Definition _stable_uuid_from_string (ext : Externals) (s : string) : UUID :=
  uuid5_dns ext ("alias::" +:+ s).

(** [a or b] where [b] is a string. *)
Definition or_str (a : option string) (b : string) : string :=
  match a with
  | Some s => if String.eqb s "" then b else s
  | None => b
  end.

(** ** Runner: conversation cache *)

(** [_get_or_create_conversation_id] is a coroutine: it runs from its
    entry to the [await] of the creation call, is suspended there, and
    runs from the result of the creation to its end.  Nothing else
    separates the test of line 134 from the store of line 159. *)
Inductive Resolution : Type :=
| AtEntry                     (* not started *)
| AwaitingCreation (n : nat)  (* suspended in the n-th creation call *)
| Returned (conv : UUID)
| Raised (x : exn).

Definition cache_store (session_id : string) (conv : UUID) (w : World)
  : World :=
  {| runner :=
       {| _health := _health (runner w);
          default_chat_mode := default_chat_mode (runner w);
          default_conv_name := default_conv_name (runner w);
          _session_conv_cache :=
            <[session_id := conv]> (_session_conv_cache (runner w)) |};
     created_conversations := created_conversations w |}.

Definition call_create (user_uuid : UUID) (w : World) : World :=
  {| runner := runner w;
     created_conversations :=
       created_conversations w ++ [(user_uuid, default_conv_name (runner w))] |}.

(** One uninterrupted stretch of the coroutine. *)
Definition resolution_step (ext : Externals) (session_id : string)
    (user_uuid : UUID) (pc : Resolution) (w : World) : Resolution * World :=
  match pc with
  | AtEntry =>
      match _session_conv_cache (runner w) !! session_id with
      | Some conv => (Returned conv, w)
      | None =>
          (AwaitingCreation (length (created_conversations w)),
           call_create user_uuid w)
      end
  | AwaitingCreation n =>
      match create_conversation ext n with
      | inl x => (Raised x, w)
      | inr conversation =>
          let conv :=
            match conv_id conversation with
            | IdUUID u => Some u
            | IdOther s => _to_uuid ext s
            end in
          match conv with
          | None =>
              (Raised (Exception "RuntimeError"
                 ("ConversationService.create_conversation() " +:+
                  "returned invalid id: " +:+ conv_repr conversation)), w)
          | Some c => (Returned c, cache_store session_id c w)
          end
      end
  | Returned _ | Raised _ => (pc, w)
  end.

(** The coroutine awaited by a caller that is alone on the event loop:
    both stretches in sequence. *)
Definition _get_or_create_conversation_id (ext : Externals)
    (session_id : string) (user_uuid : UUID) (w : World)
  : (exn + UUID) * World :=
  let '(pc, w) := resolution_step ext session_id user_uuid AtEntry w in
  let '(pc, w) := resolution_step ext session_id user_uuid pc w in
  match pc with
  | Returned c => (inr c, w)
  | Raised x => (inl x, w)
  | _ => (inl (Exception "RuntimeError" "coroutine not finished"), w)
  end.

(** Several resolutions in flight on one event loop. *)
Record Task : Type := {
  task_session : string;
  task_user : UUID;
  task_pc : Resolution
}.

Record Loop : Type := {
  world : World;
  tasks : list Task
}.

(** The event loop resumes task [i] until its next suspension. *)
Definition resume (ext : Externals) (i : nat) (l : Loop) : Loop :=
  match tasks l !! i with
  | Some t =>
      let '(pc, w) :=
        resolution_step ext (task_session t) (task_user t) (task_pc t)
          (world l) in
      {| world := w;
         tasks := <[i := {| task_session := task_session t;
                            task_user := task_user t;
                            task_pc := pc |}]> (tasks l) |}
  | None => l
  end.

Definition run_schedule (ext : Externals) (schedule : list nat) (l : Loop)
  : Loop :=
  foldl (λ l i, resume ext i l) l schedule.

(** ** Runner: [stream_query] *)

(** [query_handler]: the coroutine is awaited by its caller; it either
    raises or hands back the backend's stream. *)
Definition query_handler (ext : Externals) (user_id conversation_id : UUID)
    (chat_request : ChatRequest) (task_id : UUID) : exn + SourceStream :=
  ChatService_chat ext user_id conversation_id chat_request task_id.

(** [event.status == RunStatus.Completed and event.object == "message"]:
    of the adapter's objects only the result of [mb.complete()]. *)
Definition completed_message (e : Event) : option string :=
  match e with
  | MessageCompleted key => Some key
  | _ => None
  end.

(** Body of the [async for event in adapt_alias_message_stream(result)]
    loop: a completed message is added to the response (a failure of that
    bookkeeping is swallowed by the code and does not change what is
    yielded), then the event is numbered and yielded. *)
Definition relay_event (e : Event)
    (st : SequenceNumberGenerator * AgentResponse)
  : Gen Numbered (SequenceNumberGenerator * AgentResponse) :=
  let response :=
    match completed_message e with
    | Some key => add_new_message key st.2
    | None => st.2
    end in
  seq_gen ← yield_with_sequence st.1 (AdaptedEvent e);
  mret (seq_gen, response).

Fixpoint relay (events : list Event)
    (st : SequenceNumberGenerator * AgentResponse)
  : Gen Numbered (SequenceNumberGenerator * AgentResponse) :=
  match events with
  | [] => mret st
  | e :: rest => st ← relay_event e st; relay rest st
  end.

(** The generator the [try] of lines 329-350 iterates: a failing
    invocation yields nothing. *)
Definition adapted_stream (ext : Externals) (result : exn + SourceStream)
  : Gen Event unit :=
  match result with
  | inl x => raise x
  | inr source =>
      adapt_alias_message_stream (cb_complete_raises ext)
        (mb_complete_raises ext) (_ensure_safe_json_string ext)
        (_extract_alias_output_obj ext) source
  end.

(** The [Error] built by the handler of lines 352-359. *)
Definition handler_error (ext : Externals) (exc : exn) : Error :=
  match exc with
  | BaseError c m =>
      {| error_code := string_of_Z c; error_message := m |}
  | Exception _ _ =>
      {| error_code := "500";
         error_message :=
           "Error happens in `query_handler`: " +:+ exn_str ext exc |}
  end.

(** Values [stream_query] computes from the request before it reaches
    the backend (lines 268-269, 288-293, 295-301, 310, 313-320). *)
Definition request_id_of (ext : Externals) (request : AgentRequest) : string :=
  or_str (req_id request) (uuid4_request ext).

Definition session_id_of (ext : Externals) (request : AgentRequest) : string :=
  or_str (req_session_id request) ("session_" +:+ uuid4_session ext).

Definition user_uuid_of (ext : Externals) (request : AgentRequest) : UUID :=
  let raw_user_id := or_str (req_user_id request) (session_id_of ext request) in
  default (_stable_uuid_from_string ext raw_user_id)
          (_to_uuid ext (Some raw_user_id)).

Definition resolve_conversation (ext : Externals) (w : World)
    (request : AgentRequest) : (exn + UUID) * World :=
  match _to_uuid ext (req_conversation_id request) with
  | Some conversation_id => (inr conversation_id, w)
  | None =>
      _get_or_create_conversation_id ext (session_id_of ext request)
        (user_uuid_of ext request) w
  end.

Definition task_id_of (ext : Externals) (request : AgentRequest) : UUID :=
  default (uuid4_task ext) (_to_uuid ext (req_task_id request)).

Definition chat_request_dict (w : World) (request : AgentRequest) : pyval :=
  let req_chat_mode :=
    or_str (req_chat_mode request) (default_chat_mode (runner w)) in
  PDict [("query", _extract_text_from_agent_request request);
         ("chat_mode", PStr req_chat_mode)].

Definition not_started : exn :=
  Exception "RuntimeError"
    ("Runner has not been started. Please call " +:+
     "'await runner.start()' or use 'async with Runner()' " +:+
     "before calling 'stream_query'.").

(** [stream_query].  The events the adapter yields before an exception
    escapes from it are relayed first; the handler then runs with the
    sequence generator and the response as the loop left them. *)
Definition stream_query (ext : Externals) (w : World)
    (request : AgentRequest) : Gen Numbered World :=
  if negb (_health (runner w)) then raise not_started
  else
    let seq_gen := new_sequence_generator in
    let response :=
      new_response (request_id_of ext request) (session_id_of ext request) in
    seq_gen ← yield_with_sequence seq_gen (ResponseEvent response);
    let response := in_progress response in
    seq_gen ← yield_with_sequence seq_gen (ResponseEvent response);
    let user_text := _extract_text_from_agent_request request in
    if negb (py_truthy user_text) then
      let err :=
        {| error_code := "422";
           error_message := "Empty input text in AgentRequest.input." |} in
      yield_with_sequence seq_gen (ResponseEvent (failed err response)) ;;
      mret w
    else
      let resolved := resolve_conversation ext w request in
      match resolved.1 with
      | inl exc =>
          let err :=
            {| error_code := "500";
               error_message :=
                 "Failed to create conversation: " +:+ exn_str ext exc |} in
          yield_with_sequence seq_gen (ResponseEvent (failed err response)) ;;
          mret resolved.2
      | inr conversation_id =>
          match ChatRequest_model_validate ext (chat_request_dict w request) with
          | Invalid text _ =>
              let err :=
                {| error_code := "422";
                   error_message :=
                     "ChatRequest validation failed: " +:+ text |} in
              yield_with_sequence seq_gen
                (ResponseEvent (failed err response)) ;;
              mret resolved.2
          | ValidationCrash exc => raise exc
          | Valid chat_request_obj =>
              let result :=
                query_handler ext (user_uuid_of ext request) conversation_id
                  chat_request_obj (task_id_of ext request) in
              let adapted := adapted_stream ext result in
              st ← relay (yielded adapted) (seq_gen, response);
              match escaped adapted with
              | Some exc =>
                  yield_with_sequence st.1
                    (ResponseEvent (failed (handler_error ext exc) st.2)) ;;
                  mret resolved.2
              | None =>
                  yield_with_sequence st.1
                    (ResponseEvent (completed (copy_usage st.2))) ;;
                  mret resolved.2
              end
          end
      end.

(** The relay loop in closed form: the numbered events it yields and
    the response it leaves behind. *)
Fixpoint relay_events (n : nat) (es : list Event) : list Numbered :=
  match es with
  | [] => []
  | e :: rest =>
      {| sequence_number := n; payload_of := AdaptedEvent e |}
      :: relay_events (S n) rest
  end.

Definition relay_response (es : list Event) (r : AgentResponse)
  : AgentResponse :=
  foldl (λ r e, match completed_message e with
                | Some key => add_new_message key r
                | None => r
                end) r es.

(** ** Runner: [stream_query_native] and the SSE relay *)

Record NativeRequest : Type := {
  nreq_user_id : option string;
  nreq_conversation_id : option string;
  nreq_task_id : option string;
  nreq_dict : pyval               (* the whole dictionary, for validation *)
}.

Record NativeKwargs : Type := {
  kw_user_id : option UUID;
  kw_conversation_id : option UUID;
  kw_task_id : option UUID
}.

(** What [stream_query_native] yields: backend chunks as they are, error
    dictionaries, and the string ["[DONE]"]. *)
Inductive NativeChunk : Type :=
| NativeRaw (chunk : RawChunk)
| NativeDict (d : list (string * pyval))
| NativeStr (s : string).

Definition DONE : string := "[DONE]".

(** [kwargs.get(k) or self._to_uuid(req_dict.get(k))] *)
Definition kw_or (ext : Externals) (kw : option UUID) (val : option string)
  : option UUID :=
  match kw with
  | Some u => Some u
  | None => _to_uuid ext val
  end.

(** The [try] of lines 218-240: relay the backend chunks; [true] when
    the loop ended without an exception. *)
Definition relay_native (ext : Externals) (result : exn + SourceStream)
  : Gen NativeChunk bool :=
  let body : Gen NativeChunk bool :=
    match result with
    | inl x => raise x
    | inr source =>
        (NativeRaw <$> chunks source,
         match failure source with
         | Some x => inl x
         | None => inr true
         end)
    end in
  try_except body
    (λ exc,
       match exc with
       | BaseError c m =>
           yield (NativeDict [("error", PStr m); ("code", PInt c)])
       | Exception cls _ =>
           yield (NativeDict [("error", PStr (exn_str ext exc));
                              ("code", PInt 500);
                              ("error_type", PStr cls)])
       end ;;
       mret false).

Definition stream_query_native (ext : Externals) (w : World)
    (request : NativeRequest) (kwargs : NativeKwargs)
  : Gen NativeChunk unit :=
  if negb (_health (runner w)) then raise not_started
  else
    let user_id := kw_or ext (kw_user_id kwargs) (nreq_user_id request) in
    let conversation_id :=
      kw_or ext (kw_conversation_id kwargs) (nreq_conversation_id request) in
    let task_id :=
      default (uuid4_task ext)
              (kw_or ext (kw_task_id kwargs) (nreq_task_id request)) in
    match user_id, conversation_id with
    | Some user_id, Some conversation_id =>
        match ChatRequest_model_validate ext (nreq_dict request) with
        | Invalid _ detail =>
            yield (NativeDict
                     [("error", PStr "invalid_request");
                      ("code", PInt 422);
                      ("message", PStr "ChatRequest validation failed");
                      ("detail", detail)])
        | ValidationCrash exc =>
            yield (NativeDict
                     [("error", PStr "invalid_request");
                      ("code", PInt 500);
                      ("message", PStr (exn_str ext exc))])
        | Valid chat_request_obj =>
            finished ← relay_native ext
              (query_handler ext user_id conversation_id chat_request_obj
                 task_id);
            if finished : bool then yield (NativeStr DONE) else mret tt
        end
    | _, _ =>
        yield (NativeDict
                 [("error", PStr "missing_context");
                  ("code", PInt 422);
                  ("message",
                   PStr ("Native mode requires user_id and conversation_id "
                         +:+ "in kwargs or request body."))])
    end.

(** An SSE frame: [SseDone] is the text [data: [DONE]] followed by a
    blank line, [SseData c] is [data: ] followed by the JSON text of [c]
    and a blank line. *)
Inductive SseFrame : Type :=
| SseDone
| SseData (c : NativeChunk).

(** [_to_raw_sse_event] for a chunk that [model_dump] and [json.dumps]
    turn into text; a chunk for which they raise is the subject of
    [ChatRuntime] below. *)
Definition _to_raw_sse_event (data : NativeChunk) : SseFrame :=
  match data with
  | NativeStr s => if String.eqb s DONE then SseDone else SseData data
  | _ => SseData data
  end.

(** [event_generator]: every chunk as a frame; an exception that escapes
    from the runner becomes an error frame followed by the terminator. *)
Definition event_generator (ext : Externals) (w : World)
    (request_dict : NativeRequest) (runner_kwargs : NativeKwargs)
  : Gen SseFrame unit :=
  let relayed := stream_query_native ext w request_dict runner_kwargs in
  try_except
    (_to_raw_sse_event <$> relayed.1, relayed.2)
    (λ e,
       let error_data :=
         match e with
         | BaseError c m => [("code", PInt c); ("message", PStr m)]
         | Exception _ _ =>
             [("code", PInt 500); ("message", PStr (exn_str ext e))]
         end in
       yield (_to_raw_sse_event (NativeDict error_data)) ;;
       yield (_to_raw_sse_event (NativeStr DONE))).

(** ** Observations on the adapter's output *)

(** The identity of a logical message: the correlation id, as the text
    that enters the state key, and the message kind. *)
Definition identity (item : Item) : string * MessageType :=
  (format_opt (correlation_id item), message_kind item).

(** The identity as the specification words it: the correlation id
    itself and the message kind.  An item without correlation id and an
    item whose correlation id is the text [None] differ in it and have
    one [identity], since both render [None] in the state key. *)
Definition claimed_identity (item : Item) : option string * MessageType :=
  (correlation_id item, message_kind item).

#[global] Instance ToolData_eq_dec : EqDecision ToolData.
Proof. solve_decision. Defined.

#[global] Instance Event_eq_dec : EqDecision Event.
Proof. solve_decision. Defined.

(** How often an event occurs in an output. *)
Definition occurrences (e : Event) (es : list Event) : nat :=
  length (filter (λ e', e' = e) es).

(** The builder an event belongs to. *)
Definition event_key (e : Event) : option string :=
  match e with
  | RbCreated | RbInProgress | RbCompleted => None
  | MessageOpened k _ _ | TextDelta k _ | TextSet k _ | DataSet k _
  | ContentCompleted k | MessageCompleted k => Some k
  end.

Definition opened_key (e : Event) : option string :=
  match e with
  | MessageOpened k _ _ => Some k
  | _ => None
  end.

(** Keys of the message-opened events, in order of emission. *)
Definition opened_keys (es : list Event) : list string := omap opened_key es.

(** The content events (deltas, replacements, data), in order. *)
Definition is_content_event (e : Event) : bool :=
  match e with
  | TextDelta _ _ | TextSet _ _ | DataSet _ _ => true
  | _ => false
  end.

Definition content_events (es : list Event) : list Event :=
  filter (λ e, is_content_event e = true) es.

(** Events that end something: a content, a message, the response. *)
Definition is_closing_event (e : Event) : bool :=
  match e with
  | ContentCompleted _ | MessageCompleted _ | RbCompleted => true
  | _ => false
  end.

Definition text_delta (e : Event) : option string :=
  match e with
  | TextDelta _ d => Some d
  | _ => None
  end.

Definition text_deltas (es : list Event) : list string := omap text_delta es.

Definition concat_all (l : list string) : string := foldr String.append "" l.

(** All items of a source stream, in processing order. *)
Definition stream_items (src : SourceStream) : list Item :=
  concat (chunk_items <$> chunks src).

(** Each text extends the one before it; the first one extends [acc]. *)
Fixpoint extends_previous (acc : string) (texts : list string) : Prop :=
  match texts with
  | [] => True
  | t :: rest => String.prefix acc t = true ∧ extends_previous t rest
  end.

(** The part of each text beyond the one before it. *)
Fixpoint suffixes (acc : string) (texts : list string) : list string :=
  match texts with
  | [] => []
  | t :: rest => string_drop (String.length acc) t :: suffixes t rest
  end.

Definition nonempty_suffixes (acc : string) (texts : list string)
  : list string :=
  filter (λ d, d ≠ "") (suffixes acc texts).

(** Keys of the entries that are not completed, in iteration order. *)
Definition is_open (v : AdapterVars) (k : string) : Prop :=
  is_completed <$> state_map v !! k = Some false.

#[global] Instance is_open_dec v k : Decision (is_open v k).
Proof. unfold is_open. apply _. Defined.

Definition open_keys (v : AdapterVars) : list string :=
  filter (is_open v) (state_keys v).

(** What one closing attempt of the final loop yields. *)
Definition closure_attempt (cb_raises mb_raises : string → option exn)
    (k : string) : list Event :=
  match cb_raises k, mb_raises k with
  | Some _, _ => []
  | None, Some _ => [ContentCompleted k]
  | None, None => [ContentCompleted k; MessageCompleted k]
  end.

(** Response-level completion, from the runner's own response or from
    the adapter's response builder. *)
Definition is_response_completed (n : Numbered) : bool :=
  match payload_of n with
  | ResponseEvent r => bool_decide (resp_status r = Completed)
  | AdaptedEvent RbCompleted => true
  | AdaptedEvent _ => false
  end.

(** ** Vocabulary for the adapter loop *)

Section Outcomes.
Variables cb_raises mb_raises : string → option exn.

(** Outcome of lines 119-124 when they do not raise: either nothing
    is closed, or the previously active entry is. *)
Inductive previous_closed (key : string) (v : AdapterVars)
  : list Event → AdapterVars → Prop :=
| previous_kept :
    (∀ last, last_active_key v = Some last → last ≠ "" → last ≠ key →
             ¬ is_open v last) →
    previous_closed key v [] v
| previous_forced last :
    last_active_key v = Some last → last ≠ "" → last ≠ key →
    is_open v last →
    cb_raises last = None → mb_raises last = None →
    previous_closed key v
      [ContentCompleted last; MessageCompleted last]
      (mark_completed last v).

(** Outcome of lines 186-189 when they do not raise. *)
Inductive finished_closed (item : Item) (key : string) (v : AdapterVars)
  : list Event → AdapterVars → Prop :=
| finished_kept :
    (msg_status (inner_message item) = Some "finished" → ¬ is_open v key) →
    finished_closed item key v [] v
| finished_forced :
    msg_status (inner_message item) = Some "finished" →
    is_open v key →
    cb_raises key = None → mb_raises key = None →
    finished_closed item key v
      [ContentCompleted key; MessageCompleted key]
      (mark_completed key v).
End Outcomes.

(** Content events of one builder. *)
Definition content_of (key : string) (es : list Event) : Prop :=
  Forall (λ e, is_content_event e = true ∧ event_key e = Some key) es.

(** The loop variables while all items so far had the identity [key]
    and [acc] is the text accumulated for it. *)
Definition accumulating (key acc : string) (v : AdapterVars) : Prop :=
  (last_active_key v = None ∨ last_active_key v = Some key) ∧
  match state_map v !! key with
  | Some st => last_content st = acc
  | None => acc = ""
  end.

(** Number of completion events an entry accounts for. *)
Definition closed_count (v : AdapterVars) (k : string) : nat :=
  if decide (is_completed <$> state_map v !! k = Some true) then 1 else 0.

(** The output so far and the loop variables agree: one message-opened
    event per entry, in the order of the entries, and one pair of
    completion events per completed entry. *)
Record Tracked (es : list Event) (v : AdapterVars) : Prop := {
  tracked_nodup : NoDup (state_keys v);
  tracked_dom : ∀ k, k ∈ state_keys v ↔ is_Some (state_map v !! k);
  tracked_opened : opened_keys es = state_keys v;
  tracked_content : ∀ k, occurrences (ContentCompleted k) es = closed_count v k;
  tracked_message : ∀ k, occurrences (MessageCompleted k) es = closed_count v k
}.

(** Only the active entry can be open. *)
Record Focused (v : AdapterVars) : Prop := {
  focused_open : ∀ k, is_open v k → last_active_key v = Some k;
  focused_active :
    ∀ k, last_active_key v = Some k → k ≠ "" ∧ is_Some (state_map v !! k)
}.

(** ** Sample surroundings

    A backend that behaves as [backend] says, builders and conversation
    service that never fail, and a started runner with an empty cache. *)

Definition sample_externals (backend : exn + SourceStream) : Externals :=
  {| cb_complete_raises := λ _, None;
     mb_complete_raises := λ _, None;
     _ensure_safe_json_string := λ _, "{}";
     _extract_alias_output_obj := PStr;
     uuid_parse := λ _, None;
     uuid5_dns := λ _, 5%N;
     uuid4_request := "request-1";
     uuid4_session := "0001";
     uuid4_task := 7%N;
     create_conversation :=
       λ n, inr {| conv_id := IdUUID (N.of_nat (100 + n));
                   conv_repr := "Conversation" |};
     ChatRequest_model_validate :=
       λ _, Valid {| query := "hi"; chat_mode := "general" |};
     ChatService_chat := λ _ _ _ _, backend;
     BaseError_str := λ _ m, m |}.

Definition sample_world : World :=
  {| runner := {| _health := true;
                  default_chat_mode := "general";
                  default_conv_name := "webui";
                  _session_conv_cache := ∅ |};
     created_conversations := [] |}.

Definition sample_request (input : pyval) : AgentRequest :=
  {| req_id := None; req_session_id := Some "s1"; req_input := input;
     req_user_id := None; req_conversation_id := None; req_task_id := None;
     req_chat_mode := None |}.

Definition text_item (id : string) (status : option string) (content : string)
  : Item :=
  {| item_id := Some id;
     item_message :=
       Some {| msg_type := Some "text"; msg_status := status;
               msg_tool_call_id := None; msg_content := Some content;
               msg_files := None; msg_tool_name := None;
               msg_arguments := None |} |}.

(** A text item that carries neither an id nor a tool-call id. *)
Definition anonymous_text_item (content : string) : Item :=
  {| item_id := None;
     item_message :=
       Some {| msg_type := Some "text"; msg_status := None;
               msg_tool_call_id := None; msg_content := Some content;
               msg_files := None; msg_tool_name := None;
               msg_arguments := None |} |}.

Definition no_failure : string → option exn := λ _, None.

(** Last character of a string: the message kinds differ in it. *)
Fixpoint last_char (s : string) : option ascii :=
  match s with
  | EmptyString => None
  | String c EmptyString => Some c
  | String _ s' => last_char s'
  end.

(** Events that belong to a builder (all but the response-level ones). *)
Definition keyed (e : Event) : Prop := is_Some (event_key e).

(** ** Vocabulary for the runner's output *)

(** [isinstance(blk, dict) and blk.get("type") == "text"], the test of
    the block loop of [_extract_text_from_agent_request]. *)
Definition is_text_block (blk : pyval) : bool :=
  match blk with
  | PDict d => py_eq_str (dict_get d "type") "text"
  | _ => false
  end.

(** The status of the runner's own response in a yielded object; the
    adapter's objects carry none of it. *)
Definition own_status (n : Numbered) : option RunStatus :=
  match payload_of n with
  | ResponseEvent r => Some (resp_status r)
  | AdaptedEvent _ => None
  end.

(** The two events every started call of [stream_query] begins with. *)
Definition opening_events (ext : Externals) (request : AgentRequest)
  : list Numbered :=
  let response :=
    new_response (request_id_of ext request) (session_id_of ext request) in
  [{| sequence_number := 0; payload_of := ResponseEvent response |};
   {| sequence_number := 1;
      payload_of := ResponseEvent (in_progress response) |}].

(** The failed event of a call that ends before the backend is reached. *)
Definition early_failure (ext : Externals) (request : AgentRequest)
    (code message : string) : Numbered :=
  let response :=
    new_response (request_id_of ext request) (session_id_of ext request) in
  {| sequence_number := 2;
     payload_of :=
       ResponseEvent
         (failed {| error_code := code; error_message := message |}
                 (in_progress response)) |}.

(** Surroundings that differ from given ones in one component. *)
Definition with_validation (validate : pyval → Validation) (ext : Externals)
  : Externals :=
  {| cb_complete_raises := cb_complete_raises ext;
     mb_complete_raises := mb_complete_raises ext;
     _ensure_safe_json_string := _ensure_safe_json_string ext;
     _extract_alias_output_obj := _extract_alias_output_obj ext;
     uuid_parse := uuid_parse ext;
     uuid5_dns := uuid5_dns ext;
     uuid4_request := uuid4_request ext;
     uuid4_session := uuid4_session ext;
     uuid4_task := uuid4_task ext;
     create_conversation := create_conversation ext;
     ChatRequest_model_validate := validate;
     ChatService_chat := ChatService_chat ext;
     BaseError_str := BaseError_str ext |}.

Definition with_creation (create : nat → exn + Conversation) (ext : Externals)
  : Externals :=
  {| cb_complete_raises := cb_complete_raises ext;
     mb_complete_raises := mb_complete_raises ext;
     _ensure_safe_json_string := _ensure_safe_json_string ext;
     _extract_alias_output_obj := _extract_alias_output_obj ext;
     uuid_parse := uuid_parse ext;
     uuid5_dns := uuid5_dns ext;
     uuid4_request := uuid4_request ext;
     uuid4_session := uuid4_session ext;
     uuid4_task := uuid4_task ext;
     create_conversation := create;
     ChatRequest_model_validate := ChatRequest_model_validate ext;
     ChatService_chat := ChatService_chat ext;
     BaseError_str := BaseError_str ext |}.

Definition with_uuid_parse (parse : string → option UUID) (ext : Externals)
  : Externals :=
  {| cb_complete_raises := cb_complete_raises ext;
     mb_complete_raises := mb_complete_raises ext;
     _ensure_safe_json_string := _ensure_safe_json_string ext;
     _extract_alias_output_obj := _extract_alias_output_obj ext;
     uuid_parse := parse;
     uuid5_dns := uuid5_dns ext;
     uuid4_request := uuid4_request ext;
     uuid4_session := uuid4_session ext;
     uuid4_task := uuid4_task ext;
     create_conversation := create_conversation ext;
     ChatRequest_model_validate := ChatRequest_model_validate ext;
     ChatService_chat := ChatService_chat ext;
     BaseError_str := BaseError_str ext |}.

(** A backend that answers with nothing. *)
Definition silent_backend : exn + SourceStream :=
  inr {| chunks := []; failure := None |}.

(** Calls of [_get_or_create_conversation_id] that run one after
    another, each to its end, for the sessions and users listed: the
    world they leave. *)
Definition resolve_in_turn (ext : Externals) (calls : list (string * UUID))
    (w : World) : World :=
  foldl (λ w call, (_get_or_create_conversation_id ext call.1 call.2 w).2)
        w calls.

(** ** Vocabulary for the native path *)

(** The error dictionary of [stream_query_native] for an exception of
    the backend (lines 232-239). *)
Definition native_error_chunk (ext : Externals) (exc : exn) : NativeChunk :=
  NativeDict
    match exc with
    | BaseError c m => [("error", PStr m); ("code", PInt c)]
    | Exception cls _ =>
        [("error", PStr (exn_str ext exc)); ("code", PInt 500);
         ("error_type", PStr cls)]
    end.

(** The dictionary of lines 190-197. *)
Definition missing_context_chunk : NativeChunk :=
  NativeDict
    [("error", PStr "missing_context");
     ("code", PInt 422);
     ("message",
      PStr ("Native mode requires user_id and conversation_id "
            +:+ "in kwargs or request body."))].

(** The dictionaries of lines 203-215. *)
Definition invalid_request_chunk (ext : Externals) (v : Validation)
  : NativeChunk :=
  NativeDict
    match v with
    | Invalid _ detail =>
        [("error", PStr "invalid_request");
         ("code", PInt 422);
         ("message", PStr "ChatRequest validation failed");
         ("detail", detail)]
    | ValidationCrash exc =>
        [("error", PStr "invalid_request");
         ("code", PInt 500);
         ("message", PStr (exn_str ext exc))]
    | Valid _ => []
    end.

(** ** The SSE relay when a chunk does not serialise

    [_to_raw_sse_event] and [event_generator] of [chat_runtime.py] once
    more, with the failure of the conversion to text.  For a chunk that
    is not the terminator, lines 67-70 call [model_dump] where there is
    one and then [json.dumps]; either can raise, and does so inside the
    [try] of [event_generator].  [frame_raises c] is that exception for
    the chunk [c], if any.  It is consulted for the chunks of the backend
    and for a dictionary with a field that is neither a string nor an
    integer (the [detail] of a rejected request, which is what
    [errors()] returns); a string, and a dictionary of strings and
    integers, always have a JSON text.  The module keeps the names of
    the source apart from the definitions above, which are the case in
    which every chunk serialises. *)
Module ChatRuntime.

Definition scalar_fields (d : list (string * pyval)) : bool :=
  forallb (λ kv, match kv.2 with
                 | PStr _ | PInt _ => true
                 | _ => false
                 end) d.

Definition always_serialises (data : NativeChunk) : bool :=
  match data with
  | NativeStr _ => true
  | NativeDict d => scalar_fields d
  | NativeRaw _ => false
  end.

Definition _to_raw_sse_event (frame_raises : NativeChunk → option exn)
    (data : NativeChunk) : exn + SseFrame :=
  match data with
  | NativeStr s => inr (if String.eqb s DONE then SseDone else SseData data)
  | _ =>
      if always_serialises data then inr (SseData data)
      else
        match frame_raises data with
        | Some x => inl x
        | None => inr (SseData data)
        end
  end.

(** [yield _to_raw_sse_event(chunk)] *)
Definition yield_frame (frame_raises : NativeChunk → option exn)
    (data : NativeChunk) : Gen SseFrame unit :=
  match _to_raw_sse_event frame_raises data with
  | inl x => raise x
  | inr frame => yield frame
  end.

(** The loop of lines 83-87 over what [stream_query_native] yields and
    the way it ends; the runner's generator is not resumed once a
    conversion has raised. *)
Fixpoint relay_frames (frame_raises : NativeChunk → option exn)
    (chunks : list NativeChunk) (ending : exn + unit) : Gen SseFrame unit :=
  match chunks with
  | [] =>
      match ending with
      | inl x => raise x
      | inr _ => mret tt
      end
  | chunk :: rest =>
      yield_frame frame_raises chunk ;;
      relay_frames frame_raises rest ending
  end.

(** The dictionary of lines 89-94. *)
Definition error_data (ext : Externals) (e : exn) : list (string * pyval) :=
  match e with
  | BaseError c m => [("code", PInt c); ("message", PStr m)]
  | Exception _ _ => [("code", PInt 500); ("message", PStr (exn_str ext e))]
  end.

Definition event_generator (frame_raises : NativeChunk → option exn)
    (ext : Externals) (w : World) (request_dict : NativeRequest)
    (runner_kwargs : NativeKwargs) : Gen SseFrame unit :=
  let relayed := stream_query_native ext w request_dict runner_kwargs in
  try_except
    (relay_frames frame_raises relayed.1 relayed.2)
    (λ e,
       yield_frame frame_raises (NativeDict (error_data ext e)) ;;
       yield_frame frame_raises (NativeStr DONE)).

End ChatRuntime.

(** ** Disconnect listener of the streaming response *)

(** The attributes [EnhancedStreamingResponse] adds to a streaming
    response. *)
Record EnhancedStreamingResponse : Type := {
  esr_user_id : UUID;
  esr_task_id : UUID
}.

(** Where [listen_for_disconnect] stands after the messages delivered
    so far: suspended in [receive()], or left through [break], or left by
    an exception of [stop_chat]. *)
Inductive Listener : Type :=
| Receiving
| Left
| LeftRaising (x : exn).

(** [listen_for_disconnect] on the messages [receive()] delivers, each
    given by its ["type"].  The result lists the calls of
    [ChatService.stop_chat] (user and task), the state of the
    coroutine, and the messages it has not read. *)
Fixpoint listen_for_disconnect (stop_chat : UUID → UUID → option exn)
    (self : EnhancedStreamingResponse) (messages : list string)
  : list (UUID * UUID) * Listener * list string :=
  match messages with
  | [] => ([], Receiving, [])
  | message :: rest =>
      if String.eqb message "http.disconnect" then
        ([(esr_user_id self, esr_task_id self)],
         match stop_chat (esr_user_id self) (esr_task_id self) with
         | Some x => LeftRaising x
         | None => Left
         end,
         rest)
      else listen_for_disconnect stop_chat self rest
  end.

(** ** The runner singleton

    [get_alias_runner] of [alias_runner_singleton.py].  Runners are
    named by the order of their construction.  [start_raises r] is the
    exception [runner.start()] raises for runner [r], if any. *)

(** The module globals: [_runner], whether [_lock] is held (a lock that
    does not exist yet is not held), and the number of [AliasRunner()]
    constructions so far. *)
Record Singleton : Type := {
  _runner : option nat;
  _lock_held : bool;
  constructed : nat
}.

Definition initial_singleton : Singleton :=
  {| _runner := None; _lock_held := false; constructed := 0 |}.

(** Control points of one call.  The point before [async with _lock] is
    kept whether or not the lock is free, and any call waiting there may
    be the next to get a free lock: this covers every order in which
    [asyncio.Lock] wakes its waiters, and more. *)
Inductive Acquisition : Type :=
| Calling                   (* not started *)
| AwaitingLock              (* before [async with _lock] *)
| AwaitingStart (r : nat)   (* holds the lock, suspended in [r.start()] *)
| GotRunner (r : nat)       (* returned [r] *)
| StartFailed (x : exn).    (* left by the exception of [start()] *)

(** One uninterrupted stretch of a call. *)
Definition get_alias_runner_step (start_raises : nat → option exn)
    (pc : Acquisition) (g : Singleton) : Acquisition * Singleton :=
  match pc with
  | Calling =>
      match _runner g with
      | Some r => (GotRunner r, g)
      | None => (AwaitingLock, g)
      end
  | AwaitingLock =>
      if _lock_held g then (AwaitingLock, g)
      else
        match _runner g with
        | Some r => (GotRunner r, g)
        | None =>
            (AwaitingStart (constructed g),
             {| _runner := None; _lock_held := true;
                constructed := S (constructed g) |})
        end
  | AwaitingStart r =>
      match start_raises r with
      | Some x =>
          (StartFailed x,
           {| _runner := _runner g; _lock_held := false;
              constructed := constructed g |})
      | None =>
          (GotRunner r,
           {| _runner := Some r; _lock_held := false;
              constructed := constructed g |})
      end
  | GotRunner _ | StartFailed _ => (pc, g)
  end.

(** A call that is alone on the event loop. *)
Definition get_alias_runner (start_raises : nat → option exn) (g : Singleton)
  : (exn + nat) * Singleton :=
  let '(pc, g) := get_alias_runner_step start_raises Calling g in
  let '(pc, g) := get_alias_runner_step start_raises pc g in
  let '(pc, g) := get_alias_runner_step start_raises pc g in
  match pc with
  | GotRunner r => (inr r, g)
  | StartFailed x => (inl x, g)
  | _ => (inl (Exception "RuntimeError" "coroutine not finished"), g)
  end.

(** Any number of calls on one event loop, each at its control point. *)
Record Callers : Type := {
  globals : Singleton;
  callers : nat → Acquisition
}.

Definition initial_callers : Callers :=
  {| globals := initial_singleton; callers := λ _, Calling |}.

(** The event loop resumes call [i] until its next suspension. *)
Definition resume_caller (start_raises : nat → option exn) (i : nat)
    (c : Callers) : Callers :=
  let step := get_alias_runner_step start_raises (callers c i) (globals c) in
  {| globals := step.2;
     callers := λ j, if decide (j = i) then step.1 else callers c j |}.

Definition run_callers (start_raises : nat → option exn)
    (schedule : list nat) (c : Callers) : Callers :=
  foldl (λ c i, resume_caller start_raises i c) c schedule.

(** What every reachable state of the calls satisfies. *)
Record Guarded (start_raises : nat → option exn) (c : Callers) : Prop := {
  guarded_holder :
    _lock_held (globals c) = true → ∃ i r, callers c i = AwaitingStart r;
  guarded_held :
    ∀ i r, callers c i = AwaitingStart r → _lock_held (globals c) = true;
  guarded_alone :
    ∀ i j r r', callers c i = AwaitingStart r →
                callers c j = AwaitingStart r' → i = j;
  guarded_unset : _lock_held (globals c) = true → _runner (globals c) = None;
  guarded_got :
    ∀ i r, callers c i = GotRunner r → _runner (globals c) = Some r;
  guarded_started :
    ∀ r, _runner (globals c) = Some r → start_raises r = None
}.

(** What holds in addition while no start has failed: a runner has been
    constructed exactly when the lock is held or the global is set, and
    it is the first one. *)
Record FirstOnly (c : Callers) : Prop := {
  first_count :
    constructed (globals c) =
      if _lock_held (globals c) then 1
      else match _runner (globals c) with
           | Some _ => 1
           | None => 0
           end;
  first_runner : ∀ r, _runner (globals c) = Some r → r = 0;
  first_starting : ∀ i r, callers c i = AwaitingStart r → r = 0
}.

(** ** Reading the adapter's output as a consumer does *)

(** Every event of a builder comes after the message-opened event of
    that builder; [seen] are the builders opened before [es]. *)
Fixpoint opened_before_use (seen : gset string) (es : list Event) : Prop :=
  match es with
  | [] => True
  | e :: rest =>
      match opened_key e with
      | Some k => opened_before_use ({[k]} ∪ seen) rest
      | None =>
          match event_key e with
          | Some k => k ∈ seen
          | None => True
          end ∧ opened_before_use seen rest
      end
  end.

(** The builders of all entries are among [seen]. *)
Definition covers (seen : gset string) (v : AdapterVars) : Prop :=
  ∀ k, is_Some (state_map v !! k) → k ∈ seen.

(** A stretch of the adapter that starts with the builders [seen]
    opened: its events use opened builders only, and when it returns,
    [post] holds of its result and of the builders opened by then. *)
Definition uses_opened {A} (seen : gset string) (m : Gen Event A)
    (post : A → gset string → Prop) : Prop :=
  opened_before_use seen m.1
  ∧ ∀ a, m.2 = inr a → post a (seen ∪ list_to_set (opened_keys m.1)).

(** Every message-completed event directly follows the
    content-completed event of the same builder; [prev] is the event
    before [es]. *)
Fixpoint completions_paired (prev : option Event) (es : list Event) : Prop :=
  match es with
  | [] => True
  | e :: rest =>
      match e with
      | MessageCompleted k => prev = Some (ContentCompleted k)
      | _ => True
      end ∧ completions_paired (Some e) rest
  end.

(** The text a consumer holds for the builder [key] after the events
    [es], starting from [acc]: a delta is appended, a replacement
    replaces. *)
Definition replay_event (key : string) (acc : string) (e : Event) : string :=
  match e with
  | TextDelta k d => if String.eqb k key then acc +:+ d else acc
  | TextSet k t => if String.eqb k key then t else acc
  | _ => acc
  end.

Definition replay (key : string) (acc : string) (es : list Event) : string :=
  foldl (replay_event key) acc es.

(** The raw text of the last item with state key [key]. *)
Definition last_text_of (key : string) (items : list Item) : option string :=
  last (raw_text <$> filter (λ item, state_key item = key) items).

(** The text accumulated for [key] in the loop variables. *)
Definition accumulated (v : AdapterVars) (key : string) : string :=
  match state_map v !! key with
  | Some st => last_content st
  | None => ""
  end.

(** An event agrees with the kind its key names: the role and the type
    of an opened message, text for MESSAGE and REASONING, a function
    call for PLUGIN_CALL and a function-call output for
    PLUGIN_CALL_OUTPUT, each with the call id of the key. *)
Definition well_kinded (e : Event) : Prop :=
  match e with
  | MessageOpened k role t =>
      (∃ id, k = make_state_key id t)
      ∧ role = (if decide (t = PLUGIN_CALL_OUTPUT) then TOOL else ASSISTANT)
  | TextDelta k _ | TextSet k _ =>
      ∃ id t, k = make_state_key id t ∧ is_text_kind t = true
  | DataSet k (FunctionCall id _ _) => k = make_state_key id PLUGIN_CALL
  | DataSet k (FunctionCallOutput id _ _) =>
      k = make_state_key id PLUGIN_CALL_OUTPUT
  | _ => True
  end.

(** ** JSON helpers of the adapter module

    [_try_deep_parse], [_ensure_safe_json_string] and
    [_extract_alias_output_obj] of [alias_stream_adapter.py], over the
    [json] module and [str.strip] as they are given.  The helpers treat
    every value that is no string, list or dictionary alike.  The names
    are those of the source; the module keeps them apart from the fields
    of [Externals] that stand for them in the adapter. *)
Module AdapterJson.

Section Helpers.
(** [json.loads]: [None] when it raises. *)
Variable json_loads : string → option pyval.
(** [json.dumps(v, ensure_ascii=False)] *)
Variable json_dumps : pyval → string.
(** [s.strip()] *)
Variable strip : string → string.

Definition startswith (c : ascii) (s : string) : bool :=
  match s with
  | String c' _ => Ascii.eqb c' c
  | EmptyString => false
  end.

Definition endswith (c : ascii) (s : string) : bool :=
  match last_char s with
  | Some c' => Ascii.eqb c' c
  | None => false
  end.

(** The test of lines 23-25. *)
Definition bracketed (content : string) : bool :=
  (startswith "{" content && endswith "}" content)
  || (startswith "[" content && endswith "]" content).

(** [_try_deep_parse]; [fuel] bounds the depth of the recursion, and a
    call that has none left returns its argument. *)
Fixpoint _try_deep_parse (fuel : nat) (val : pyval) : pyval :=
  match fuel with
  | O => val
  | S fuel =>
      match val with
      | PStr s =>
          let content := strip s in
          if bracketed content then
            match json_loads content with
            | Some parsed => _try_deep_parse fuel parsed
            | None => val
            end
          else val
      | PList l => PList (map (_try_deep_parse fuel) l)
      | PDict d => PDict (map (λ kv, (kv.1, _try_deep_parse fuel kv.2)) d)
      | _ => val
      end
  end.

Definition _ensure_safe_json_string (fuel : nat) (val : pyval) : string :=
  match _try_deep_parse fuel val with
  | PNone => "{}"
  | parsed_val => json_dumps parsed_val
  end.

(** [data[0].get("output")] raises for a first element that is no
    dictionary; the handler then returns the string itself. *)
Definition _extract_alias_output_obj (content_str : string) : pyval :=
  match json_loads content_str with
  | Some (PList (PDict first :: _)) => dict_get first "output"
  | _ => PStr content_str
  end.

(** A string that [_try_deep_parse] leaves as it is. *)
Definition inert (s : string) : Prop :=
  bracketed (strip s) = false ∨ json_loads (strip s) = None.

(** A value none of whose strings can be parsed further. *)
Unset Elimination Schemes.
Inductive settled : pyval → Prop :=
| settled_none : settled PNone
| settled_bool b : settled (PBool b)
| settled_int z : settled (PInt z)
| settled_str s : inert s → settled (PStr s)
| settled_list l : Forall settled l → settled (PList l)
| settled_dict d : Forall (λ kv, settled kv.2) d → settled (PDict d).

(** The calls of [_try_deep_parse] themselves, without fuel:
    [deep_parse_returns n val r] says that the call on [val] returns
    [r] and that the calls it makes nest at most [n] deep, itself
    counted.  One rule for each way through lines 21-37. *)
Inductive deep_parse_returns : nat → pyval → pyval → Prop :=
| returns_nested n s parsed r :
    bracketed (strip s) = true →
    json_loads (strip s) = Some parsed →
    deep_parse_returns n parsed r →
    deep_parse_returns (S n) (PStr s) r
| returns_undecoded n s :
    bracketed (strip s) = true →
    json_loads (strip s) = None →
    deep_parse_returns (S n) (PStr s) (PStr s)
| returns_plain n s :
    bracketed (strip s) = false →
    deep_parse_returns (S n) (PStr s) (PStr s)
| returns_list n l rs :
    Forall2 (deep_parse_returns n) l rs →
    deep_parse_returns (S n) (PList l) (PList rs)
| returns_dict n d rs :
    Forall2 (λ kv kr, kr.1 = kv.1 ∧ deep_parse_returns n kv.2 kr.2) d rs →
    deep_parse_returns (S n) (PDict d) (PDict rs)
| returns_none n : deep_parse_returns (S n) PNone PNone
| returns_bool n b : deep_parse_returns (S n) (PBool b) (PBool b)
| returns_int n z : deep_parse_returns (S n) (PInt z) (PInt z).
Set Elimination Schemes.

End Helpers.

(** The size of a value: one for each node and one for each character
    of a string in it.  The JSON text of a value is at least that
    long. *)
Fixpoint weight (v : pyval) : nat :=
  match v with
  | PStr s => S (String.length s)
  | PList l => S (list_sum (map weight l))
  | PDict d => S (list_sum (map (λ kv, weight kv.2) d))
  | _ => 1
  end.

(** A decoder whose results are no larger than the text they come
    from, and a [strip] that does not lengthen. *)
Definition shrinking (json_loads : string → option pyval) : Prop :=
  ∀ s v, json_loads s = Some v → (weight v ≤ String.length s)%nat.

Definition shortening (strip : string → string) : Prop :=
  ∀ s, (String.length (strip s) ≤ String.length s)%nat.

(** A decoder for a few texts, and a [strip] for texts without
    surrounding white space. *)
Definition sample_json_loads (s : string) : option pyval :=
  if String.eqb s "[]" then Some (PList [])
  else if String.eqb s "{}" then Some (PDict [])
  else if String.eqb s "[[]]" then Some (PList [PList []])
  else if String.eqb s "[{}]" then Some (PList [PDict []])
  else if String.eqb s "[1]" then Some (PList [PInt 1])
  else None.

Definition sample_strip (s : string) : string := s.

End AdapterJson.

(** * Theorems *)

(** ** Generators *)
Section GenFacts.
Context {E A B : Type}.
Implicit Types (m : Gen E A) (f : A → Gen E B).

Lemma bind_returned m f es a :
  m = (es, inr a) → m ≫= f = (es ++ (f a).1, (f a).2).
Proof. intros ->. reflexivity. Qed.

Lemma bind_escaped m f es x :
  m = (es, inl x) → m ≫= f = (es, inl x).
Proof. intros ->. reflexivity. Qed.

Lemma bind_inv_returned m f es b :
  m ≫= f = (es, inr b) →
  ∃ es1 a es2, m = (es1, inr a) ∧ f a = (es2, inr b) ∧ es = es1 ++ es2.
Proof.
  destruct m as [es1 [x|a]]; cbn; [discriminate|].
  unfold mbind, Gen_bind, gen_bind; cbn.
  destruct (f a) as [es2 r] eqn:Hf; cbn. intros [= <- ->].
  by exists es1, a, es2.
Qed.

Lemma bind_inv_escaped m f es x :
  m ≫= f = (es, inl x) →
  m = (es, inl x) ∨
  ∃ es1 a es2, m = (es1, inr a) ∧ f a = (es2, inl x) ∧ es = es1 ++ es2.
Proof.
  destruct m as [es1 [y|a]]; unfold mbind, Gen_bind, gen_bind; cbn.
  - intros [= <- <-]. by left.
  - destruct (f a) as [es2 r] eqn:Hf; cbn. intros [= <- ->].
    right. by exists es1, a, es2.
Qed.
End GenFacts.

(** ** Strings *)
Lemma string_app_length (s t : string) :
  String.length (s +:+ t) = String.length s + String.length t.
Proof. induction s as [|c s IH]; simpl; [done|]. by f_equal. Qed.

Lemma prefix_drop (p s : string) :
  String.prefix p s = true → s = p +:+ string_drop (String.length p) s.
Proof.
  revert s. induction p as [|c p IH]; intros [|d s]; simpl; try done.
  destruct (Ascii.ascii_dec c d) as [->|]; [|done].
  intros H.
  change (String d s = String d (p +:+ string_drop (String.length p) s)).
  f_equal. by apply IH.
Qed.

Lemma prefix_app (p t : string) : String.prefix p (p +:+ t) = true.
Proof.
  induction p as [|c p IH]; simpl; [by destruct t|].
  by destruct (Ascii.ascii_dec c c).
Qed.

Lemma drop_app (p t : string) : string_drop (String.length p) (p +:+ t) = t.
Proof. induction p as [|c p IH]; simpl; [by destruct t|done]. Qed.

(** ** State keys determine identities *)

Lemma last_char_app (s t : string) :
  t ≠ "" → last_char (s +:+ t) = last_char t.
Proof.
  intros Ht. induction s as [|c s IH]; [done|].
  change (String c s +:+ t) with (String c (s +:+ t)).
  simpl. rewrite IH. destruct (s +:+ t) eqn:Hst; [|done].
  apply (f_equal String.length) in Hst. rewrite string_app_length in Hst.
  destruct t; [done|]. simpl in Hst. lia.
Qed.

Lemma append_inj_r (s1 s2 t : string) : s1 +:+ t = s2 +:+ t → s1 = s2.
Proof.
  revert s2. induction s1 as [|c s1 IH]; intros [|d s2] H.
  - done.
  - change (t = String d (s2 +:+ t)) in H.
    apply (f_equal String.length) in H. simpl in H.
    rewrite string_app_length in H. lia.
  - change (String c (s1 +:+ t) = t) in H.
    apply (f_equal String.length) in H. simpl in H.
    rewrite string_app_length in H. lia.
  - change (String c (s1 +:+ t) = String d (s2 +:+ t)) in H.
    injection H as -> H. f_equal. by apply IH.
Qed.

Lemma make_state_key_inj a1 t1 a2 t2 :
  make_state_key a1 t1 = make_state_key a2 t2 →
  format_opt a1 = format_opt a2 ∧ t1 = t2.
Proof.
  unfold make_state_key. intros H.
  assert (t1 = t2) as ->.
  { apply (f_equal last_char) in H.
    rewrite !last_char_app in H by (by destruct t1 || by destruct t2).
    destruct t1, t2; simpl in H; congruence. }
  split; [|done]. by apply append_inj_r in H.
Qed.

Lemma state_key_identity (i1 i2 : Item) :
  state_key i1 = state_key i2 ↔ identity i1 = identity i2.
Proof.
  unfold state_key, identity. split.
  - intros [H1 H2]%make_state_key_inj. by rewrite H1, H2.
  - intros [= H1 H2]. unfold make_state_key. by rewrite H1, H2.
Qed.

Lemma state_key_nonempty (item : Item) : state_key item ≠ "".
Proof.
  unfold state_key, make_state_key. intros H.
  apply (f_equal String.length) in H.
  rewrite string_app_length in H. simpl in H. lia.
Qed.

(** ** The stages of [process_item] *)

Section Stages.
Variables cbr mbr : string → option exn.
Variable js : pyval → string.
Variable ex : string → pyval.

Lemma close_state_cases key v :
  close_state cbr mbr key v =
    match cbr key, mbr key with
    | Some x, _ => ([], inl x)
    | None, Some x => ([ContentCompleted key], inl x)
    | None, None =>
        ([ContentCompleted key; MessageCompleted key],
         inr (mark_completed key v))
    end.
Proof.
  unfold close_state, cb_complete, mb_complete.
  by destruct (cbr key), (mbr key).
Qed.

Lemma close_state_returned key v es v' :
  close_state cbr mbr key v = (es, inr v') →
  cbr key = None ∧ mbr key = None ∧
  es = [ContentCompleted key; MessageCompleted key] ∧
  v' = mark_completed key v.
Proof.
  rewrite close_state_cases.
  destruct (cbr key), (mbr key); intros [= <- <-]; done.
Qed.

Lemma close_previous_returned key v es v' :
  close_previous cbr mbr key v = (es, inr v') →
  previous_closed cbr mbr key v es v'.
Proof.
  unfold close_previous.
  destruct (last_active_key v) as [last|] eqn:Hlast; cycle 1.
  { intros [= <- <-]. apply previous_kept. intros ? ?. congruence. }
  assert (∀ l, last_active_key v = Some l → l = last) as Hsame
    by (intros l Hl; congruence).
  destruct (str_truthy (Some last)) eqn:Htruthy; simpl; cycle 1.
  { intros [= <- <-]. constructor. intros l ->%Hsame Hne.
    simpl in Htruthy. apply negb_false_iff, String.eqb_eq in Htruthy. done. }
  destruct (String.eqb last key) eqn:Heq; simpl.
  { intros [= <- <-]. constructor. intros l ->%Hsame _ Hne.
    apply String.eqb_eq in Heq. done. }
  apply String.eqb_neq in Heq.
  simpl in Htruthy. apply negb_true_iff, String.eqb_neq in Htruthy.
  destruct (state_map v !! last) as [old|] eqn:Hold; cycle 1.
  { intros [= <- <-]. constructor. intros l ->%Hsame _ _.
    unfold is_open. by rewrite Hold. }
  destruct (is_completed old) eqn:Hc; simpl.
  { intros [= <- <-]. constructor. intros l ->%Hsame _ _.
    unfold is_open. rewrite Hold. simpl. congruence. }
  intros (Hcb & Hmb & -> & ->)%close_state_returned.
  apply previous_forced; try done.
  unfold is_open. rewrite Hold. simpl. congruence.
Qed.

Lemma open_if_new_cases key t role v :
  open_if_new key t role v =
    match state_map v !! key with
    | None => ([MessageOpened key role t],
               inr (store_state key (new_state t) v))
    | Some _ => ([], inr v)
    end.
Proof. unfold open_if_new. by destruct (state_map v !! key). Qed.

Lemma text_payload_cases key text st :
  text_payload key text st =
    (if String.prefix (last_content st) text then
       let delta := string_drop (String.length (last_content st)) text in
       if bool_decide (delta = "") then [] else [TextDelta key delta]
     else [TextSet key text],
     inr (set_last_content text st)).
Proof.
  unfold text_payload. destruct (String.prefix _ _); [|done].
  simpl. case_bool_decide as Hd.
  - rewrite Hd. done.
  - apply String.eqb_neq in Hd. by rewrite Hd.
Qed.

(** The payload stage yields content events of the key and keeps the
    completion flag; it raises for a tool result without correlation
    id, before any event, and for nothing else. *)
Lemma payload_cases item key st :
  (message_kind item = PLUGIN_CALL_OUTPUT ∧ correlation_id item = None
   ∧ payload js ex item key st
     = ([], inl (Exception "ValidationError" "call_id")))
  ∨ ∃ es st',
      payload js ex item key st = (es, inr st') ∧
      is_completed st' = is_completed st ∧
      Forall (λ e, is_content_event e = true ∧ event_key e = Some key) es.
Proof.
  unfold payload. destruct (message_kind item).
  - right. rewrite text_payload_cases. eexists _, _.
    split; [done|]. split; [done|].
    destruct (String.prefix _ _); [|by repeat constructor].
    simpl. case_bool_decide; by repeat constructor.
  - right. eexists _, _. split; [done|]. split; [done|].
    by repeat constructor.
  - destruct (correlation_id item); [right|by left].
    eexists _, _. split; [done|]. split; [done|]. by repeat constructor.
  - right. rewrite text_payload_cases. eexists _, _.
    split; [done|]. split; [done|].
    destruct (String.prefix _ _); [|by repeat constructor].
    simpl. case_bool_decide; by repeat constructor.
Qed.

Lemma payload_returned item key st es st' :
  payload js ex item key st = (es, inr st') →
  is_completed st' = is_completed st ∧
  Forall (λ e, is_content_event e = true ∧ event_key e = Some key) es.
Proof.
  destruct (payload_cases item key st)
    as [(_ & _ & ->)|(es0 & st0 & -> & Hflag & Hall)]; [done|].
  by intros [= <- <-].
Qed.

Lemma payload_yielded item key st :
  Forall (λ e, is_content_event e = true ∧ event_key e = Some key)
         (payload js ex item key st).1.
Proof.
  destruct (payload_cases item key st)
    as [(_ & _ & ->)|(es0 & st0 & -> & Hflag & Hall)]; [constructor|done].
Qed.

Lemma close_if_finished_returned item key v es v' :
  close_if_finished cbr mbr item key v = (es, inr v') →
  is_Some (state_map v !! key) ∧ finished_closed cbr mbr item key v es v'.
Proof.
  unfold close_if_finished.
  destruct (state_map v !! key) as [st|] eqn:Hst; [|done].
  split; [done|]. revert H.
  case_bool_decide as Hfin; simpl; cycle 1.
  { intros [= <- <-]. by apply finished_kept. }
  destruct (is_completed st) eqn:Hc; simpl.
  { intros [= <- <-]. constructor. intros _.
    unfold is_open. rewrite Hst. simpl. congruence. }
  intros (Hcb & Hmb & -> & ->)%close_state_returned.
  constructor; try done. unfold is_open. rewrite Hst. simpl. congruence.
Qed.

(** A processed item went through the five stages. *)
Lemma process_item_returned item v es v' :
  process_item cbr mbr js ex item v = (es, inr v') →
  ∃ es1 v1 es3 v3 st es4 st' es5,
    let key := state_key item in
    let c := classify (msg_type (inner_message item)) in
    previous_closed cbr mbr key v es1 v1 ∧
    open_if_new key c.1 c.2 (set_last_active key v1) = (es3, inr v3) ∧
    state_map v3 !! key = Some st ∧
    payload js ex item key st = (es4, inr st') ∧
    is_completed st' = is_completed st ∧
    Forall (λ e, is_content_event e = true ∧ event_key e = Some key) es4 ∧
    finished_closed cbr mbr item key (store_state key st' v3) es5 v' ∧
    es = es1 ++ es3 ++ es4 ++ es5.
Proof.
  unfold process_item.
  destruct (classify (msg_type (inner_message item))) as [t role] eqn:Hc.
  intros (es1 & v1 & es' & H1 & H & ->)%bind_inv_returned.
  apply close_previous_returned in H1.
  apply bind_inv_returned in H as (es3 & v3 & es'' & H3 & H & ->).
  destruct (state_map v3 !! state_key item) as [st|] eqn:Hst; [|done].
  apply bind_inv_returned in H as (es4 & st' & es5 & H4 & H5 & ->).
  destruct (payload_returned _ _ _ _ _ H4) as [Hflag Hall].
  apply close_if_finished_returned in H5 as [_ H5].
  exists es1, v1, es3, v3, st, es4, st', es5. simpl. done.
Qed.

End Stages.

(** ** Counting events *)

Lemma occurrences_app e es1 es2 :
  occurrences e (es1 ++ es2) = occurrences e es1 + occurrences e es2.
Proof. unfold occurrences. by rewrite filter_app, length_app. Qed.

Lemma occurrences_absent e es : e ∉ es → occurrences e es = 0.
Proof.
  unfold occurrences. induction es as [|e' es IH]; [done|].
  intros [Hne Hnot]%not_elem_of_cons.
  rewrite filter_cons. destruct (decide (e' = e)); [congruence|auto].
Qed.

Lemma content_not_lifecycle key es e :
  content_of key es → is_content_event e = false → occurrences e es = 0.
Proof.
  unfold content_of. intros Hall He. apply occurrences_absent. intros Hin.
  rewrite Forall_forall in Hall. destruct (Hall _ Hin). congruence.
Qed.

Lemma content_not_opened key es : content_of key es → opened_keys es = [].
Proof.
  unfold opened_keys. induction 1 as [|e es [He _] _ IH]; [done|].
  destruct e; try discriminate He; exact IH.
Qed.

Lemma content_events_all key es : content_of key es → content_events es = es.
Proof.
  unfold content_events. induction 1 as [|e es [He _] _ IH]; [done|].
  rewrite filter_cons, decide_True by done. by rewrite IH.
Qed.

(** ** The bookkeeping invariant *)

Lemma closed_count_mark k v k' :
  closed_count (mark_completed k v) k' =
    if decide (k' = k ∧ is_Some (state_map v !! k)) then 1
    else closed_count v k'.
Proof.
  unfold closed_count, mark_completed; simpl.
  destruct (decide (k = k')) as [<-|Hne].
  - rewrite lookup_alter_eq.
    destruct (state_map v !! k) as [st|] eqn:Hst; simpl.
    + repeat case_decide; try done. exfalso; eauto.
    + repeat case_decide; try done. by destruct select (_ ∧ _) as [_ [? ?]].
  - rewrite lookup_alter_ne by done.
    repeat case_decide; try done. by destruct select (_ ∧ _) as [-> _].
Qed.

Lemma closed_count_store k st v k' :
  closed_count (store_state k st v) k' =
    if decide (k' = k) then (if is_completed st then 1 else 0)
    else closed_count v k'.
Proof.
  unfold closed_count, store_state; simpl.
  destruct (decide (k' = k)) as [->|Hne].
  - rewrite lookup_insert_eq. simpl.
    destruct (is_completed st); by case_decide.
  - by rewrite lookup_insert_ne.
Qed.

Lemma closed_count_open v k : is_open v k → closed_count v k = 0.
Proof.
  unfold is_open, closed_count. intros ->. by rewrite decide_False.
Qed.

Lemma closed_count_absent v k : state_map v !! k = None → closed_count v k = 0.
Proof. unfold closed_count. intros ->. by rewrite decide_False. Qed.

Lemma tracked_initial : Tracked [] initial_vars.
Proof.
  split; simpl; try done.
  - constructor.
  - intros k. rewrite lookup_empty. split; [by intros ?%elem_of_nil|by intros [? ?]].
Qed.

Lemma tracked_close es v k :
  Tracked es v → is_open v k →
  Tracked (es ++ [ContentCompleted k; MessageCompleted k]) (mark_completed k v).
Proof.
  intros [Hnd Hdom Hop Hcc Hmc] Hopen.
  assert (is_Some (state_map v !! k)) as Hsome.
  { unfold is_open in Hopen. destruct (state_map v !! k); [eauto|done]. }
  split; simpl.
  - done.
  - intros k'. rewrite Hdom, lookup_alter.
    destruct (decide (k = k')) as [<-|]; [|done].
    destruct Hsome as [st ->]. simpl. split; eauto.
  - unfold opened_keys in *. rewrite omap_app. simpl. by rewrite app_nil_r.
  - intros k'. rewrite occurrences_app, Hcc, closed_count_mark.
    unfold occurrences. rewrite !filter_cons, filter_nil.
    destruct (decide (k' = k)) as [->|Hne].
    + rewrite closed_count_open by done.
      repeat case_decide; simplify_eq; try done. tauto.
    + repeat case_decide; simplify_eq; simpl; try lia. tauto.
  - intros k'. rewrite occurrences_app, Hmc, closed_count_mark.
    unfold occurrences. rewrite !filter_cons, filter_nil.
    destruct (decide (k' = k)) as [->|Hne].
    + rewrite closed_count_open by done.
      repeat case_decide; simplify_eq; try done. tauto.
    + repeat case_decide; simplify_eq; simpl; try lia. tauto.
Qed.

Lemma tracked_set_last_active es v k :
  Tracked es v → Tracked es (set_last_active k v).
Proof. intros [? ? ? ? ?]. by split. Qed.

Lemma tracked_open es v k role t :
  Tracked es v → state_map v !! k = None →
  Tracked (es ++ [MessageOpened k role t]) (store_state k (new_state t) v).
Proof.
  intros [Hnd Hdom Hop Hcc Hmc] Hnone.
  assert (k ∉ state_keys v) as Hfresh.
  { rewrite Hdom, Hnone. by intros [? ?]. }
  split; simpl; rewrite ?Hnone.
  - apply NoDup_app. split; [done|]. split; [|apply NoDup_singleton].
    intros x Hx ->%list_elem_of_singleton. done.
  - intros k'. rewrite elem_of_app, list_elem_of_singleton, Hdom, lookup_insert.
    destruct (decide (k = k')) as [<-|Hne].
    + split; eauto.
    + split; [intros [?|?]; [done|congruence]|auto].
  - unfold opened_keys in *. rewrite omap_app. simpl. by rewrite Hop.
  - intros k'. rewrite occurrences_app, Hcc, closed_count_store.
    unfold occurrences. rewrite filter_cons, filter_nil.
    destruct (decide (k' = k)) as [->|].
    + rewrite closed_count_absent by done. by case_decide.
    + case_decide; simplify_eq; simpl; lia.
  - intros k'. rewrite occurrences_app, Hmc, closed_count_store.
    unfold occurrences. rewrite filter_cons, filter_nil.
    destruct (decide (k' = k)) as [->|].
    + rewrite closed_count_absent by done. by case_decide.
    + case_decide; simplify_eq; simpl; lia.
Qed.

Lemma tracked_store es v k st st' es' :
  Tracked es v → state_map v !! k = Some st →
  is_completed st' = is_completed st → content_of k es' →
  Tracked (es ++ es') (store_state k st' v).
Proof.
  intros [Hnd Hdom Hop Hcc Hmc] Hst Hflag Hcontent.
  assert (∀ k', closed_count (store_state k st' v) k' = closed_count v k') as Hsame.
  { intros k'. rewrite closed_count_store.
    destruct (decide (k' = k)) as [->|]; [|done].
    unfold closed_count. rewrite Hst, Hflag. simpl.
    destruct (is_completed st); case_decide; congruence. }
  split; simpl; rewrite ?Hst.
  - done.
  - intros k'. rewrite Hdom, lookup_insert.
    destruct (decide (k = k')) as [<-|]; [|done]. rewrite Hst. split; eauto.
  - unfold opened_keys in *. rewrite omap_app.
    change (omap opened_key es') with (opened_keys es').
    rewrite (content_not_opened k es' Hcontent). by rewrite app_nil_r.
  - intros k'. rewrite occurrences_app, Hcc, Hsame.
    rewrite (content_not_lifecycle k es' _ Hcontent) by done. lia.
  - intros k'. rewrite occurrences_app, Hmc, Hsame.
    rewrite (content_not_lifecycle k es' _ Hcontent) by done. lia.
Qed.

(** ** Open entries under the updates of the loop variables *)

Lemma is_open_mark k v k' :
  is_open (mark_completed k v) k' ↔ k' ≠ k ∧ is_open v k'.
Proof.
  unfold is_open, mark_completed; simpl. rewrite lookup_alter.
  destruct (decide (k = k')) as [<-|Hne].
  - destruct (state_map v !! k); simpl; (split; [done|by intros [? _]]).
  - split; [intros ?; split; [congruence|done]|by intros [_ ?]].
Qed.

Lemma is_open_store k st v k' :
  is_open (store_state k st v) k' ↔
  (k' = k ∧ is_completed st = false) ∨ (k' ≠ k ∧ is_open v k').
Proof.
  unfold is_open, store_state; simpl. rewrite lookup_insert.
  destruct (decide (k = k')) as [<-|Hne]; simpl.
  - split; [intros [= ?]; by left|].
    intros [[_ ->]|[? _]]; done.
  - split; [intros ?; right; split; [congruence|done]|].
    intros [[-> _]|[_ ?]]; done.
Qed.

Lemma is_some_mark k v k' :
  is_Some (state_map (mark_completed k v) !! k') ↔ is_Some (state_map v !! k').
Proof.
  unfold mark_completed; simpl. rewrite lookup_alter.
  destruct (decide (k = k')) as [<-|]; [|done].
  by rewrite fmap_is_Some.
Qed.

Lemma is_some_store k st v k' :
  is_Some (state_map (store_state k st v) !! k') ↔
  k' = k ∨ is_Some (state_map v !! k').
Proof.
  unfold store_state; simpl. rewrite lookup_insert.
  destruct (decide (k = k')) as [<-|]; simpl.
  - split; [by left|eauto].
  - split; [by right|]. intros [->|?]; done.
Qed.

Section Invariants.
Variables cbr mbr : string → option exn.
Variable js : pyval → string.
Variable ex : string → pyval.

Lemma previous_closed_tracked key v es v' es0 :
  previous_closed cbr mbr key v es v' → Tracked es0 v → Tracked (es0 ++ es) v'.
Proof.
  intros [Hkept|last Hlast Hne1 Hne2 Hopen Hcb Hmb] Htr.
  - by rewrite app_nil_r.
  - by apply tracked_close.
Qed.

Lemma finished_closed_tracked item key v es v' es0 :
  finished_closed cbr mbr item key v es v' →
  Tracked es0 v → Tracked (es0 ++ es) v'.
Proof.
  intros [Hkept|Hfin Hopen Hcb Hmb] Htr.
  - by rewrite app_nil_r.
  - by apply tracked_close.
Qed.

Lemma process_item_tracked es0 item v es v' :
  Tracked es0 v →
  process_item cbr mbr js ex item v = (es, inr v') →
  Tracked (es0 ++ es) v'.
Proof.
  intros Htr (es1 & v1 & es3 & v3 & st & es4 & st' & es5 & H)%process_item_returned.
  simpl in H. destruct H as (H1 & H3 & Hst & H4 & Hflag & Hcontent & H5 & ->).
  rewrite !app_assoc.
  eapply finished_closed_tracked; [done|].
  eapply tracked_store; [|done..].
  rewrite open_if_new_cases in H3.
  apply (previous_closed_tracked _ _ _ _ es0) in H1; [|done].
  apply (tracked_set_last_active _ _ (state_key item)) in H1.
  destruct (state_map (set_last_active (state_key item) v1) !! state_key item)
    eqn:Hlook; injection H3 as <- <-.
  - by rewrite app_nil_r.
  - by apply tracked_open.
Qed.

Lemma process_items_tracked items : ∀ es0 v es v',
  Tracked es0 v →
  process_items cbr mbr js ex items v = (es, inr v') →
  Tracked (es0 ++ es) v'.
Proof.
  induction items as [|item items IH]; intros es0 v es v' Htr; simpl.
  - intros [= <- <-]. by rewrite app_nil_r.
  - intros (es1 & v1 & es2 & H1 & H2 & ->)%bind_inv_returned.
    rewrite app_assoc. eapply IH; [|done].
    by eapply process_item_tracked.
Qed.

(** After an item its key is the active one, and nothing else is open. *)
Lemma process_item_focused item v es v' :
  Focused v →
  process_item cbr mbr js ex item v = (es, inr v') →
  Focused v' ∧ last_active_key v' = Some (state_key item).
Proof.
  intros [Hopen Hactive]
    (es1 & v1 & es3 & v3 & st & es4 & st' & es5 & H)%process_item_returned.
  simpl in H. destruct H as (H1 & H3 & Hst & H4 & Hflag & Hcontent & H5 & ->).
  set (key := state_key item) in *.
  assert (∀ k, is_open v1 k → k = key) as Hv1.
  { intros k Hk. destruct H1 as [Hkept|last Hlast Hne1 Hne2 Hop Hcb Hmb].
    - destruct (decide (k = key)) as [|Hne]; [done|].
      exfalso. apply (Hkept k); auto. by apply Hactive, Hopen.
    - apply is_open_mark in Hk as [Hne Hk]. apply Hopen in Hk. congruence. }
  rewrite open_if_new_cases in H3.
  assert (last_active_key v3 = Some key ∧ ∀ k, is_open v3 k → k = key)
    as [Hlast3 Hv3].
  { destruct (state_map (set_last_active key v1) !! key);
      injection H3 as <- <-; simpl; (split; [done|]).
    - intros k. apply Hv1.
    - intros k [[-> _]|[_ Hk]]%is_open_store; [done|]. by apply Hv1. }
  assert (last_active_key v' = Some key) as Hlast'.
  { by destruct H5. }
  split; [|done]. split.
  - intros k Hk. rewrite Hlast'. f_equal. symmetry.
    destruct H5 as [_|_ _ _ _].
    + apply is_open_store in Hk as [[-> _]|[_ Hk]]; [done|]. by apply Hv3.
    + apply is_open_mark in Hk as [_ Hk].
      apply is_open_store in Hk as [[-> _]|[_ Hk]]; [done|]. by apply Hv3.
  - intros k. rewrite Hlast'. intros [= <-].
    split; [apply state_key_nonempty|].
    destruct H5 as [_|_ _ _ _].
    + apply is_some_store. by left.
    + apply is_some_mark, is_some_store. by left.
Qed.

Lemma focused_initial : Focused initial_vars.
Proof.
  split; simpl; [|done]. unfold is_open. simpl.
  intros k. by rewrite lookup_empty.
Qed.

Lemma process_items_focused items : ∀ v es v',
  Focused v →
  process_items cbr mbr js ex items v = (es, inr v') →
  Focused v'.
Proof.
  induction items as [|item items IH]; intros v es v' Hf; simpl.
  - by intros [= <- <-].
  - intros (es1 & v1 & es2 & H1 & H2 & ->)%bind_inv_returned.
    eapply IH; [|done]. by eapply process_item_focused.
Qed.

(** The entries after an item: those before it, and its own. *)
Lemma process_item_entries item v es v' :
  process_item cbr mbr js ex item v = (es, inr v') →
  ∀ k, is_Some (state_map v' !! k) ↔
       is_Some (state_map v !! k) ∨ k = state_key item.
Proof.
  intros (es1 & v1 & es3 & v3 & st & es4 & st' & es5 & H)%process_item_returned.
  simpl in H. destruct H as (H1 & H3 & Hst & H4 & Hflag & Hcontent & H5 & ->).
  intros k.
  assert (is_Some (state_map v1 !! k) ↔ is_Some (state_map v !! k)) as E1.
  { destruct H1; [done|]. apply is_some_mark. }
  assert (is_Some (state_map v3 !! k) ↔
          is_Some (state_map v !! k) ∨ k = state_key item) as E3.
  { rewrite <- E1. rewrite open_if_new_cases in H3. simpl in H3.
    destruct (decide (k = state_key item)) as [->|Hne].
    - rewrite Hst. split; [by right|eauto].
    - destruct (state_map v1 !! state_key item);
        injection H3 as <- <-; simpl; [tauto|].
      rewrite lookup_insert_ne by done. tauto. }
  destruct H5.
  - rewrite is_some_store. tauto.
  - rewrite is_some_mark, is_some_store. tauto.
Qed.

Lemma process_items_entries items : ∀ v es v',
  process_items cbr mbr js ex items v = (es, inr v') →
  ∀ k, is_Some (state_map v' !! k) ↔
       is_Some (state_map v !! k) ∨ k ∈ state_key <$> items.
Proof.
  induction items as [|item items IH]; intros v es v'; simpl.
  - intros [= <- <-] k. rewrite elem_of_nil. tauto.
  - intros (es1 & v1 & es2 & H1 & H2 & ->)%bind_inv_returned k.
    rewrite (IH _ _ _ H2), (process_item_entries _ _ _ _ H1), elem_of_cons.
    tauto.
Qed.

Lemma process_chunks_items cs : ∀ v,
  process_chunks cbr mbr js ex cs v =
  process_items cbr mbr js ex (concat (chunk_items <$> cs)) v.
Proof.
  assert (∀ l1 l2 v,
    process_items cbr mbr js ex (l1 ++ l2) v =
    process_items cbr mbr js ex l1 v ≫= process_items cbr mbr js ex l2) as Happ.
  { induction l1 as [|i l1 IH]; intros l2 v; simpl.
    - unfold mbind, Gen_bind, gen_bind. simpl.
      by destruct (process_items _ _ _ _ l2 v).
    - destruct (process_item cbr mbr js ex i v) as [es1 [x|v1]] eqn:H1;
        unfold mbind, Gen_bind, gen_bind; simpl; [done|].
      rewrite IH. unfold mbind, Gen_bind, gen_bind; simpl.
      destruct (process_items _ _ _ _ l1 v1) as [es2 [x|v2]]; simpl; [done|].
      by rewrite app_assoc. }
  induction cs as [|c cs IH]; intros v; simpl; [done|].
  rewrite Happ. unfold mbind, Gen_bind, gen_bind.
  destruct (process_items _ _ _ _ (chunk_items c) v) as [es1 [x|v1]];
    simpl; [done|].
  by rewrite IH.
Qed.
End Invariants.

(** ** The final loop and the shape of a run *)

Lemma filter_agree {A} (P Q : A → Prop) `{∀ x, Decision (P x)}
    `{∀ x, Decision (Q x)} (l : list A) :
  (∀ x, x ∈ l → P x ↔ Q x) → filter P l = filter Q l.
Proof.
  induction l as [|x l IH]; intros Hpq; [done|].
  rewrite !filter_cons.
  assert (P x ↔ Q x) as Hx by (apply Hpq; left).
  rewrite IH by (intros y Hy; apply Hpq; by right).
  destruct (decide (P x)), (decide (Q x)); tauto.
Qed.

Lemma remove_dups_fmap_length {A B} `{EqDecision A} `{EqDecision B}
    (f : A → B) (l : list A) :
  Inj (=) (=) f →
  length (remove_dups (f <$> l)) = length (remove_dups l).
Proof.
  intros Hinj.
  rewrite <- (length_fmap f (remove_dups l)).
  apply Permutation_length, NoDup_Permutation.
  - apply NoDup_remove_dups.
  - apply NoDup_fmap; [done|apply NoDup_remove_dups].
  - intros y. rewrite elem_of_remove_dups, !list_elem_of_fmap.
    by setoid_rewrite elem_of_remove_dups.
Qed.

Section Runs.
Variables cbr mbr : string → option exn.
Variable js : pyval → string.
Variable ex : string → pyval.


(** The final loop attempts every open entry once, in order, and
    never raises. *)
Lemma finalize_attempts keys : ∀ v,
  NoDup keys →
  ∃ v', finalize cbr mbr keys v =
          (flat_map (closure_attempt cbr mbr) (filter (is_open v) keys), inr v').
Proof.
  induction keys as [|key rest IH]; intros v Hnd; simpl.
  { by exists v. }
  apply NoDup_cons in Hnd as [Hfresh Hnd].
  assert (∀ v1, (v1 = v ∨ v1 = mark_completed key v) →
                filter (is_open v1) rest = filter (is_open v) rest) as Hrest.
  { intros v1 [->| ->]; [done|]. apply filter_agree. intros k Hk.
    rewrite is_open_mark. split; [tauto|]. intros ?. split; [|done].
    intros ->. done. }
  rewrite filter_cons.
  destruct (state_map v !! key) as [st|] eqn:Hst; cycle 1.
  { rewrite decide_False by (unfold is_open; by rewrite Hst).
    apply IH, Hnd. }
  destruct (is_completed st) eqn:Hc; simpl.
  { rewrite decide_False by (unfold is_open; rewrite Hst; simpl; congruence).
    destruct (IH v Hnd) as [v' Hv'].
    exists v'. unfold mbind, Gen_bind, gen_bind. simpl. by rewrite Hv'. }
  rewrite decide_True by (unfold is_open; rewrite Hst; simpl; congruence).
  rewrite close_state_cases. unfold closure_attempt at 1. simpl.
  unfold try_except, mbind, Gen_bind, gen_bind.
  destruct (cbr key) as [x|], (mbr key) as [y|]; simpl.
  - destruct (IH v Hnd) as [v' ->]. by exists v'.
  - destruct (IH v Hnd) as [v' ->]. by exists v'.
  - destruct (IH v Hnd) as [v' ->]. by exists v'.
  - destruct (IH (mark_completed key v) Hnd) as [v' ->].
    exists v'. simpl. rewrite Hrest by (by right). done.
Qed.

Lemma finalize_closing keys : ∀ v,
  Forall (λ e, is_closing_event e = true)
         (yielded (finalize cbr mbr keys v)).
Proof.
  induction keys as [|key rest IH]; intros v; simpl; [constructor|].
  destruct (state_map v !! key) as [st|]; [|apply IH].
  destruct (is_completed st); simpl.
  { unfold mbind, Gen_bind, gen_bind. simpl. apply IH. }
  rewrite close_state_cases.
  unfold try_except, mbind, Gen_bind, gen_bind, yielded.
  destruct (cbr key), (mbr key); simpl; repeat constructor; apply IH.
Qed.

(** The adapter, by cases on how its phases end. *)
Lemma adapt_cases src :
  let p := process_chunks cbr mbr js ex (chunks src) initial_vars in
  adapt_alias_message_stream cbr mbr js ex src =
    match p.2, failure src with
    | inl x, _ | inr _, Some x => (RbCreated :: RbInProgress :: p.1, inl x)
    | inr v, None =>
        let f := finalize cbr mbr (state_keys v) v in
        match f.2 with
        | inl x => (RbCreated :: RbInProgress :: p.1 ++ f.1, inl x)
        | inr _ =>
            (RbCreated :: RbInProgress :: p.1 ++ f.1 ++ [RbCompleted],
             inr tt)
        end
    end.
Proof.
  unfold adapt_alias_message_stream, consume.
  destruct (process_chunks _ _ _ _ _ _) as [es [x|v]]; [done|].
  unfold mbind, Gen_bind, gen_bind, yield. simpl.
  destruct (failure src); simpl; [by rewrite app_nil_r|].
  rewrite app_nil_r.
  by destruct (finalize cbr mbr (state_keys v) v) as [fs [x|v']].
Qed.

(** A run whose stream phase went through: prologue, stream phase,
    closing attempts, epilogue. *)
Lemma adapt_returned src es v :
  failure src = None →
  process_chunks cbr mbr js ex (chunks src) initial_vars = (es, inr v) →
  NoDup (state_keys v) →
  adapt_alias_message_stream cbr mbr js ex src =
    ([RbCreated; RbInProgress] ++ es ++
       flat_map (closure_attempt cbr mbr) (open_keys v) ++ [RbCompleted], inr tt).
Proof.
  intros Hfail Hrun Hnd.
  unfold adapt_alias_message_stream, consume. rewrite Hrun, Hfail.
  destruct (finalize_attempts (state_keys v) v Hnd) as [v' Hv'].
  unfold mbind, Gen_bind, gen_bind, yield. simpl. rewrite Hv'. simpl.
  unfold open_keys. by rewrite app_nil_r.
Qed.

(** Whatever happens after the stream phase, the run begins with the
    prologue and the events of the stream phase, and only closing
    events follow. *)
Lemma adapt_stream_phase src es r :
  process_chunks cbr mbr js ex (chunks src) initial_vars = (es, r) →
  ∃ tail,
    yielded (adapt_alias_message_stream cbr mbr js ex src) =
      [RbCreated; RbInProgress] ++ es ++ tail ∧
    Forall (λ e, is_closing_event e = true) tail.
Proof.
  intros Hrun. rewrite adapt_cases. rewrite Hrun. simpl.
  destruct r as [x|v]; simpl.
  { exists []. by rewrite app_nil_r. }
  destruct (failure src); simpl.
  { exists []. by rewrite !app_nil_r. }
  pose proof (finalize_closing (state_keys v) v) as Hcl.
  unfold yielded in Hcl.
  destruct (finalize cbr mbr (state_keys v) v) as [fs [x|v']] eqn:Hfin; simpl.
  - exists fs. done.
  - exists (fs ++ [RbCompleted]). split; [done|].
    apply Forall_app. split; [done|]. by repeat constructor.
Qed.

Lemma closing_not_opened tail :
  Forall (λ e, is_closing_event e = true) tail → opened_keys tail = [].
Proof.
  unfold opened_keys. induction 1 as [|e es He _ IH]; [done|].
  destruct e; try discriminate He; exact IH.
Qed.

Lemma closing_not_content tail :
  Forall (λ e, is_closing_event e = true) tail → content_events tail = [].
Proof.
  unfold content_events. induction 1 as [|e es He _ IH]; [done|].
  rewrite filter_cons. destruct e; try discriminate He;
    (rewrite decide_False by done; exact IH).
Qed.
End Runs.

Section Lifecycle.
Variables cbr mbr : string → option exn.
Variable js : pyval → string.
Variable ex : string → pyval.

Lemma stream_phase_tracked src es v :
  process_chunks cbr mbr js ex (chunks src) initial_vars = (es, inr v) →
  Tracked es v ∧ Focused v ∧
  ∀ k, k ∈ state_keys v ↔ k ∈ state_key <$> stream_items src.
Proof.
  rewrite process_chunks_items. fold (stream_items src). intros Hrun.
  pose proof (process_items_tracked _ _ _ _ _ [] _ _ _ tracked_initial Hrun)
    as Htr.
  split; [done|]. split.
  - eapply process_items_focused; [apply focused_initial|done].
  - intros k. rewrite (tracked_dom _ _ Htr).
    rewrite (process_items_entries _ _ _ _ _ _ _ _ Hrun). simpl.
    rewrite lookup_empty. split; [intros [[? ?]|?]; done|by right].
Qed.

Lemma attempt_of_other e k k' :
  event_key e = Some k → k' ≠ k → e ∉ closure_attempt cbr mbr k'.
Proof.
  intros He Hne Hin. unfold closure_attempt in Hin.
  destruct (cbr k'), (mbr k');
    repeat (apply elem_of_cons in Hin as [->|Hin]; [simpl in He; congruence|]);
    by apply elem_of_nil in Hin.
Qed.

Lemma attempts_count e k l :
  event_key e = Some k → NoDup l →
  occurrences e (flat_map (closure_attempt cbr mbr) l) =
    if decide (k ∈ l) then occurrences e (closure_attempt cbr mbr k) else 0.
Proof.
  intros He. induction l as [|k' l IH]; intros Hnd.
  { destruct (decide (k ∈ [])) as [H|_]; [by apply elem_of_nil in H|done]. }
  apply NoDup_cons in Hnd as [Hfresh Hnd].
  change (flat_map (closure_attempt cbr mbr) (k' :: l))
    with (closure_attempt cbr mbr k' ++ flat_map (closure_attempt cbr mbr) l).
  rewrite occurrences_app, IH by done.
  destruct (decide (k' = k)) as [->|Hne].
  - destruct (decide (k ∈ l)); [done|].
    destruct (decide (k ∈ k :: l)) as [_|Hno]; [lia|].
    exfalso. apply Hno. left.
  - rewrite (occurrences_absent e (closure_attempt cbr mbr k'))
      by by eapply attempt_of_other.
    destruct (decide (k ∈ l)) as [Hin|Hnot];
      destruct (decide (k ∈ k' :: l)) as [Hin'|Hnot']; try done.
    + exfalso. apply Hnot'. by right.
    + exfalso. apply elem_of_cons in Hin' as [?|?]; congruence.
Qed.

Lemma attempt_content_count k :
  occurrences (ContentCompleted k) (closure_attempt cbr mbr k) =
    match cbr k with Some _ => 0 | None => 1 end.
Proof.
  unfold closure_attempt, occurrences.
  destruct (cbr k), (mbr k); rewrite ?filter_cons, ?filter_nil;
    repeat case_decide; simplify_eq; done.
Qed.

Lemma attempt_message_count k :
  occurrences (MessageCompleted k) (closure_attempt cbr mbr k) =
    match cbr k, mbr k with None, None => 1 | _, _ => 0 end.
Proof.
  unfold closure_attempt, occurrences.
  destruct (cbr k), (mbr k); rewrite ?filter_cons, ?filter_nil;
    repeat case_decide; simplify_eq; done.
Qed.

(** C5, amended.  When the stream phase does not raise, the number of
    message-opened events of a run equals the number of distinct state
    keys among the stream's items, that is of distinct pairs of the
    correlation id as the key renders it (an absent id as the text None)
    and the message kind. *)
Theorem message_opened_once_per_identity src :
  escaped (process_chunks cbr mbr js ex (chunks src) initial_vars) = None →
  length (opened_keys (yielded (adapt_alias_message_stream cbr mbr js ex src)))
  = length (remove_dups (identity <$> stream_items src)).
Proof.
  intros Hret.
  destruct (process_chunks cbr mbr js ex (chunks src) initial_vars)
    as [es [x|v]] eqn:Hrun; [done|]. clear Hret.
  destruct (adapt_stream_phase _ _ _ _ _ _ _ Hrun) as (tail & -> & Htail).
  apply closing_not_opened in Htail.
  destruct (stream_phase_tracked _ _ _ Hrun) as (Htr & _ & Hkeys).
  unfold opened_keys in *. rewrite !omap_app, Htail, app_nil_r. simpl.
  change (omap opened_key es) with (opened_keys es).
  rewrite (tracked_opened _ _ Htr).
  set (key_of := λ p : string * MessageType,
                   make_state_key (Some p.1) p.2).
  assert (Inj (=) (=) key_of) as Hinj.
  { intros [s1 t1] [s2 t2] [H1 H2]%make_state_key_inj. simpl in *. congruence. }
  rewrite <- (remove_dups_fmap_length key_of) by done.
  rewrite <- list_fmap_compose.
  apply Permutation_length, NoDup_Permutation.
  - apply (tracked_nodup _ _ Htr).
  - apply NoDup_remove_dups.
  - intros k. rewrite elem_of_remove_dups, Hkeys. done.
Qed.

(** C6.  At the end of a source stream that ends normally the adapter
    attempts to close every message still open, once and in order; a
    completion call that raises cuts that attempt short but neither stops
    the remaining attempts nor leaves the adapter; the response-level
    completed event comes last.  In the whole output every identity has
    at most one content-completed and one message-completed event, and
    exactly one of each when its completion calls do not raise. *)
Theorem end_of_stream_closes_each_open_message_once src :
  failure src = None →
  escaped (process_chunks cbr mbr js ex (chunks src) initial_vars) = None →
  let out := adapt_alias_message_stream cbr mbr js ex src in
  ∃ es v,
  process_chunks cbr mbr js ex (chunks src) initial_vars = (es, inr v)
  ∧ out = ([RbCreated; RbInProgress] ++ es ++
           flat_map (closure_attempt cbr mbr) (open_keys v) ++
           [RbCompleted], inr tt)
  ∧ NoDup (open_keys v)
  ∧ (∀ k, (occurrences (ContentCompleted k) (yielded out) ≤ 1)%nat
          ∧ (occurrences (MessageCompleted k) (yielded out) ≤ 1)%nat)
  ∧ (∀ k, k ∈ opened_keys (yielded out) →
          cbr k = None → mbr k = None →
          occurrences (ContentCompleted k) (yielded out) = 1
          ∧ occurrences (MessageCompleted k) (yielded out) = 1).
Proof.
  intros Hfail Hret out.
  destruct (process_chunks cbr mbr js ex (chunks src) initial_vars)
    as [es [x|v]] eqn:Hrun; [done|]. clear Hret.
  exists es, v. split; [done|].
  destruct (stream_phase_tracked _ _ _ Hrun) as (Htr & _ & _).
  pose proof (tracked_nodup _ _ Htr) as Hnd.
  assert (NoDup (open_keys v)) as Hndo by by apply NoDup_filter.
  pose proof (adapt_returned _ _ _ _ _ _ _ Hfail Hrun Hnd) as Hout.
  fold out in Hout.
  assert (∀ k,
    occurrences (ContentCompleted k) (yielded out) =
      closed_count v k +
      (if decide (k ∈ open_keys v) then match cbr k with Some _ => 0 | None => 1 end else 0)
    ∧ occurrences (MessageCompleted k) (yielded out) =
      closed_count v k +
      (if decide (k ∈ open_keys v)
       then match cbr k, mbr k with None, None => 1 | _, _ => 0 end
       else 0)) as Hcount.
  { intros k. rewrite Hout. unfold yielded. cbn [fst].
    rewrite !occurrences_app.
    rewrite (tracked_content _ _ Htr), (tracked_message _ _ Htr).
    rewrite !(attempts_count _ k) by done.
    rewrite attempt_content_count, attempt_message_count.
    unfold occurrences. rewrite !filter_cons, !filter_nil.
    repeat case_decide; simplify_eq; simpl; lia. }
  assert (∀ k, k ∈ open_keys v → closed_count v k = 0) as Hopen.
  { intros k [Hk _]%list_elem_of_filter. by apply closed_count_open. }
  split; [done|]. split; [done|]. split.
  - intros k. destruct (Hcount k) as [-> ->].
    destruct (decide (k ∈ open_keys v)) as [Hk|Hk].
    + rewrite Hopen by done. destruct (cbr k), (mbr k); lia.
    + unfold closed_count. case_decide; lia.
  - intros k Hk Hcb Hmb. destruct (Hcount k) as [-> ->].
    rewrite Hcb, Hmb.
    assert (k ∈ state_keys v) as Hin.
    { rewrite Hout in Hk. unfold yielded, opened_keys in Hk.
      cbn [fst] in Hk. rewrite !omap_app in Hk.
      change (omap opened_key es) with (opened_keys es) in Hk.
      rewrite (tracked_opened _ _ Htr) in Hk.
      apply elem_of_app in Hk as [Hk|Hk]; [by apply elem_of_nil in Hk|].
      apply elem_of_app in Hk as [Hk|Hk]; [done|].
      apply elem_of_app in Hk as [Hk|Hk].
      - apply list_elem_of_omap in Hk as (e & He & Hop).
        apply list_elem_of_In, in_flat_map in He as (k' & _ & He).
        unfold closure_attempt in He.
        destruct (cbr k'), (mbr k'); simpl in He;
          repeat (destruct He as [<-|He]; [done|]); done.
      - simpl in Hk. by apply elem_of_nil in Hk. }
    destruct (decide (k ∈ open_keys v)) as [Hk'|Hk'].
    + rewrite Hopen by done. lia.
    + apply (tracked_dom _ _ Htr) in Hin as [st Hst].
      assert (is_completed st = true) as Hc.
      { destruct (is_completed st) eqn:Hc; [done|]. exfalso. apply Hk'.
        apply list_elem_of_filter. split.
        - unfold is_open. rewrite Hst. simpl. congruence.
        - apply (tracked_dom _ _ Htr). eauto. }
      unfold closed_count. rewrite Hst. simpl. rewrite Hc.
      case_decide; [lia|done].
Qed.
End Lifecycle.

Lemma lookup_mark_ne k v k' :
  k ≠ k' → state_map (mark_completed k v) !! k' = state_map v !! k'.
Proof. intros. unfold mark_completed; simpl. by rewrite lookup_alter_ne. Qed.

Lemma lookup_store_ne k st v k' :
  k ≠ k' → state_map (store_state k st v) !! k' = state_map v !! k'.
Proof. intros. unfold store_state; simpl. by rewrite lookup_insert_ne. Qed.

Ltac destruct_match_in H :=
  match type of H with
  | context [match ?x with _ => _ end] => destruct x eqn:?
  end.

Section Switching.
Variables cbr mbr : string → option exn.
Variable js : pyval → string.
Variable ex : string → pyval.

Lemma process_items_app l1 : ∀ l2 v,
  process_items cbr mbr js ex (l1 ++ l2) v =
  process_items cbr mbr js ex l1 v ≫= process_items cbr mbr js ex l2.
Proof.
  induction l1 as [|i l1 IH]; intros l2 v; simpl.
  - unfold mbind, Gen_bind, gen_bind. simpl.
    by destruct (process_items _ _ _ _ l2 v).
  - destruct (process_item cbr mbr js ex i v) as [es1 [x|v1]] eqn:H1;
      unfold mbind, Gen_bind, gen_bind; simpl; [done|].
    rewrite IH. unfold mbind, Gen_bind, gen_bind; simpl.
    destruct (process_items _ _ _ _ l1 v1) as [es2 [x|v2]]; simpl; [done|].
    by rewrite app_assoc.
Qed.

(** Whether the message of an item is open once the item is
    processed: the item is not finished and the message was not
    completed before. *)
Lemma process_item_open item v0 es v :
  process_item cbr mbr js ex item v0 = (es, inr v) →
  is_open v (state_key item) ↔
  msg_status (inner_message item) ≠ Some "finished"
  ∧ is_completed <$> state_map v0 !! state_key item ≠ Some true.
Proof.
  intros (e1 & v1 & e3 & v3 & st & e4 & st' & e5 & H)%process_item_returned.
  simpl in H. destruct H as (H1 & H3 & Hst & H4 & Hflag & Hcontent & H5 & ->).
  set (key := state_key item) in *.
  assert (state_map v1 !! key = state_map v0 !! key) as E1.
  { destruct H1 as [_|last _ _ Hne _ _ _]; [done|]. by apply lookup_mark_ne. }
  assert (is_completed st = true
          ↔ is_completed <$> state_map v0 !! key = Some true) as Est.
  { rewrite open_if_new_cases in H3. simpl in H3. rewrite E1 in H3.
    destruct (state_map v0 !! key) as [s|] eqn:E0; injection H3 as <- <-.
    - simpl in Hst. rewrite E1 in Hst. injection Hst as ->.
      simpl. split; [by intros ->|by intros [= ->]].
    - unfold store_state in Hst. simpl in Hst.
      rewrite lookup_insert_eq in Hst. by injection Hst as <-. }
  assert (is_open (store_state key st' v3) key ↔ is_completed st = false)
    as Estore.
  { rewrite is_open_store, Hflag. split; [by intros [[_ ?]|[? _]]|by left]. }
  destruct H5 as [Hkept|Hfin Hopen Hcb Hmb].
  - rewrite Estore. split.
    + intros Hst'. split.
      * intros Hfin. apply Hkept in Hfin. by apply Hfin, Estore.
      * rewrite <- Est. by rewrite Hst'.
    + intros [_ Hnot]. destruct (is_completed st); [|done].
      by destruct Hnot; apply Est.
  - split; [|by intros [? _]].
    by intros [? _]%is_open_mark.
Qed.

(** The content events of an item go to the item's own message. *)
Lemma process_item_content_own item v es v' :
  process_item cbr mbr js ex item v = (es, inr v') →
  Forall (λ e, is_content_event e = true → event_key e = Some (state_key item))
         es.
Proof.
  intros (e1 & v1 & e3 & v3 & st & e4 & st' & e5 & H)%process_item_returned.
  simpl in H. destruct H as (H1 & H3 & Hst & H4 & Hflag & Hcontent & H5 & ->).
  rewrite open_if_new_cases in H3.
  repeat apply Forall_app_2.
  - destruct H1; by repeat constructor.
  - destruct_match_in H3; injection H3 as <- <-; by repeat constructor.
  - eapply Forall_impl; [exact Hcontent|]. by intros e [_ ?].
  - destruct H5; by repeat constructor.
Qed.

(** C3, amended.  The identity of an item is its state key: the
    correlation id as the key renders it, with the message kind.  In a
    run that does not raise, the message of the item processed last is
    open exactly when that item was not finished and the message had not
    been completed before, and no other message is open.  When the next
    item has another identity and that message is open, the item's output
    starts with content-completed and message-completed of it and the
    rest belongs to the new identity; when it is not open, nothing is
    emitted for it; either way it is completed afterwards.  The content
    events of an item go to the item's own message. *)
Theorem switch_closes_previous_message items prev item :
  escaped (process_items cbr mbr js ex (items ++ [prev; item]) initial_vars)
    = None →
  ∃ es0 v0 es v es' v',
  process_items cbr mbr js ex items initial_vars = (es0, inr v0)
  ∧ process_items cbr mbr js ex (items ++ [prev]) initial_vars = (es, inr v)
  ∧ process_item cbr mbr js ex item v = (es', inr v')
  ∧ (is_open v (state_key prev) ↔
     msg_status (inner_message prev) ≠ Some "finished"
     ∧ is_completed <$> state_map v0 !! state_key prev ≠ Some true)
  ∧ (∀ k, is_open v k → k = state_key prev)
  ∧ (identity item ≠ identity prev →
     (is_open v (state_key prev) →
      ∃ rest,
        es' = ContentCompleted (state_key prev)
              :: MessageCompleted (state_key prev) :: rest
        ∧ Forall (λ e, event_key e = Some (state_key item)) rest)
     ∧ (¬ is_open v (state_key prev) →
        Forall (λ e, event_key e = Some (state_key item)) es')
     ∧ is_completed <$> state_map v' !! state_key prev = Some true)
  ∧ Forall (λ e, is_content_event e = true →
                 event_key e = Some (state_key item)) es'
  ∧ (∀ k, is_open v' k → k = state_key item).
Proof.
  intros Hret.
  assert (∃ es v es' v',
    process_items cbr mbr js ex (items ++ [prev]) initial_vars = (es, inr v)
    ∧ process_item cbr mbr js ex item v = (es', inr v'))
    as (es & v & es' & v' & Hrun & Hitem).
  { change (items ++ [prev; item]) with (items ++ [prev] ++ [item]) in Hret.
    rewrite app_assoc, process_items_app in Hret.
    destruct (process_items cbr mbr js ex (items ++ [prev]) initial_vars)
      as [es [x|v]]; [done|].
    unfold mbind, Gen_bind, gen_bind, escaped in Hret. simpl in Hret.
    destruct (process_item cbr mbr js ex item v) as [es' [x|v']] eqn:Hi;
      [done|].
    by exists es, v, es', v'. }
  pose proof Hrun as Hrun'. rewrite process_items_app in Hrun'.
  apply bind_inv_returned in Hrun' as (es0 & v0 & es1 & H0 & Hprev & _).
  simpl in Hprev.
  apply bind_inv_returned in Hprev as (es2 & v2 & es3 & Hprev & [= <- ->] & _).
  exists es0, v0, es, v, es', v'.
  split; [done|]. split; [done|]. split; [done|].
  pose proof (process_items_focused _ _ _ _ _ _ _ _ (focused_initial) H0) as Hf0.
  destruct (process_item_focused _ _ _ _ _ _ _ _ Hf0 Hprev) as [Hf Hlast].
  destruct (process_item_focused _ _ _ _ _ _ _ _ Hf Hitem) as [Hf' Hlast'].
  split; [by eapply process_item_open|].
  split; [intros k Hk%(focused_open _ Hf); congruence|].
  split; [|split; [by eapply process_item_content_own|
                   intros k Hk%(focused_open _ Hf'); congruence]].
  intros Hid.
  assert (state_key prev ≠ state_key item) as Hne.
  { intros Heq%state_key_identity. congruence. }
  destruct (focused_active _ Hf _ Hlast) as [_ [stp Hstp]].
  apply process_item_returned in Hitem
    as (e1 & v1 & e3 & v3 & st & e4 & st' & e5 & H).
  simpl in H. destruct H as (H1 & H3 & Hst & H4 & Hflag & Hcontent & H5 & ->).
  assert (Forall (λ e, event_key e = Some (state_key item)) (e3 ++ e4 ++ e5))
    as Hrest.
  { rewrite open_if_new_cases in H3.
    repeat apply Forall_app_2.
    - destruct_match_in H3; injection H3 as <- <-; by repeat constructor.
    - eapply Forall_impl; [exact Hcontent|]. by intros e [_ ?].
    - destruct H5; by repeat constructor. }
  assert (is_completed <$> state_map v1 !! state_key prev = Some true) as E1.
  { destruct H1 as [Hkept|last Hl Hne1 Hne2 Hop Hcb Hmb].
    - assert (¬ is_open v (state_key prev)) as Hclosed
        by (apply Hkept; auto using state_key_nonempty).
      unfold is_open in Hclosed. rewrite Hstp in *. simpl in *.
      by destruct (is_completed stp).
    - assert (last = state_key prev) as -> by congruence.
      unfold mark_completed; simpl. by rewrite lookup_alter_eq, Hstp. }
  assert (is_completed <$> state_map v3 !! state_key prev = Some true) as E3.
  { rewrite open_if_new_cases in H3. simpl in H3.
    destruct_match_in H3; injection H3 as <- <-; [done|].
    by rewrite lookup_store_ne. }
  split; [|split].
  - intros Hopen.
    destruct H1 as [Hkept|last Hl Hne1 Hne2 Hop Hcb Hmb].
    { exfalso. apply (Hkept (state_key prev)); auto using state_key_nonempty. }
    assert (last = state_key prev) as -> by congruence.
    by exists (e3 ++ e4 ++ e5).
  - intros Hclosed.
    destruct H1 as [Hkept|last Hl Hne1 Hne2 Hop Hcb Hmb]; [done|].
    assert (last = state_key prev) as -> by congruence. done.
  - destruct H5.
    + by rewrite lookup_store_ne.
    + by rewrite lookup_mark_ne, lookup_store_ne.
Qed.

(** C4, amended.  An item with status finished leaves its message
    closed, and when the message was not closed before, the item's output
    ends with content-completed, message-completed.  An item that reuses
    the identity of a closed message continues that closed entry: no
    message-opened and no completion event is emitted for it, its payload
    is computed from the retained entry, and the entry stays closed. *)
Theorem finished_closes_and_reuse_continues item v :
  escaped (process_item cbr mbr js ex item v) = None →
  let key := state_key item in
  ∃ es v',
  process_item cbr mbr js ex item v = (es, inr v') ∧
  (msg_status (inner_message item) = Some "finished" →
     (¬ is_open v' key)
     ∧ ((∀ st, state_map v !! key = Some st → is_completed st = false) →
        ∃ pre, es = pre ++ [ContentCompleted key; MessageCompleted key]))
  ∧ (∀ st, state_map v !! key = Some st → is_completed st = true →
       (key ∉ opened_keys es)
       ∧ occurrences (ContentCompleted key) es = 0
       ∧ occurrences (MessageCompleted key) es = 0
       ∧ ∃ st', payload js ex item key st = (content_events es, inr st')
                ∧ state_map v' !! key = Some st'
                ∧ is_completed st' = true).
Proof.
  intros Hret key.
  destruct (process_item cbr mbr js ex item v) as [es [x|v']] eqn:Hrun;
    [done|]. clear Hret.
  exists es, v'. split; [done|]. revert Hrun.
  intros (es1 & v1 & es3 & v3 & st & es4 & st' & es5 & H)%process_item_returned.
  simpl in H. destruct H as (H1 & H3 & Hst & H4 & Hflag & Hcontent & H5 & ->).
  fold key in H1, H3, Hst, H4, Hcontent, H5.
  assert (state_map v1 !! key = state_map v !! key) as E1.
  { destruct H1 as [|last Hl Hne1 Hne2]; [done|]. by apply lookup_mark_ne. }
  rewrite open_if_new_cases in H3. simpl in H3. rewrite E1 in H3.
  split.
  - intros Hfin. split.
    + destruct H5 as [Hkept|]; [by apply Hkept|].
      rewrite is_open_mark. by intros [? _].
    + intros Hnot.
      assert (is_completed st = false) as Hc.
      { destruct (state_map v !! key) as [st0|] eqn:Hv;
          injection H3 as <- <-.
        - simpl in Hst. rewrite E1 in Hst.
          injection Hst as <-. by apply Hnot.
        - unfold store_state in Hst; simpl in Hst.
          rewrite lookup_insert_eq in Hst. by injection Hst as <-. }
      destruct H5 as [Hkept|].
      * exfalso. apply Hkept; [done|]. apply is_open_store. left.
        split; [done|congruence].
      * exists (es1 ++ es3 ++ es4). by rewrite <- !app_assoc.
  - intros st0 Hv Hc. rewrite Hv in H3. injection H3 as <- <-.
    simpl in Hst. rewrite E1, Hv in Hst. injection Hst as <-.
    assert (es1 = [] ∨ ∃ last, last ≠ key ∧
              es1 = [ContentCompleted last; MessageCompleted last]) as Hes1.
    { destruct H1 as [|last Hl Hne1 Hne2]; [by left|right; eauto]. }
    assert (es5 = [] ∧ v' = store_state key st' (set_last_active key v1))
      as [-> ->].
    { destruct H5 as [|Hfin Hop]; [done|]. exfalso.
      apply is_open_store in Hop as [[_ Hop]|[? _]]; [congruence|done]. }
    rewrite app_nil_r, app_nil_l.
    assert (content_events es1 = [] ∧ opened_keys es1 = []
            ∧ occurrences (ContentCompleted key) es1 = 0
            ∧ occurrences (MessageCompleted key) es1 = 0) as (C1 & O1 & N1 & N2).
    { destruct Hes1 as [->|(last & Hne & ->)]; [done|].
      unfold content_events, occurrences.
      rewrite !filter_cons, !filter_nil.
      repeat case_decide; simplify_eq; done. }
    split; [|split; [|split]].
    + unfold opened_keys in *. rewrite omap_app, O1.
      change (omap opened_key es4) with (opened_keys es4).
      rewrite (content_not_opened key) by done. apply not_elem_of_nil.
    + rewrite occurrences_app, N1.
      by rewrite (content_not_lifecycle key es4 _ Hcontent).
    + rewrite occurrences_app, N2.
      by rewrite (content_not_lifecycle key es4 _ Hcontent).
    + exists st'. split; [|split].
      * unfold content_events in *. rewrite filter_app, C1. simpl.
        fold (content_events es4).
        by rewrite (content_events_all key es4 Hcontent).
      * unfold store_state; simpl. by rewrite lookup_insert_eq.
      * congruence.
Qed.
End Switching.

(** ** Prefix deltas *)

Lemma string_app_assoc (a b c : string) : (a +:+ b) +:+ c = a +:+ (b +:+ c).
Proof.
  induction a as [|x a IH]; [done|].
  change (String x ((a +:+ b) +:+ c) = String x (a +:+ (b +:+ c))).
  by rewrite IH.
Qed.

Lemma nonempty_suffixes_cons acc t rest :
  concat_all (nonempty_suffixes acc (t :: rest)) =
  string_drop (String.length acc) t +:+ concat_all (nonempty_suffixes t rest).
Proof.
  unfold nonempty_suffixes. simpl suffixes. rewrite filter_cons.
  destruct (decide (string_drop (String.length acc) t ≠ "")) as [|Hd]; [done|].
  apply dec_stable in Hd. by rewrite Hd.
Qed.

Lemma deltas_rebuild_text texts : ∀ acc,
  extends_previous acc texts →
  acc +:+ concat_all (nonempty_suffixes acc texts) = default acc (last texts).
Proof.
  induction texts as [|t rest IH]; intros acc; simpl.
  { intros _. unfold nonempty_suffixes. simpl.
    induction acc as [|c acc IHa]; [done|].
    change (String c (acc +:+ "") = String c acc). by rewrite IHa. }
  intros [Hpre Hrest].
  rewrite nonempty_suffixes_cons, <- string_app_assoc.
  rewrite <- (prefix_drop acc t Hpre), (IH t Hrest).
  destruct rest as [|y rest]; [done|].
  change (last (t :: y :: rest)) with (last (y :: rest)).
  destruct (last (y :: rest)) eqn:E; [done|]. by apply last_None in E.
Qed.

Lemma text_deltas_of_content es :
  text_deltas (content_events es) = text_deltas es.
Proof.
  unfold text_deltas, content_events.
  induction es as [|e es IH]; [done|].
  rewrite filter_cons.
  destruct e; simpl; try case_decide; try done; simpl;
    first [exact IH | f_equal; exact IH].
Qed.

Lemma text_deltas_fmap key l : text_deltas (TextDelta key <$> l) = l.
Proof.
  unfold text_deltas. induction l as [|d l IH]; [done|].
  simpl. f_equal. exact IH.
Qed.

Section Deltas.
Variables cbr mbr : string → option exn.
Variable js : pyval → string.
Variable ex : string → pyval.

(** The adapter raises only where a completion call does, or for a
    tool result without correlation id. *)
Lemma process_item_escaped item v es x :
  process_item cbr mbr js ex item v = (es, inl x) →
  (∃ last, last_active_key v = Some last ∧ last ≠ state_key item ∧
           (cbr last = Some x ∨ mbr last = Some x))
  ∨ (cbr (state_key item) = Some x ∨ mbr (state_key item) = Some x)
  ∨ (message_kind item = PLUGIN_CALL_OUTPUT ∧ correlation_id item = None).
Proof.
  assert (∀ k w fs, close_state cbr mbr k w = (fs, inl x) →
                    cbr k = Some x ∨ mbr k = Some x) as Hclose.
  { intros k w fs. rewrite close_state_cases.
    destruct (cbr k), (mbr k); intros [= <- <-]; auto. }
  unfold process_item.
  destruct (classify (msg_type (inner_message item))) as [t role].
  intros [H|(es1 & v1 & es' & H1 & H & ->)]%bind_inv_escaped.
  { left. unfold close_previous in H.
    destruct (last_active_key v) as [last|]; [|done].
    destruct (str_truthy (Some last)); simpl in H; [|done].
    destruct (String.eqb last (state_key item)) eqn:Heq; simpl in H; [done|].
    apply String.eqb_neq in Heq.
    destruct (state_map v !! last) as [old|]; [|done].
    destruct (is_completed old); simpl in H; [done|].
    exists last. eauto. }
  right.
  apply bind_inv_escaped in H as [H|(es3 & v3 & es'' & H3 & H & ->)].
  { rewrite open_if_new_cases in H. by destruct (state_map _ !! _). }
  assert (is_Some (state_map v3 !! state_key item)) as [st Hst].
  { rewrite open_if_new_cases in H3. simpl in H3.
    destruct (state_map v1 !! state_key item) eqn:Hl; injection H3 as <- <-.
    - simpl. rewrite Hl. eauto.
    - apply is_some_store. by left. }
  rewrite Hst in H.
  apply bind_inv_escaped in H as [H|(es4 & st' & es5 & H4 & H5 & ->)].
  { destruct (payload_cases js ex item (state_key item) st)
      as [(Hk & Hid & _)|(? & ? & Hp & _)]; [by right|congruence]. }
  left. unfold close_if_finished in H5.
  unfold store_state in H5 at 1. simpl in H5.
  rewrite lookup_insert_eq in H5.
  destruct (bool_decide _ && _); [eauto|done].
Qed.

Lemma single_identity_item key acc item v :
  state_key item = key →
  is_text_kind (message_kind item) = true →
  String.prefix acc (raw_text item) = true →
  cbr key = None → mbr key = None →
  accumulating key acc v →
  ∃ es v',
    process_item cbr mbr js ex item v = (es, inr v') ∧
    content_events es =
      TextDelta key <$>
        filter (λ d, d ≠ "") [string_drop (String.length acc) (raw_text item)] ∧
    accumulating key (raw_text item) v'.
Proof.
  intros Hkey Hkind Hpre Hcb Hmb [Hlast Hacc].
  destruct (process_item cbr mbr js ex item v) as [es [x|v']] eqn:Hrun.
  { exfalso. apply process_item_escaped in Hrun
      as [(last & Hl & Hne & Hx)|[Hx|[Hx _]]]; rewrite ?Hkey in *.
    - destruct Hlast; congruence.
    - destruct Hx; congruence.
    - by rewrite Hx in Hkind. }
  exists es, v'. split; [done|].
  apply process_item_returned in Hrun
    as (es1 & v1 & es3 & v3 & st & es4 & st' & es5 & H).
  simpl in H. rewrite Hkey in H.
  destruct H as (H1 & H3 & Hst & H4 & Hflag & Hcontent & H5 & ->).
  assert (es1 = [] ∧ v1 = v) as [-> ->].
  { destruct H1 as [|last Hl Hne1 Hne2]; [done|]. destruct Hlast; congruence. }
  rewrite open_if_new_cases in H3. simpl in H3.
  assert (last_content st = acc ∧ content_events es3 = []
          ∧ last_active_key v3 = Some key) as (Hst_acc & C3 & L3).
  { destruct (state_map v !! key) as [st0|] eqn:Hv; injection H3 as <- <-.
    - simpl in Hst. rewrite Hv in Hst. by injection Hst as <-.
    - unfold store_state in Hst; simpl in Hst.
      rewrite lookup_insert_eq in Hst. injection Hst as <-. done. }
  assert (es4 = TextDelta key <$>
            filter (λ d, d ≠ "")
              [string_drop (String.length acc) (raw_text item)]
          ∧ st' = set_last_content (raw_text item) st) as [E4 ->].
  { unfold payload in H4. unfold is_text_kind in Hkind.
    apply bool_decide_eq_true in Hkind.
    assert (text_payload key (raw_text item) st = (es4, inr st')) as Ht.
    { destruct (message_kind item); try done;
        repeat (apply elem_of_cons in Hkind as [Hkind|Hkind]; [done|]);
        by apply elem_of_nil in Hkind. }
    rewrite text_payload_cases, Hst_acc, Hpre in Ht. simpl in Ht.
    injection Ht as <- <-. split; [|done].
    rewrite filter_cons, filter_nil.
    case_bool_decide; case_decide; done. }
  assert (content_events es5 = [] ∧
          (v' = store_state key (set_last_content (raw_text item) st) v3 ∨
           v' = mark_completed key
                  (store_state key (set_last_content (raw_text item) st) v3)))
    as [C5 Hv'].
  { destruct H5; split; auto. }
  split.
  - unfold content_events in *. rewrite !filter_app, C3, C5, app_nil_r. simpl.
    fold (content_events es4). by rewrite (content_events_all key es4 Hcontent).
  - destruct Hv' as [-> | ->]; (split; [by right|]); simpl.
    + by rewrite lookup_insert_eq.
    + by rewrite lookup_alter_eq, lookup_insert_eq.
Qed.

Lemma single_identity_items key items : ∀ acc v,
  Forall (λ item, state_key item = key
                  ∧ is_text_kind (message_kind item) = true) items →
  extends_previous acc (raw_text <$> items) →
  cbr key = None → mbr key = None →
  accumulating key acc v →
  ∃ es v',
    process_items cbr mbr js ex items v = (es, inr v') ∧
    content_events es =
      TextDelta key <$> nonempty_suffixes acc (raw_text <$> items).
Proof.
  induction items as [|item items IH]; intros acc v Hall Hext Hcb Hmb Hacc.
  { exists [], v. done. }
  apply Forall_cons in Hall as [[Hkey Hkind] Hall].
  simpl in Hext. destruct Hext as [Hpre Hext].
  destruct (single_identity_item key acc item v)
    as (es1 & v1 & Hrun1 & Hc1 & Hacc1); try done.
  destruct (IH (raw_text item) v1) as (es2 & v2 & Hrun2 & Hc2); try done.
  exists (es1 ++ es2), v2. split.
  - simpl. by rewrite (bind_returned _ _ _ _ Hrun1), Hrun2.
  - unfold content_events in *. rewrite filter_app, Hc1, Hc2.
    unfold nonempty_suffixes. simpl.
    rewrite <- fmap_app. f_equal.
    rewrite !filter_cons. by destruct (decide _).
Qed.

(** C1.  Prefix-delta round trip: when all items of a stream are
    MESSAGE/REASONING items of one identity, each raw text extends the
    one before it, and the completion calls of that message's builders do
    not raise, the content events the adapter emits are exactly the text
    deltas holding the non-empty suffixes of the successive raw texts, and
    the concatenation of all emitted deltas is the final raw text. *)
Theorem prefix_delta_round_trip src key :
  Forall (λ item, state_key item = key
                  ∧ is_text_kind (message_kind item) = true)
         (stream_items src) →
  extends_previous "" (raw_text <$> stream_items src) →
  cbr key = None → mbr key = None →
  let out := yielded (adapt_alias_message_stream cbr mbr js ex src) in
  content_events out =
    TextDelta key <$> nonempty_suffixes "" (raw_text <$> stream_items src)
  ∧ concat_all (text_deltas out) =
    default "" (last (raw_text <$> stream_items src)).
Proof.
  intros Hall Hext Hcb Hmb out.
  destruct (single_identity_items key (stream_items src) "" initial_vars)
    as (es & v & Hrun & Hcontent); try done.
  { split; [by left|]. simpl. by rewrite lookup_empty. }
  unfold stream_items in Hrun. rewrite <- process_chunks_items in Hrun.
  destruct (adapt_stream_phase _ _ _ _ _ _ _ Hrun) as (tail & Hout & Htail).
  assert (content_events out =
          TextDelta key <$> nonempty_suffixes "" (raw_text <$> stream_items src))
    as Hc.
  { unfold out. rewrite Hout. unfold content_events in *.
    rewrite !filter_app, Hcontent.
    fold (content_events tail). rewrite (closing_not_content tail Htail).
    by rewrite app_nil_r. }
  split; [done|].
  rewrite <- text_deltas_of_content, Hc, text_deltas_fmap.
  by rewrite <- (deltas_rebuild_text _ "" Hext).
Qed.

Lemma adapt_brackets src :
  (∃ rest, yielded (adapt_alias_message_stream cbr mbr js ex src)
           = RbCreated :: RbInProgress :: rest)
  ∧ (escaped (adapt_alias_message_stream cbr mbr js ex src) = None →
     ∃ mid, yielded (adapt_alias_message_stream cbr mbr js ex src)
            = RbCreated :: RbInProgress :: mid ++ [RbCompleted])
  ∧ (chunks src = [] → failure src = None →
     adapt_alias_message_stream cbr mbr js ex src
     = ([RbCreated; RbInProgress; RbCompleted], inr tt)).
Proof.
  rewrite adapt_cases. simpl.
  split; [|split].
  - destruct (process_chunks _ _ _ _ _ _) as [es [x|v]]; simpl; [eauto|].
    destruct (failure src); [eauto|].
    destruct (finalize _ _ _ _) as [fs [x|v']]; simpl; eauto.
  - destruct (process_chunks _ _ _ _ _ _) as [es [x|v]]; simpl; [done|].
    destruct (failure src); [done|].
    destruct (finalize _ _ _ _) as [fs [x|v']]; simpl; [done|].
    intros _. exists (es ++ fs). by rewrite <- app_assoc.
  - intros -> ->. done.
Qed.
End Deltas.

(** ** Runner *)

(** Extraction yields either a string or a truthy value, so a falsy
    result is the empty string. *)
Lemma last_text_block_truthy blocks v :
  last_text_block blocks = Some v → py_truthy v = true ∨ v = PStr "".
Proof.
  induction blocks as [|b blocks IH]; [done|]. simpl.
  destruct b as [| | | |l|d]; try apply IH.
  destruct (py_eq_str (dict_get d "type") "text"); [|apply IH].
  destruct (py_truthy (dict_get d "text")) eqn:Ht; intros [= <-]; auto.
Qed.

Lemma extracted_text_falsy request :
  py_truthy (_extract_text_from_agent_request request) = false ↔
  _extract_text_from_agent_request request = PStr "".
Proof.
  split; [|by intros ->].
  unfold _extract_text_from_agent_request.
  destruct (req_input request) as [| | |s|l|d]; try done.
  { simpl. intros H%negb_false_iff%String.eqb_eq. by subst. }
  destruct (last l) as [[| | | | |turn]|]; try done.
  destruct (dict_get turn "content") as [| | |s|blocks|d] eqn:Hc;
    try (destruct (dict_has turn "text"); [|done];
         destruct (dict_get turn "text"); try done;
         simpl; intros H%negb_false_iff%String.eqb_eq; by subst).
  - simpl. intros H%negb_false_iff%String.eqb_eq. by subst.
  - destruct (last_text_block (reverse blocks)) as [v|] eqn:Hb.
    + apply last_text_block_truthy in Hb as [Hb| ->]; [congruence|done].
    + destruct (dict_has turn "text"); [|done].
      destruct (dict_get turn "text"); try done.
      simpl. intros H%negb_false_iff%String.eqb_eq. by subst.
Qed.

Lemma relay_closed_form es : ∀ n r,
  relay es (n, r) =
    (relay_events n es, inr (n + length es, relay_response es r)).
Proof.
  induction es as [|e es IH]; intros n r; simpl.
  { by rewrite Nat.add_0_r. }
  unfold relay_event, yield_with_sequence, mbind, Gen_bind, gen_bind, yield.
  simpl. rewrite IH. simpl. by rewrite Nat.add_succ_r.
Qed.

Lemma relay_events_length n es : length (relay_events n es) = length es.
Proof. revert n. induction es as [|e es IH]; intros n; simpl; auto. Qed.

Lemma relay_events_not_completed n es :
  RbCompleted ∉ es →
  Forall (λ x, is_response_completed x = false) (relay_events n es).
Proof.
  revert n. induction es as [|e es IH]; intros n Hnot; simpl; [constructor|].
  apply not_elem_of_cons in Hnot as [Hne Hnot].
  constructor; [|by apply IH]. unfold is_response_completed. simpl.
  by destruct e.
Qed.

Lemma relay_events_increasing n es :
  StronglySorted lt (sequence_number <$> relay_events n es) ∧
  Forall (λ m, n ≤ m)%nat (sequence_number <$> relay_events n es).
Proof.
  revert n. induction es as [|e es IH]; intros n; simpl.
  { split; constructor. }
  destruct (IH (S n)) as [Hs Hb]. split.
  - constructor; [done|]. eapply Forall_impl; [exact Hb|]. simpl. lia.
  - constructor; [lia|]. eapply Forall_impl; [exact Hb|]. simpl. lia.
Qed.

Section Runner.
Variable ext : Externals.

(** A request that is admitted to the backend: what [stream_query]
    yields around the adapted stream. *)
Lemma stream_query_backend w request conv cr :
  _health (runner w) = true →
  py_truthy (_extract_text_from_agent_request request) = true →
  (resolve_conversation ext w request).1 = inr conv →
  ChatRequest_model_validate ext (chat_request_dict w request) = Valid cr →
  let adapted :=
    adapted_stream ext
      (query_handler ext (user_uuid_of ext request) conv cr
         (task_id_of ext request)) in
  let response :=
    new_response (request_id_of ext request) (session_id_of ext request) in
  let collected :=
    relay_response (yielded adapted) (in_progress response) in
  stream_query ext w request =
    ({| sequence_number := 0; payload_of := ResponseEvent response |}
     :: {| sequence_number := 1;
           payload_of := ResponseEvent (in_progress response) |}
     :: relay_events 2 (yielded adapted)
     ++ [{| sequence_number := 2 + length (yielded adapted);
            payload_of :=
              ResponseEvent
                match escaped adapted with
                | Some exc => failed (handler_error ext exc) collected
                | None => completed (copy_usage collected)
                end |}],
     inr (resolve_conversation ext w request).2).
Proof.
  intros Hhealth Htext Hconv Hvalid adapted response collected.
  unfold stream_query. rewrite Hhealth, Htext, Hconv, Hvalid. simpl.
  fold adapted. fold response.
  unfold yield_with_sequence, mbind, Gen_bind, gen_bind, yield. simpl.
  rewrite relay_closed_form. simpl. fold collected.
  by destruct (escaped adapted).
Qed.
End Runner.

Lemma bind_yielded_Forall {E A B} (P : E → Prop) (m : Gen E A)
    (f : A → Gen E B) :
  Forall P m.1 → (∀ a, Forall P (f a).1) → Forall P (m ≫= f).1.
Proof.
  intros Hm Hf. destruct m as [es [x|a]];
    unfold mbind, Gen_bind, gen_bind; simpl; [done|].
  apply Forall_app. split; [done|apply Hf].
Qed.

Section Escapes.
Variables cbr mbr : string → option exn.
Variable js : pyval → string.
Variable ex : string → pyval.

Lemma close_state_keyed k v : Forall keyed (close_state cbr mbr k v).1.
Proof.
  rewrite close_state_cases.
  destruct (cbr k), (mbr k); simpl; repeat constructor; by eexists.
Qed.

Lemma process_item_keyed item v :
  Forall keyed (process_item cbr mbr js ex item v).1.
Proof.
  unfold process_item.
  destruct (classify (msg_type (inner_message item))) as [t role].
  apply bind_yielded_Forall.
  { unfold close_previous. destruct (last_active_key v); [|constructor].
    destruct (_ && _); [|constructor].
    destruct (state_map v !! _); [|constructor].
    destruct (negb _); [apply close_state_keyed|constructor]. }
  intros v1. apply bind_yielded_Forall.
  { rewrite open_if_new_cases.
    destruct (state_map _ !! _); simpl; repeat constructor; by eexists. }
  intros v3. destruct (state_map v3 !! state_key item) as [st|]; [|constructor].
  apply bind_yielded_Forall.
  { eapply Forall_impl; [apply payload_yielded|].
    intros e [_ He]. by eexists. }
  intros st'. unfold close_if_finished.
  destruct (state_map _ !! _); [|constructor].
  destruct (_ && _); [apply close_state_keyed|constructor].
Qed.

Lemma process_items_keyed items : ∀ v,
  Forall keyed (process_items cbr mbr js ex items v).1.
Proof.
  induction items as [|item items IH]; intros v; simpl; [constructor|].
  apply bind_yielded_Forall; [apply process_item_keyed|apply IH].
Qed.

(** A run that raises has not reached [rb.completed()]. *)
Lemma adapt_escaped_not_completed src exc :
  escaped (adapt_alias_message_stream cbr mbr js ex src) = Some exc →
  RbCompleted ∉ yielded (adapt_alias_message_stream cbr mbr js ex src).
Proof.
  rewrite adapt_cases. simpl.
  pose proof (process_items_keyed (stream_items src) initial_vars) as Hkeyed.
  unfold stream_items in Hkeyed. rewrite <- process_chunks_items in Hkeyed.
  assert (∀ es, Forall keyed es → RbCompleted ∉ RbCreated :: RbInProgress :: es)
    as Hnot.
  { intros es Hes Hin.
    apply elem_of_cons in Hin as [?|Hin]; [done|].
    apply elem_of_cons in Hin as [?|Hin]; [done|].
    rewrite Forall_forall in Hes. by destruct (Hes _ Hin). }
  destruct (process_chunks cbr mbr js ex (chunks src) initial_vars)
    as [es [x|v]] eqn:Hrun; simpl in *.
  { intros _. by apply Hnot. }
  destruct (failure src); simpl.
  { intros _. by apply Hnot. }
  destruct (stream_phase_tracked _ _ _ _ _ _ _ Hrun) as (Htr & _ & _).
  destruct (finalize_attempts cbr mbr js ex (state_keys v) v
              (tracked_nodup _ _ Htr)) as [v' ->].
  done.
Qed.
End Escapes.

Section Failures.
Variable ext : Externals.

(** C2.  A request whose extracted input text is empty makes a started
    runner yield exactly three events: its response as created, as
    in_progress, and as failed with error code 422; none of them is a
    completed event and their sequence numbers 0, 1, 2 strictly
    increase. *)
Theorem empty_input_fails_with_422 w request :
  _health (runner w) = true →
  _extract_text_from_agent_request request = PStr "" →
  let response :=
    new_response (request_id_of ext request) (session_id_of ext request) in
  let err :=
    {| error_code := "422";
       error_message := "Empty input text in AgentRequest.input." |} in
  let out := stream_query ext w request in
  out =
    ([{| sequence_number := 0; payload_of := ResponseEvent response |};
      {| sequence_number := 1;
         payload_of := ResponseEvent (in_progress response) |};
      {| sequence_number := 2;
         payload_of := ResponseEvent (failed err (in_progress response)) |}],
     inr w)
  ∧ resp_status response = Created
  ∧ resp_status (in_progress response) = InProgress
  ∧ resp_status (failed err (in_progress response)) = Failed
  ∧ resp_error (failed err (in_progress response)) = Some err
  ∧ Forall (λ n, is_response_completed n = false) (yielded out)
  ∧ StronglySorted lt (sequence_number <$> yielded out).
Proof.
  intros Hhealth Htext response err out.
  assert (out = ([{| sequence_number := 0; payload_of := ResponseEvent response |};
      {| sequence_number := 1;
         payload_of := ResponseEvent (in_progress response) |};
      {| sequence_number := 2;
         payload_of := ResponseEvent (failed err (in_progress response)) |}],
     inr w)) as Hout.
  { unfold out, stream_query. by rewrite Hhealth, Htext. }
  rewrite Hout. repeat split.
  - by repeat constructor.
  - repeat constructor; simpl; lia.
Qed.

(** C7, amended.  When the backend invocation or the adapted stream
    raises, [stream_query] ends with a failed event and returns: for the
    application's structured error the event carries its code and
    message, for any other exception code 500 and the text
    "Error happens in `query_handler`: " followed by the stringified
    exception.  Nothing follows the failed event and no response-level
    completed event precedes it. *)
Theorem backend_exception_ends_with_failed w request conv cr exc :
  _health (runner w) = true →
  py_truthy (_extract_text_from_agent_request request) = true →
  (resolve_conversation ext w request).1 = inr conv →
  ChatRequest_model_validate ext (chat_request_dict w request) = Valid cr →
  escaped (adapted_stream ext
             (query_handler ext (user_uuid_of ext request) conv cr
                (task_id_of ext request))) = Some exc →
  ∃ before r,
    yielded (stream_query ext w request) =
      before ++ [{| sequence_number := length before;
                    payload_of := ResponseEvent r |}]
    ∧ escaped (stream_query ext w request) = None
    ∧ resp_status r = Failed
    ∧ resp_error r =
        Some match exc with
             | BaseError c m =>
                 {| error_code := string_of_Z c; error_message := m |}
             | Exception _ text =>
                 {| error_code := "500";
                    error_message :=
                      "Error happens in `query_handler`: " +:+ text |}
             end
    ∧ Forall (λ n, is_response_completed n = false) before.
Proof.
  intros Hhealth Htext Hconv Hvalid Hexc.
  rewrite (stream_query_backend ext w request conv cr) by done.
  rewrite Hexc. unfold yielded, escaped. simpl.
  eexists (_ :: _ :: relay_events 2 _), _. split; [|split; [|split; [|split]]].
  - simpl. rewrite relay_events_length. reflexivity.
  - done.
  - done.
  - simpl. by destruct exc.
  - repeat constructor. apply relay_events_not_completed.
    destruct (query_handler _ _ _ _ _) as [x|src]; simpl in *.
    + apply not_elem_of_nil.
    + by eapply adapt_escaped_not_completed.
Qed.
End Failures.

Section ResponseLifecycle.
Variable ext : Externals.

(** C10.  The adapter itself yields a response-level created and an
    in_progress event before anything else, whatever the source, and a
    response-level completed event last when it returns; for a source
    without chunks these three are all it yields.  The output of
    [stream_query] therefore carries them, numbered 2 and 3 (and 4 for an
    empty backend stream), between the runner's own lifecycle events. *)
Theorem adapter_emits_response_lifecycle :
  let adapt :=
    adapt_alias_message_stream (cb_complete_raises ext)
      (mb_complete_raises ext) (_ensure_safe_json_string ext)
      (_extract_alias_output_obj ext) in
  (∀ src, ∃ rest, yielded (adapt src) = RbCreated :: RbInProgress :: rest)
  ∧ (∀ src, escaped (adapt src) = None →
       ∃ mid, yielded (adapt src)
              = RbCreated :: RbInProgress :: mid ++ [RbCompleted])
  ∧ (∀ src, chunks src = [] → failure src = None →
       adapt src = ([RbCreated; RbInProgress; RbCompleted], inr tt))
  ∧ (∀ w request conv cr src,
       _health (runner w) = true →
       py_truthy (_extract_text_from_agent_request request) = true →
       (resolve_conversation ext w request).1 = inr conv →
       ChatRequest_model_validate ext (chat_request_dict w request)
         = Valid cr →
       query_handler ext (user_uuid_of ext request) conv cr
         (task_id_of ext request) = inr src →
       ∃ own0 own1 rest,
         yielded (stream_query ext w request) =
           {| sequence_number := 0; payload_of := ResponseEvent own0 |}
           :: {| sequence_number := 1; payload_of := ResponseEvent own1 |}
           :: {| sequence_number := 2; payload_of := AdaptedEvent RbCreated |}
           :: {| sequence_number := 3;
                 payload_of := AdaptedEvent RbInProgress |}
           :: rest
         ∧ resp_status own0 = Created
         ∧ resp_status own1 = InProgress
         ∧ (chunks src = [] → failure src = None →
            ∃ own2,
              rest =
                [{| sequence_number := 4;
                    payload_of := AdaptedEvent RbCompleted |};
                 {| sequence_number := 5;
                    payload_of := ResponseEvent own2 |}]
              ∧ resp_status own2 = Completed)).
Proof.
  intros adapt.
  split; [|split; [|split]].
  - intros src. apply adapt_brackets.
  - intros src. apply adapt_brackets.
  - intros src. apply adapt_brackets.
  - intros w request conv cr src Hhealth Htext Hconv Hvalid Hsrc.
    rewrite (stream_query_backend ext w request conv cr) by done.
    rewrite Hsrc. unfold adapted_stream. fold adapt. unfold yielded at 1.
    cbn [fst].
    destruct (adapt_brackets (cb_complete_raises ext) (mb_complete_raises ext)
                (_ensure_safe_json_string ext) (_extract_alias_output_obj ext)
                src) as ([tail Htail] & _ & Hempty).
    fold adapt in Htail, Hempty.
    eexists _, _, _. split; [|split; [|split]].
    + rewrite Htail. simpl. reflexivity.
    + done.
    + done.
    + intros Hchunks Hfail. rewrite (Hempty Hchunks Hfail) in *.
      injection Htail as <-. simpl. eexists. split; [reflexivity|done].
Qed.
End ResponseLifecycle.

(** ** The native path *)

Section Native.
Variable ext : Externals.

(** A runner that was not started: the exception escapes from the
    runner and the relay turns it into an error frame and the
    terminator. *)
Lemma native_not_started_ends_with_terminator w request kwargs :
  _health (runner w) = false →
  ∃ frame, event_generator ext w request kwargs = ([frame; SseDone], inr tt).
Proof.
  intros Hhealth. unfold event_generator, stream_query_native.
  rewrite Hhealth. simpl. eauto.
Qed.

(** A backend stream that ends normally: every chunk, then the
    terminator. *)
Lemma native_success_ends_with_terminator w request kwargs user conv cr src :
  _health (runner w) = true →
  kw_or ext (kw_user_id kwargs) (nreq_user_id request) = Some user →
  kw_or ext (kw_conversation_id kwargs) (nreq_conversation_id request)
    = Some conv →
  ChatRequest_model_validate ext (nreq_dict request) = Valid cr →
  query_handler ext user conv cr
    (default (uuid4_task ext)
       (kw_or ext (kw_task_id kwargs) (nreq_task_id request))) = inr src →
  failure src = None →
  event_generator ext w request kwargs =
    ((SseData ∘ NativeRaw <$> chunks src) ++ [SseDone], inr tt).
Proof.
  intros Hhealth Huser Hconv Hvalid Hsrc Hfail.
  unfold event_generator, stream_query_native, relay_native.
  rewrite Hhealth, Huser, Hconv, Hvalid, Hsrc, Hfail. simpl.
  unfold try_except, mbind, Gen_bind, gen_bind, yield. simpl.
  rewrite fmap_app, <- list_fmap_compose. done.
Qed.

(** C8, the code at a failing backend.  When the backend's stream
    raises after some chunks, the frames sent to the client are those
    chunks and one error dictionary; the stream ends there and the
    terminator is not sent. *)
Theorem native_failure_ends_without_terminator
    w request kwargs user conv cr src exc :
  _health (runner w) = true →
  kw_or ext (kw_user_id kwargs) (nreq_user_id request) = Some user →
  kw_or ext (kw_conversation_id kwargs) (nreq_conversation_id request)
    = Some conv →
  ChatRequest_model_validate ext (nreq_dict request) = Valid cr →
  query_handler ext user conv cr
    (default (uuid4_task ext)
       (kw_or ext (kw_task_id kwargs) (nreq_task_id request))) = inr src →
  failure src = Some exc →
  let out := event_generator ext w request kwargs in
  let error_chunk :=
    NativeDict
      match exc with
      | BaseError c m => [("error", PStr m); ("code", PInt c)]
      | Exception cls text =>
          [("error", PStr text); ("code", PInt 500);
           ("error_type", PStr cls)]
      end in
  out = ((SseData ∘ NativeRaw <$> chunks src) ++ [SseData error_chunk],
         inr tt)
  ∧ last (yielded out) ≠ Some SseDone
  ∧ SseDone ∉ yielded out.
Proof.
  intros Hhealth Huser Hconv Hvalid Hsrc Hfail out error_chunk.
  assert (out = ((SseData ∘ NativeRaw <$> chunks src)
                   ++ [SseData error_chunk], inr tt)) as Hout.
  { unfold out, error_chunk, event_generator, stream_query_native,
      relay_native.
    rewrite Hhealth, Huser, Hconv, Hvalid, Hsrc, Hfail. simpl.
    unfold try_except, mbind, Gen_bind, gen_bind, yield.
    destruct exc as [c m|cls text]; simpl;
      by rewrite app_nil_r, fmap_app, <- list_fmap_compose. }
  rewrite Hout. unfold yielded. cbn [fst].
  split; [done|]. split.
  - by rewrite last_snoc.
  - intros [Hin|Hin]%elem_of_app.
    + by apply list_elem_of_fmap in Hin as (c & ? & _).
    + by apply list_elem_of_singleton in Hin.
Qed.
End Native.

(** ** The conversation cache under interleaving *)

(** C9, the code with two first resolutions in flight.  Two tasks
    resolve the same session, which is not in the cache; the first is
    suspended in its creation call when the second runs.  Both find the
    cache empty and both call conversation creation: nothing guards the
    sequence from the test of the cache to the store. *)
Theorem concurrent_first_resolutions_create_twice
    (ext : Externals) (w : World) (session_id : string) (user1 user2 : UUID) :
  _session_conv_cache (runner w) !! session_id = None →
  let start :=
    {| world := w;
       tasks := [{| task_session := session_id; task_user := user1;
                    task_pc := AtEntry |};
                 {| task_session := session_id; task_user := user2;
                    task_pc := AtEntry |}] |} in
  let suspended := run_schedule ext [0; 1] start in
  let n := length (created_conversations w) in
  created_conversations (world suspended) =
    created_conversations w
    ++ [(user1, default_conv_name (runner w));
        (user2, default_conv_name (runner w))]
  ∧ task_pc <$> tasks suspended = [AwaitingCreation n; AwaitingCreation (S n)].
Proof.
  intros Hmiss. simpl. unfold resume. simpl. unfold resolution_step.
  rewrite Hmiss. simpl. rewrite Hmiss. simpl.
  rewrite <- app_assoc, length_app, Nat.add_1_r. done.
Qed.

(** Both creations succeed: the tasks return different conversations
    for one session, and the cache keeps the one stored last. *)
Lemma concurrent_first_resolutions_diverge
    (ext : Externals) (session_id : string) (user1 user2 : UUID)
    (conv1 conv2 : UUID) (repr1 repr2 : string) :
  create_conversation ext 0
    = inr {| conv_id := IdUUID conv1; conv_repr := repr1 |} →
  create_conversation ext 1
    = inr {| conv_id := IdUUID conv2; conv_repr := repr2 |} →
  let start :=
    {| world := sample_world;
       tasks := [{| task_session := session_id; task_user := user1;
                    task_pc := AtEntry |};
                 {| task_session := session_id; task_user := user2;
                    task_pc := AtEntry |}] |} in
  let finished := run_schedule ext [0; 1; 0; 1] start in
  task_pc <$> tasks finished = [Returned conv1; Returned conv2]
  ∧ _session_conv_cache (runner (world finished)) !! session_id = Some conv2.
Proof.
  intros Hc1 Hc2. simpl. unfold resume. simpl. unfold resolution_step. simpl.
  repeat (rewrite ?lookup_empty, ?Hc1, ?Hc2; simpl).
  by rewrite lookup_insert_eq.
Qed.

(** Without overlap the second resolution finds the cached id. *)
Lemma sequential_resolutions_create_once
    (ext : Externals) (session_id : string) (user1 user2 : UUID)
    (conv : UUID) (repr : string) :
  create_conversation ext 0 = inr {| conv_id := IdUUID conv; conv_repr := repr |} →
  let start :=
    {| world := sample_world;
       tasks := [{| task_session := session_id; task_user := user1;
                    task_pc := AtEntry |};
                 {| task_session := session_id; task_user := user2;
                    task_pc := AtEntry |}] |} in
  let finished := run_schedule ext [0; 0; 1] start in
  created_conversations (world finished) = [(user1, "webui")]
  ∧ task_pc <$> tasks finished = [Returned conv; Returned conv].
Proof.
  intros Hcreate. simpl. unfold resume. simpl. unfold resolution_step. simpl.
  rewrite !lookup_empty. simpl. rewrite Hcreate. simpl.
  rewrite lookup_insert_eq. done.
Qed.

(** ** Where the code differs from the specification *)

(** C3, the identity of the claim: an item without correlation id and
    an item with the correlation id text None differ as pairs
    (correlation id, kind), yet have one state key.  The second continues
    the open message of the first: nothing is closed at the change. *)
Lemma none_text_continues_anonymous_message :
  let prev := anonymous_text_item "x" in
  let item := text_item "None" None "xy" in
  claimed_identity item ≠ claimed_identity prev
  ∧ state_key item = state_key prev
  ∧ ∃ v v',
      process_items no_failure no_failure (λ _, "{}") PStr [prev] initial_vars
      = ([MessageOpened "None_message" ASSISTANT MESSAGE;
          TextDelta "None_message" "x"], inr v)
      ∧ is_open v (state_key prev)
      ∧ process_item no_failure no_failure (λ _, "{}") PStr item v
        = ([TextDelta "None_message" "y"], inr v')
      ∧ is_open v' (state_key prev).
Proof.
  intros prev item. split; [discriminate|]. split; [reflexivity|].
  eexists _, _. split; [vm_compute; reflexivity|].
  split; [vm_compute; reflexivity|].
  split; [vm_compute; reflexivity|].
  vm_compute; reflexivity.
Qed.

(** C5, the identity of the claim: the same two items are two pairs
    (correlation id, kind) and open one message. *)
Lemma absent_id_and_none_text_open_one_message :
  let src :=
    {| chunks := [DataChunk (Some [anonymous_text_item "x";
                                   text_item "None" None "xy"])];
       failure := None |} in
  let out :=
    yielded (adapt_alias_message_stream no_failure no_failure (λ _, "{}") PStr
               src) in
  length (remove_dups (claimed_identity <$> stream_items src)) = 2
  ∧ opened_keys out = ["None_message"]
  ∧ length (remove_dups (identity <$> stream_items src)) = 1.
Proof.
  intros src out. split; [vm_compute; reflexivity|].
  split; vm_compute; reflexivity.
Qed.

(** C4, second half: an item that reuses an identity after its closure
    continues the closed entry. *)
Lemma reused_identity_is_not_reopened :
  let first := text_item "a" (Some "finished") "ab" in
  let second := text_item "a" None "abc" in
  let out :=
    yielded (adapt_alias_message_stream no_failure no_failure (λ _, "{}") PStr
               {| chunks := [DataChunk (Some [first; second])];
                  failure := None |}) in
  identity second = identity first
  ∧ out = [RbCreated; RbInProgress;
           MessageOpened "a_message" ASSISTANT MESSAGE;
           TextDelta "a_message" "ab";
           ContentCompleted "a_message"; MessageCompleted "a_message";
           TextDelta "a_message" "c";
           RbCompleted]
  ∧ ¬ (∃ before role t after,
         out = before ++ [MessageCompleted "a_message"] ++ after
         ∧ MessageOpened "a_message" role t ∈ after).
Proof.
  vm_compute. split; [done|]. split; [done|].
  intros (before & role & t & after & Hout & Hin).
  do 5 (destruct before as [|? before]; [discriminate|];
        injection Hout as <- Hout).
  destruct before as [|? before].
  - injection Hout as <-.
    repeat (apply elem_of_cons in Hin as [Hin|Hin]; [discriminate|]).
    by apply elem_of_nil in Hin.
  - injection Hout as <- Hout.
    do 2 (destruct before as [|? before]; [discriminate|];
          injection Hout as <- Hout).
    by destruct before.
Qed.

(** C7: the message of an unknown exception carries a fixed prefix. *)
Lemma unknown_exception_message_is_prefixed :
  let boom := Exception "RuntimeError" "boom" in
  let ext := sample_externals (inl boom) in
  let out := yielded (stream_query ext sample_world (sample_request (PStr "hi"))) in
  exn_str ext boom = "boom"
  ∧ ∃ r,
      last out = Some {| sequence_number := 2; payload_of := ResponseEvent r |}
      ∧ resp_status r = Failed
      ∧ resp_error r =
          Some {| error_code := "500";
                  error_message := "Error happens in `query_handler`: boom" |}
      ∧ resp_error r ≠
          Some {| error_code := "500"; error_message := "boom" |}.
Proof. vm_compute. split; [done|]. eexists. by repeat split. Qed.

(** ** The theorems at concrete inputs *)

Lemma prefix_delta_round_trip_witness :
  let src :=
    {| chunks := [DataChunk (Some [text_item "m" None "he";
                                   text_item "m" (Some "finished") "hello"]);
                  NotAData;
                  DataChunk (Some [text_item "m" None "hello!"])];
       failure := None |} in
  let out :=
    yielded (adapt_alias_message_stream no_failure no_failure (λ _, "{}")
               PStr src) in
  extends_previous "" (raw_text <$> stream_items src)
  ∧ content_events out =
      [TextDelta "m_message" "he"; TextDelta "m_message" "llo";
       TextDelta "m_message" "!"]
  ∧ concat_all (text_deltas out) = "hello!".
Proof.
  intros src out.
  assert (extends_previous "" (raw_text <$> stream_items src)) as Hext
    by (simpl; repeat split).
  split; [exact Hext|].
  exact (prefix_delta_round_trip no_failure no_failure (λ _, "{}") PStr
           src "m_message" ltac:(repeat constructor) Hext eq_refl eq_refl).
Defined.

Lemma empty_input_fails_with_422_witness :
  let ext := sample_externals (inr {| chunks := []; failure := None |}) in
  let request := sample_request (PStr "") in
  _health (runner sample_world) = true
  ∧ _extract_text_from_agent_request request = PStr ""
  ∧ StronglySorted lt
      (sequence_number <$> yielded (stream_query ext sample_world request))
  ∧ length (yielded (stream_query ext sample_world request)) = 3.
Proof.
  intros ext request. split; [reflexivity|]. split; [reflexivity|].
  destruct (empty_input_fails_with_422 ext sample_world request
              eq_refl eq_refl) as (Hout & _ & _ & _ & _ & _ & Hsorted).
  split; [exact Hsorted|]. by rewrite Hout.
Defined.

Lemma switch_closes_previous_message_witness :
  let prev := text_item "a" None "x" in
  let item := text_item "b" None "y" in
  escaped (process_items no_failure no_failure (λ _, "{}") PStr
             ([] ++ [prev; item]) initial_vars) = None
  ∧ identity item ≠ identity prev
  ∧ ∃ es v es' v',
      process_items no_failure no_failure (λ _, "{}") PStr ([] ++ [prev])
        initial_vars = (es, inr v)
      ∧ process_item no_failure no_failure (λ _, "{}") PStr item v
        = (es', inr v')
      ∧ is_open v (state_key prev)
      ∧ (∃ rest,
           es' = ContentCompleted (state_key prev)
                 :: MessageCompleted (state_key prev) :: rest
           ∧ Forall (λ e, event_key e = Some (state_key item)) rest)
      ∧ is_completed <$> state_map v' !! state_key prev = Some true
      ∧ (∀ k, is_open v k → k = state_key prev)
      ∧ (∀ k, is_open v' k → k = state_key item).
Proof.
  intros prev item.
  assert (escaped (process_items no_failure no_failure (λ _, "{}") PStr
                     ([] ++ [prev; item]) initial_vars) = None) as Hret
    by (vm_compute; reflexivity).
  assert (identity item ≠ identity prev) as Hid by discriminate.
  split; [exact Hret|]. split; [exact Hid|].
  destruct (switch_closes_previous_message no_failure no_failure (λ _, "{}")
              PStr [] prev item Hret)
    as (es0 & v0 & es & v & es' & v' & H0 & Hrun & Hitem & Hwhen & Hopen
        & Hswitch & _ & Hopen').
  simpl in H0. injection H0 as _ <-.
  assert (is_open v (state_key prev)) as Hprev.
  { apply Hwhen. split; [discriminate|]. simpl. rewrite lookup_empty.
    discriminate. }
  destruct (Hswitch Hid) as (Hclose & _ & Hdone).
  exists es, v, es', v'.
  split; [exact Hrun|]. split; [exact Hitem|]. split; [exact Hprev|].
  split; [exact (Hclose Hprev)|]. split; [exact Hdone|].
  split; [exact Hopen|exact Hopen'].
Defined.

Lemma finished_closes_and_reuse_continues_witness :
  let item := text_item "a" (Some "finished") "ab" in
  escaped (process_item no_failure no_failure (λ _, "{}") PStr item
             initial_vars) = None
  ∧ ∃ es v',
      process_item no_failure no_failure (λ _, "{}") PStr item initial_vars
        = (es, inr v')
      ∧ ¬ is_open v' "a_message"
      ∧ ∃ pre, es = pre ++ [ContentCompleted "a_message";
                            MessageCompleted "a_message"].
Proof.
  intros item.
  assert (escaped (process_item no_failure no_failure (λ _, "{}") PStr item
                     initial_vars) = None) as Hret
    by (vm_compute; reflexivity).
  split; [exact Hret|].
  destruct (finished_closes_and_reuse_continues no_failure no_failure
              (λ _, "{}") PStr item initial_vars Hret)
    as (es & v' & Hrun & Hfin & _).
  destruct (Hfin eq_refl) as [Hclosed Hends].
  exists es, v'. split; [exact Hrun|]. split; [exact Hclosed|].
  apply Hends. intros st Hst. vm_compute in Hst. discriminate Hst.
Defined.

Lemma message_opened_once_per_identity_witness :
  let src :=
    {| chunks := [DataChunk (Some [text_item "a" None "x";
                                   text_item "b" None "y"]);
                  DataChunk (Some [text_item "a" None "xz"])];
       failure := None |} in
  escaped (process_chunks no_failure no_failure (λ _, "{}") PStr (chunks src)
             initial_vars) = None
  ∧ length (opened_keys
              (yielded (adapt_alias_message_stream no_failure no_failure
                          (λ _, "{}") PStr src))) = 2.
Proof.
  intros src.
  assert (escaped (process_chunks no_failure no_failure (λ _, "{}") PStr
                     (chunks src) initial_vars) = None) as Hret
    by (vm_compute; reflexivity).
  split; [exact Hret|].
  exact (message_opened_once_per_identity no_failure no_failure (λ _, "{}")
           PStr src Hret).
Defined.

Lemma end_of_stream_closes_each_open_message_once_witness :
  let cb_raises := λ k : string,
    if String.eqb k "b_message" then Some (Exception "RuntimeError" "cb")
    else None in
  let src :=
    {| chunks := [DataChunk (Some [text_item "a" (Some "finished") "x";
                                   text_item "b" None "y"])];
       failure := None |} in
  let out :=
    adapt_alias_message_stream cb_raises no_failure (λ _, "{}") PStr src in
  failure src = None
  ∧ escaped (process_chunks cb_raises no_failure (λ _, "{}") PStr (chunks src)
               initial_vars) = None
  ∧ escaped out = None
  ∧ occurrences (ContentCompleted "a_message") (yielded out) = 1
  ∧ occurrences (MessageCompleted "a_message") (yielded out) = 1
  ∧ (occurrences (ContentCompleted "b_message") (yielded out) ≤ 1)%nat.
Proof.
  intros cb_raises src out.
  assert (escaped (process_chunks cb_raises no_failure (λ _, "{}") PStr
                     (chunks src) initial_vars) = None) as Hret
    by (vm_compute; reflexivity).
  split; [reflexivity|]. split; [exact Hret|].
  destruct (end_of_stream_closes_each_open_message_once cb_raises no_failure
              (λ _, "{}") PStr src eq_refl Hret)
    as (es & v & Hrun & Hout & Hnd & Hmost & Hexact).
  fold out in Hout, Hmost, Hexact.
  split; [by rewrite Hout|].
  assert ("a_message" ∈ opened_keys (yielded out)) as Hin.
  { vm_compute. apply elem_of_cons. by left. }
  destruct (Hexact "a_message" Hin eq_refl eq_refl) as [Hc Hm].
  split; [exact Hc|]. split; [exact Hm|].
  exact (proj1 (Hmost "b_message")).
Defined.

Lemma backend_exception_ends_with_failed_witness :
  let down := BaseError 503 "down" in
  let ext :=
    sample_externals
      (inr {| chunks := [DataChunk (Some [text_item "m" None "par"])];
              failure := Some down |}) in
  let request := sample_request (PStr "hi") in
  _health (runner sample_world) = true
  ∧ py_truthy (_extract_text_from_agent_request request) = true
  ∧ ∃ before r,
      yielded (stream_query ext sample_world request) =
        before ++ [{| sequence_number := length before;
                      payload_of := ResponseEvent r |}]
      ∧ resp_status r = Failed
      ∧ resp_error r =
          Some {| error_code := "503"; error_message := "down" |}.
Proof.
  intros down ext request. split; [reflexivity|]. split; [reflexivity|].
  destruct (backend_exception_ends_with_failed ext sample_world request
              100%N {| query := "hi"; chat_mode := "general" |} down
              eq_refl eq_refl ltac:(vm_compute; reflexivity) eq_refl
              ltac:(vm_compute; reflexivity))
    as (before & r & Hout & _ & Hstatus & Herror & _).
  exists before, r. split; [exact Hout|]. split; [exact Hstatus|exact Herror].
Defined.

Lemma adapter_emits_response_lifecycle_witness :
  let src := {| chunks := []; failure := None |} in
  let ext := sample_externals (inr src) in
  let request := sample_request (PStr "hi") in
  _health (runner sample_world) = true
  ∧ py_truthy (_extract_text_from_agent_request request) = true
  ∧ ∃ own0 own1 own2,
      yielded (stream_query ext sample_world request) =
        [{| sequence_number := 0; payload_of := ResponseEvent own0 |};
         {| sequence_number := 1; payload_of := ResponseEvent own1 |};
         {| sequence_number := 2; payload_of := AdaptedEvent RbCreated |};
         {| sequence_number := 3; payload_of := AdaptedEvent RbInProgress |};
         {| sequence_number := 4; payload_of := AdaptedEvent RbCompleted |};
         {| sequence_number := 5; payload_of := ResponseEvent own2 |}]
      ∧ resp_status own0 = Created
      ∧ resp_status own1 = InProgress
      ∧ resp_status own2 = Completed.
Proof.
  intros src ext request. split; [reflexivity|]. split; [reflexivity|].
  destruct (adapter_emits_response_lifecycle ext) as (_ & _ & _ & Hrunner).
  destruct (Hrunner sample_world request 100%N
              {| query := "hi"; chat_mode := "general" |} src
              eq_refl eq_refl ltac:(vm_compute; reflexivity) eq_refl eq_refl)
    as (own0 & own1 & rest & Hout & S0 & S1 & Hempty).
  destruct (Hempty eq_refl eq_refl) as (own2 & -> & S2).
  exists own0, own1, own2. auto.
Defined.

Lemma native_failure_ends_without_terminator_witness :
  let chunk := DataChunk (Some [text_item "m1" None "partial"]) in
  let ext :=
    sample_externals
      (inr {| chunks := [chunk]; failure := Some (BaseError 503 "down") |}) in
  let request :=
    {| nreq_user_id := None; nreq_conversation_id := None;
       nreq_task_id := None; nreq_dict := PDict [("query", PStr "hi")] |} in
  let kwargs :=
    {| kw_user_id := Some 1%N; kw_conversation_id := Some 2%N;
       kw_task_id := Some 3%N |} in
  let out := event_generator ext sample_world request kwargs in
  _health (runner sample_world) = true
  ∧ out = ([SseData (NativeRaw chunk);
            SseData (NativeDict [("error", PStr "down"); ("code", PInt 503)])],
           inr tt)
  ∧ last (yielded out) ≠ Some SseDone.
Proof.
  intros chunk ext request kwargs out. split; [reflexivity|].
  destruct (native_failure_ends_without_terminator ext sample_world request
              kwargs 1%N 2%N {| query := "hi"; chat_mode := "general" |}
              {| chunks := [chunk]; failure := Some (BaseError 503 "down") |}
              (BaseError 503 "down")
              eq_refl eq_refl eq_refl eq_refl eq_refl eq_refl)
    as (Hout & Hlast & _).
  split; [exact Hout|exact Hlast].
Defined.

Lemma concurrent_first_resolutions_create_twice_witness :
  let start :=
    {| world := sample_world;
       tasks := [{| task_session := "s1"; task_user := 1%N;
                    task_pc := AtEntry |};
                 {| task_session := "s1"; task_user := 1%N;
                    task_pc := AtEntry |}] |} in
  let ext := sample_externals (inr {| chunks := []; failure := None |}) in
  _session_conv_cache (runner sample_world) !! "s1" = None
  ∧ created_conversations (world (run_schedule ext [0; 1] start))
    = [(1%N, "webui"); (1%N, "webui")].
Proof.
  intros start ext.
  assert (_session_conv_cache (runner sample_world) !! "s1" = None) as Hmiss
    by reflexivity.
  split; [exact Hmiss|].
  exact (proj1 (concurrent_first_resolutions_create_twice ext sample_world
                  "s1" 1%N 1%N Hmiss)).
Defined.

(** ** The runner's paths in closed form *)

Lemma relay_events_numbers es : ∀ n,
  sequence_number <$> relay_events n es = seq n (length es).
Proof.
  induction es as [|e es IH]; intros n; [done|].
  simpl. f_equal. apply IH.
Qed.

Lemma relay_events_adapted n es :
  Forall (λ x, own_status x = None) (relay_events n es).
Proof.
  revert n. induction es as [|e es IH]; intros n; simpl; constructor; auto.
Qed.

Lemma relay_response_fields es : ∀ r,
  resp_id (relay_response es r) = resp_id r
  ∧ resp_session_id (relay_response es r) = resp_session_id r
  ∧ resp_status (relay_response es r) = resp_status r
  ∧ resp_error (relay_response es r) = resp_error r
  ∧ resp_output (relay_response es r)
    = resp_output r ++ omap completed_message es.
Proof.
  unfold relay_response.
  induction es as [|e es IH]; intros r; simpl.
  { by rewrite app_nil_r. }
  destruct (IH (match completed_message e with
                | Some key => add_new_message key r
                | None => r
                end)) as (-> & -> & -> & -> & ->).
  destruct (completed_message e); simpl; [|done].
  by rewrite <- app_assoc.
Qed.

Section Paths.
Variable ext : Externals.

(** Every path of [stream_query], with what it yields and how it
    ends. *)
Lemma stream_query_cases w request :
  let resolved := resolve_conversation ext w request in
  stream_query ext w request =
    if negb (_health (runner w)) then ([], inl not_started)
    else if negb (py_truthy (_extract_text_from_agent_request request)) then
      (opening_events ext request
         ++ [early_failure ext request "422"
               "Empty input text in AgentRequest.input."],
       inr w)
    else
      match resolved.1 with
      | inl exc =>
          (opening_events ext request
             ++ [early_failure ext request "500"
                   ("Failed to create conversation: " +:+ exn_str ext exc)],
           inr resolved.2)
      | inr conv =>
          match ChatRequest_model_validate ext (chat_request_dict w request)
          with
          | Invalid text _ =>
              (opening_events ext request
                 ++ [early_failure ext request "422"
                       ("ChatRequest validation failed: " +:+ text)],
               inr resolved.2)
          | ValidationCrash exc => (opening_events ext request, inl exc)
          | Valid cr =>
              let adapted :=
                adapted_stream ext
                  (query_handler ext (user_uuid_of ext request) conv cr
                     (task_id_of ext request)) in
              let collected :=
                relay_response (yielded adapted)
                  (in_progress
                     (new_response (request_id_of ext request)
                        (session_id_of ext request))) in
              (opening_events ext request
                 ++ relay_events 2 (yielded adapted)
                 ++ [{| sequence_number := 2 + length (yielded adapted);
                        payload_of :=
                          ResponseEvent
                            match escaped adapted with
                            | Some exc =>
                                failed (handler_error ext exc) collected
                            | None => completed (copy_usage collected)
                            end |}],
               inr resolved.2)
          end
      end.
Proof.
  intros resolved. unfold stream_query.
  destruct (negb (_health (runner w))); [done|].
  destruct (negb (py_truthy (_extract_text_from_agent_request request)));
    [done|].
  fold resolved. destruct (resolved.1) as [exc|conv]; [done|].
  destruct (ChatRequest_model_validate ext (chat_request_dict w request))
    as [cr|text detail|exc]; [|done|done].
  unfold yield_with_sequence, mbind, Gen_bind, gen_bind, yield. simpl.
  rewrite relay_closed_form. simpl.
  by destruct (escaped _).
Qed.

(** A failed resolution has called the service and left the cache as
    it was; a successful one has stored what it returns. *)
Lemma get_or_create_cases session_id user_uuid w :
  let n := length (created_conversations w) in
  _get_or_create_conversation_id ext session_id user_uuid w =
    match _session_conv_cache (runner w) !! session_id with
    | Some conv => (inr conv, w)
    | None =>
        match create_conversation ext n with
        | inl x => (inl x, call_create user_uuid w)
        | inr conversation =>
            match match conv_id conversation with
                  | IdUUID u => Some u
                  | IdOther s => _to_uuid ext s
                  end with
            | Some c =>
                (inr c, cache_store session_id c (call_create user_uuid w))
            | None =>
                (inl (Exception "RuntimeError"
                        ("ConversationService.create_conversation() " +:+
                         "returned invalid id: " +:+ conv_repr conversation)),
                 call_create user_uuid w)
            end
        end
    end.
Proof.
  intros n. unfold _get_or_create_conversation_id. simpl.
  destruct (_session_conv_cache (runner w) !! session_id); [done|].
  simpl. fold n.
  destruct (create_conversation ext n) as [x|conversation]; [done|].
  by destruct (match conv_id conversation with
               | IdUUID u => Some u
               | IdOther s => _to_uuid ext s
               end).
Qed.
End Paths.

(** ** Properties of the runner's paths *)

Section RunnerPaths.
Variable ext : Externals.

(** X1.  Whatever path a call of [stream_query] takes, the
    events it yields are numbered 0, 1, 2, ... without gap or
    repetition, the runner's own events and the relayed adapter events
    alike. *)
Theorem stream_query_numbers_consecutive w request :
  sequence_number <$> yielded (stream_query ext w request)
  = seq 0 (length (yielded (stream_query ext w request))).
Proof.
  rewrite stream_query_cases. unfold yielded.
  destruct (negb (_health (runner w))); [done|].
  destruct (negb (py_truthy (_extract_text_from_agent_request request)));
    [done|].
  destruct ((resolve_conversation ext w request).1) as [exc|conv]; [done|].
  destruct (ChatRequest_model_validate ext (chat_request_dict w request))
    as [cr|text detail|exc]; [|done|done].
  cbn [fst]. rewrite !fmap_app, !length_app, relay_events_numbers.
  rewrite relay_events_length. simpl.
  do 2 f_equal. rewrite seq_app. simpl. done.
Qed.

(** X2.  A call of [stream_query] on a started runner whose
    request validation does not crash returns normally, and the last
    event it yields is its own response in a terminal state: completed
    without an error, or failed with one.  Every earlier event that
    shows the runner's own response shows it as created or in progress,
    so there is exactly one terminal event, and it carries the request
    and session id of the call. *)
Theorem stream_query_single_terminal_event w request :
  _health (runner w) = true →
  (∀ exc, ChatRequest_model_validate ext (chat_request_dict w request)
          ≠ ValidationCrash exc) →
  ∃ before r w',
    stream_query ext w request =
      (before ++ [{| sequence_number := length before;
                     payload_of := ResponseEvent r |}], inr w')
    ∧ (resp_status r = Completed ∧ resp_error r = None
       ∨ resp_status r = Failed ∧ is_Some (resp_error r))
    ∧ Forall (λ n, own_status n = None ∨ own_status n = Some Created
                   ∨ own_status n = Some InProgress) before
    ∧ resp_id r = request_id_of ext request
    ∧ resp_session_id r = session_id_of ext request.
Proof.
  intros Hhealth Hcrash. rewrite stream_query_cases. rewrite Hhealth.
  cbn [negb].
  assert (Forall (λ n, own_status n = None ∨ own_status n = Some Created
                       ∨ own_status n = Some InProgress)
                 (opening_events ext request)) as Hopening.
  { unfold opening_events.
    repeat (apply Forall_cons; split; [simpl; by auto|]). by apply Forall_nil. }
  destruct (negb (py_truthy (_extract_text_from_agent_request request))).
  { eexists (opening_events ext request), _, w.
    split; [reflexivity|].
    split; [right; split; [reflexivity|by eexists]|].
    split; [exact Hopening|]. split; reflexivity. }
  destruct ((resolve_conversation ext w request).1) as [exc|conv].
  { eexists (opening_events ext request), _, _.
    split; [reflexivity|].
    split; [right; split; [reflexivity|by eexists]|].
    split; [exact Hopening|]. split; reflexivity. }
  destruct (ChatRequest_model_validate ext (chat_request_dict w request))
    as [cr|text detail|exc] eqn:Hvalid.
  - set (adapted := adapted_stream ext _).
    set (collected := relay_response _ _).
    destruct (relay_response_fields (yielded adapted)
                (in_progress
                   (new_response (request_id_of ext request)
                      (session_id_of ext request))))
      as (Hid & Hsession & Hstatus & Herror & _).
    fold collected in Hid, Hsession, Hstatus, Herror.
    eexists (opening_events ext request ++ relay_events 2 (yielded adapted)),
      _, _.
    split.
    { rewrite <- app_assoc. do 4 f_equal.
      rewrite length_app, relay_events_length. reflexivity. }
    split.
    { destruct (escaped adapted); simpl; [right; eauto|].
      left. by rewrite Herror. }
    split.
    { apply Forall_app. split; [done|].
      eapply Forall_impl; [apply relay_events_adapted|]. simpl. auto. }
    destruct (escaped adapted); simpl; by rewrite Hid, Hsession.
  - eexists (opening_events ext request), _, _.
    split; [reflexivity|].
    split; [right; split; [reflexivity|by eexists]|].
    split; [exact Hopening|]. split; reflexivity.
  - by destruct (Hcrash exc).
Qed.

(** X3.  An exception of request validation that is not a
    validation error is not handled by [stream_query]: it leaves the
    generator after the created and in-progress events, and no failed
    or completed event is yielded. *)
Theorem validation_crash_escapes w request conv exc :
  _health (runner w) = true →
  py_truthy (_extract_text_from_agent_request request) = true →
  (resolve_conversation ext w request).1 = inr conv →
  ChatRequest_model_validate ext (chat_request_dict w request)
    = ValidationCrash exc →
  stream_query ext w request = (opening_events ext request, inl exc)
  ∧ Forall (λ n, own_status n = Some Created
                 ∨ own_status n = Some InProgress)
           (yielded (stream_query ext w request)).
Proof.
  intros Hhealth Htext Hconv Hvalid.
  rewrite stream_query_cases, Hhealth, Htext, Hconv, Hvalid. cbn [negb].
  split; [done|]. unfold yielded, opening_events. cbn [fst].
  repeat (apply Forall_cons; split; [simpl; by auto|]). by apply Forall_nil.
Qed.

(** X4.  When validation rejects the chat request,
    [stream_query] yields exactly three events, the last one its
    response as failed with code 422 and the text of the validation
    error after "ChatRequest validation failed: "; the backend's
    stream is not relayed. *)
Theorem validation_error_fails_with_422 w request conv text detail :
  _health (runner w) = true →
  py_truthy (_extract_text_from_agent_request request) = true →
  (resolve_conversation ext w request).1 = inr conv →
  ChatRequest_model_validate ext (chat_request_dict w request)
    = Invalid text detail →
  stream_query ext w request =
    (opening_events ext request
       ++ [early_failure ext request "422"
             ("ChatRequest validation failed: " +:+ text)],
     inr (resolve_conversation ext w request).2)
  ∧ own_status <$> yielded (stream_query ext w request)
    = [Some Created; Some InProgress; Some Failed].
Proof.
  intros Hhealth Htext Hconv Hvalid.
  rewrite stream_query_cases, Hhealth, Htext, Hconv, Hvalid. cbn [negb].
  done.
Qed.
End RunnerPaths.

Lemma stream_query_single_terminal_event_witness :
  let ext := sample_externals silent_backend in
  let request := sample_request (PStr "hi") in
  _health (runner sample_world) = true
  ∧ (∀ exc, ChatRequest_model_validate ext
              (chat_request_dict sample_world request) ≠ ValidationCrash exc)
  ∧ ∃ before r w',
      stream_query ext sample_world request =
        (before ++ [{| sequence_number := length before;
                       payload_of := ResponseEvent r |}], inr w')
      ∧ (resp_status r = Completed ∧ resp_error r = None
         ∨ resp_status r = Failed ∧ is_Some (resp_error r)).
Proof.
  intros ext request.
  assert (∀ exc, ChatRequest_model_validate ext
                   (chat_request_dict sample_world request)
                 ≠ ValidationCrash exc) as Hvalid
    by (intros exc; discriminate).
  split; [reflexivity|]. split; [exact Hvalid|].
  destruct (stream_query_single_terminal_event ext sample_world request
              eq_refl Hvalid)
    as (before & r & w' & Hout & Hstatus & _).
  exists before, r, w'. split; [exact Hout|exact Hstatus].
Defined.

Lemma validation_crash_escapes_witness :
  let crash := Exception "TypeError" "unhashable" in
  let ext :=
    with_validation (λ _, ValidationCrash crash)
      (sample_externals silent_backend) in
  let request := sample_request (PStr "hi") in
  _health (runner sample_world) = true
  ∧ py_truthy (_extract_text_from_agent_request request) = true
  ∧ escaped (stream_query ext sample_world request) = Some crash
  ∧ length (yielded (stream_query ext sample_world request)) = 2.
Proof.
  intros crash ext request.
  split; [reflexivity|]. split; [reflexivity|].
  destruct (validation_crash_escapes ext sample_world request 100%N crash
              eq_refl eq_refl ltac:(vm_compute; reflexivity) eq_refl)
    as [-> _].
  split; reflexivity.
Defined.

Lemma validation_error_fails_with_422_witness :
  let ext :=
    with_validation (λ _, Invalid "1 validation error" PNone)
      (sample_externals silent_backend) in
  let request := sample_request (PStr "hi") in
  _health (runner sample_world) = true
  ∧ py_truthy (_extract_text_from_agent_request request) = true
  ∧ own_status <$> yielded (stream_query ext sample_world request)
    = [Some Created; Some InProgress; Some Failed].
Proof.
  intros ext request.
  split; [reflexivity|]. split; [reflexivity|].
  exact (proj2 (validation_error_fails_with_422 ext sample_world request
                  100%N "1 validation error" PNone
                  eq_refl eq_refl ltac:(vm_compute; reflexivity) eq_refl)).
Defined.

(** ** Completed messages in a run of the adapter *)

Lemma occurrences_cons e e' es :
  occurrences e (e' :: es)
  = (if decide (e' = e) then 1 else 0) + occurrences e es.
Proof.
  unfold occurrences. rewrite filter_cons. by case_decide.
Qed.

Lemma occurrences_elem e es : e ∈ es → (1 ≤ occurrences e es)%nat.
Proof.
  intros Hin. unfold occurrences.
  assert (e ∈ filter (λ e', e' = e) es) as Hf
    by by apply list_elem_of_filter.
  destruct (filter (λ e', e' = e) es); [by apply elem_of_nil in Hf|].
  simpl. lia.
Qed.

Lemma completed_once_nodup es :
  (∀ k, (occurrences (MessageCompleted k) es ≤ 1)%nat) →
  NoDup (omap completed_message es).
Proof.
  induction es as [|e es IH]; intros Hmost; [constructor|].
  assert (∀ k, (occurrences (MessageCompleted k) es ≤ 1)%nat) as Hrest.
  { intros k. specialize (Hmost k). rewrite occurrences_cons in Hmost. lia. }
  destruct e as [| | |k r t|k d|k t|k d|k|k]; simpl; try by apply IH.
  constructor; [|by apply IH].
  intros (e & He & Hin)%list_elem_of_omap.
  destruct e; simplify_eq/=.
  apply occurrences_elem in He.
  specialize (Hmost k). rewrite occurrences_cons in Hmost.
  rewrite decide_True in Hmost by done. lia.
Qed.

Section CompletedOnce.
Variables cbr mbr : string → option exn.
Variable js : pyval → string.
Variable ex : string → pyval.

(** In a run that returns, no message is completed twice. *)
Lemma adapt_message_completed_once src k :
  escaped (adapt_alias_message_stream cbr mbr js ex src) = None →
  (occurrences (MessageCompleted k)
     (yielded (adapt_alias_message_stream cbr mbr js ex src)) ≤ 1)%nat.
Proof.
  intros Hret.
  destruct (process_chunks cbr mbr js ex (chunks src) initial_vars)
    as [es [x|v]] eqn:Hrun.
  { rewrite adapt_cases, Hrun in Hret. by destruct (failure src). }
  destruct (failure src) as [x|] eqn:Hfail.
  { by rewrite adapt_cases, Hrun, Hfail in Hret. }
  destruct (stream_phase_tracked _ _ _ _ _ _ _ Hrun) as (Htr & _ & _).
  pose proof (tracked_nodup _ _ Htr) as Hnd.
  assert (NoDup (open_keys v)) as Hndo by by apply NoDup_filter.
  rewrite (adapt_returned _ _ _ _ _ _ _ Hfail Hrun Hnd).
  unfold yielded. cbn [fst].
  rewrite !occurrences_app, (tracked_message _ _ Htr).
  rewrite (attempts_count _ _ _ k) by done.
  rewrite attempt_message_count.
  unfold occurrences. rewrite !filter_cons, !filter_nil.
  repeat case_decide; simplify_eq; simpl;
    try (unfold closed_count; case_decide; lia).
  assert (closed_count v k = 0) as ->.
  { apply closed_count_open.
    by destruct (proj1 (list_elem_of_filter _ _ _) H1). }
  destruct (cbr k), (mbr k); lia.
Qed.
End CompletedOnce.

Lemma relay_response_usage es : ∀ r,
  resp_usage_from (relay_response es r) = resp_usage_from r.
Proof.
  unfold relay_response.
  induction es as [|e es IH]; intros r; [done|]. simpl.
  rewrite IH. by destruct (completed_message e).
Qed.

Section RunnerResults.
Variable ext : Externals.

(** X5.  When the adapted backend stream ends without an
    exception, the last event of [stream_query] is the response as
    completed; its output lists the completed messages of the adapter's
    stream, each once and in the order of their completion, and its
    usage is taken from the last of them. *)
Theorem completed_response_lists_messages w request conv cr :
  _health (runner w) = true →
  py_truthy (_extract_text_from_agent_request request) = true →
  (resolve_conversation ext w request).1 = inr conv →
  ChatRequest_model_validate ext (chat_request_dict w request) = Valid cr →
  let adapted :=
    adapted_stream ext
      (query_handler ext (user_uuid_of ext request) conv cr
         (task_id_of ext request)) in
  escaped adapted = None →
  ∃ before r,
    yielded (stream_query ext w request) =
      before ++ [{| sequence_number := length before;
                    payload_of := ResponseEvent r |}]
    ∧ escaped (stream_query ext w request) = None
    ∧ resp_status r = Completed
    ∧ resp_error r = None
    ∧ resp_output r = omap completed_message (yielded adapted)
    ∧ NoDup (resp_output r)
    ∧ resp_usage_from r = last (resp_output r).
Proof.
  intros Hhealth Htext Hconv Hvalid adapted Hret.
  rewrite stream_query_cases, Hhealth, Htext, Hconv, Hvalid. cbn [negb].
  fold adapted. rewrite Hret.
  set (collected := relay_response _ _).
  destruct (relay_response_fields (yielded adapted)
              (in_progress
                 (new_response (request_id_of ext request)
                    (session_id_of ext request))))
    as (_ & _ & _ & Herror & Houtput).
  fold collected in Herror, Houtput. simpl in Herror, Houtput.
  pose proof (relay_response_usage (yielded adapted)
                (in_progress
                   (new_response (request_id_of ext request)
                      (session_id_of ext request)))) as Husage.
  fold collected in Husage. simpl in Husage.
  eexists (opening_events ext request ++ relay_events 2 (yielded adapted)),
    _.
  split.
  { unfold yielded at 1. cbn [fst]. rewrite <- app_assoc. do 4 f_equal.
    rewrite length_app, relay_events_length. reflexivity. }
  split; [done|]. split; [done|]. split; [done|].
  split; [exact Houtput|]. split.
  - simpl. rewrite Houtput. apply completed_once_nodup. intros k.
    subst adapted. unfold adapted_stream in *.
    destruct (query_handler ext (user_uuid_of ext request) conv cr
                (task_id_of ext request)) as [x|src]; [done|].
    by apply adapt_message_completed_once.
  - simpl. rewrite Husage. by destruct (last (resp_output collected)).
Qed.

(** X6.  When the request names no usable conversation, the
    session has no cached one and the conversation service raises,
    [stream_query] yields exactly three events, the last one its
    response as failed with code 500 and the text of the exception after
    "Failed to create conversation: ".  The service has been called
    once and the cache is as it was, so the next request of the session
    tries again. *)
Theorem creation_failure_fails_with_500 w request exc :
  _health (runner w) = true →
  py_truthy (_extract_text_from_agent_request request) = true →
  _to_uuid ext (req_conversation_id request) = None →
  _session_conv_cache (runner w) !! session_id_of ext request = None →
  create_conversation ext (length (created_conversations w)) = inl exc →
  ∃ w',
    stream_query ext w request =
      (opening_events ext request
         ++ [early_failure ext request "500"
               ("Failed to create conversation: " +:+ exn_str ext exc)],
       inr w')
    ∧ runner w' = runner w
    ∧ created_conversations w' =
        created_conversations w
        ++ [(user_uuid_of ext request, default_conv_name (runner w))].
Proof.
  intros Hhealth Htext Hid Hmiss Hfail.
  rewrite stream_query_cases, Hhealth, Htext. cbn [negb].
  unfold resolve_conversation. rewrite Hid, get_or_create_cases, Hmiss, Hfail.
  cbn [fst snd]. by eexists.
Qed.

(** Calls that run one after another, each to its end, keep the
    entry of a resolved session. *)
Lemma resolve_in_turn_keeps_entry calls : ∀ w session_id conv,
  _session_conv_cache (runner w) !! session_id = Some conv →
  _session_conv_cache (runner (resolve_in_turn ext calls w)) !! session_id
  = Some conv.
Proof.
  induction calls as [|[s u] calls IH]; intros w session_id conv Hc; [done|].
  unfold resolve_in_turn. cbn [foldl fst snd]. apply IH.
  rewrite get_or_create_cases.
  destruct (_session_conv_cache (runner w) !! s) as [c|] eqn:Hs; [done|].
  assert (s ≠ session_id) as Hne by congruence.
  destruct (create_conversation ext (length (created_conversations w)))
    as [x|conversation]; [done|].
  destruct (match conv_id conversation with
            | IdUUID u => Some u
            | IdOther s => _to_uuid ext s
            end) as [c|]; [|done].
  simpl. by rewrite lookup_insert_ne.
Qed.

(** X7.  After a successful resolution the cache holds the
    returned conversation for the session.  A later call that finds
    this entry as the resolution left it returns the same conversation
    without calling the conversation service and without changing
    anything, for whatever user and whatever else has changed in the
    cache or in the service.  Calls that run one after another, each to
    its end, leave the entry as it is, so after any number of them, for
    any sessions and users, the session still resolves to the same
    conversation.  The entry itself is not protected: a first
    resolution still in flight overwrites it when it ends. *)
Theorem resolved_conversation_is_reused session_id user1 w conv w' :
  _get_or_create_conversation_id ext session_id user1 w = (inr conv, w') →
  _session_conv_cache (runner w') !! session_id = Some conv
  ∧ (∀ w'' user2,
       _session_conv_cache (runner w'') !! session_id
         = _session_conv_cache (runner w') !! session_id →
       _get_or_create_conversation_id ext session_id user2 w''
         = (inr conv, w''))
  ∧ (∀ calls user2,
       _get_or_create_conversation_id ext session_id user2
         (resolve_in_turn ext calls w')
       = (inr conv, resolve_in_turn ext calls w')).
Proof.
  rewrite get_or_create_cases. intros Hfirst.
  assert (_session_conv_cache (runner w') !! session_id = Some conv) as Hc.
  { destruct (_session_conv_cache (runner w) !! session_id) as [c|] eqn:Hc.
    { injection Hfirst as <- <-. done. }
    destruct (create_conversation ext (length (created_conversations w)))
      as [x|conversation]; [done|].
    destruct (match conv_id conversation with
              | IdUUID u => Some u
              | IdOther s => _to_uuid ext s
              end) as [c|]; [|done].
    injection Hfirst as <- <-. simpl. by rewrite lookup_insert_eq. }
  split; [done|]. split.
  - intros w'' user2 Hentry. by rewrite get_or_create_cases, Hentry, Hc.
  - intros calls user2.
    by rewrite get_or_create_cases, (resolve_in_turn_keeps_entry _ _ _ _ Hc).
Qed.

(** X8.  A resolution that runs without another one in between
    touches nothing but the cache entry of its own session: the entries of other sessions and the runner's
    settings stay as they are.  It calls the conversation service at
    most once, and exactly when its session has no entry.  Its own
    entry is the returned conversation after a success, and still
    absent after a failure. *)
Theorem resolution_changes_only_its_session session_id user_uuid w r w' :
  _get_or_create_conversation_id ext session_id user_uuid w = (r, w') →
  (∀ other, other ≠ session_id →
     _session_conv_cache (runner w') !! other
     = _session_conv_cache (runner w) !! other)
  ∧ _health (runner w') = _health (runner w)
  ∧ default_chat_mode (runner w') = default_chat_mode (runner w)
  ∧ default_conv_name (runner w') = default_conv_name (runner w)
  ∧ _session_conv_cache (runner w') !! session_id
    = match r with
      | inr conv => Some conv
      | inl _ => None
      end
  ∧ created_conversations w' =
      created_conversations w
      ++ match _session_conv_cache (runner w) !! session_id with
         | Some _ => []
         | None => [(user_uuid, default_conv_name (runner w))]
         end.
Proof.
  rewrite get_or_create_cases.
  destruct (_session_conv_cache (runner w) !! session_id) as [c|] eqn:Hc.
  { intros [= <- <-]. by rewrite app_nil_r. }
  destruct (create_conversation ext (length (created_conversations w)))
    as [x|conversation].
  { by intros [= <- <-]. }
  destruct (match conv_id conversation with
            | IdUUID u => Some u
            | IdOther s => _to_uuid ext s
            end) as [c|]; intros [= <- <-]; [|done].
  simpl. rewrite lookup_insert_eq.
  repeat split; try done.
  intros other Hother. by rewrite lookup_insert_ne.
Qed.

(** X9.  A request that carries a usable conversation id is
    served without the conversation cache and the conversation service:
    the world is returned as it was, and the events do not depend on
    what the cache holds or on which conversations were created
    before. *)
Theorem explicit_conversation_ignores_cache w1 w2 request conv :
  _to_uuid ext (req_conversation_id request) = Some conv →
  _health (runner w1) = _health (runner w2) →
  default_chat_mode (runner w1) = default_chat_mode (runner w2) →
  yielded (stream_query ext w1 request) = yielded (stream_query ext w2 request)
  ∧ escaped (stream_query ext w1 request)
    = escaped (stream_query ext w2 request)
  ∧ ∀ w', (stream_query ext w1 request).2 = inr w' → w' = w1.
Proof.
  intros Hid Hhealth Hmode.
  assert (chat_request_dict w1 request = chat_request_dict w2 request)
    as Hdict by (unfold chat_request_dict; by rewrite Hmode).
  rewrite !stream_query_cases. unfold resolve_conversation.
  rewrite Hid, Hhealth, Hdict. cbn [fst snd].
  destruct (negb (_health (runner w2))); [done|].
  destruct (negb (py_truthy (_extract_text_from_agent_request request))).
  { repeat split; try done. by intros w' [= <-]. }
  destruct (ChatRequest_model_validate ext (chat_request_dict w2 request))
    as [cr|text detail|x]; repeat split; try done; by intros w' [= <-].
Qed.
End RunnerResults.

Lemma completed_response_lists_messages_witness :
  let src :=
    {| chunks := [DataChunk (Some [text_item "a" (Some "finished") "x";
                                   text_item "b" None "y"])];
       failure := None |} in
  let ext := sample_externals (inr src) in
  let request := sample_request (PStr "hi") in
  _health (runner sample_world) = true
  ∧ py_truthy (_extract_text_from_agent_request request) = true
  ∧ ∃ before r,
      yielded (stream_query ext sample_world request) =
        before ++ [{| sequence_number := length before;
                      payload_of := ResponseEvent r |}]
      ∧ resp_status r = Completed
      ∧ resp_output r = ["a_message"; "b_message"]
      ∧ resp_usage_from r = Some "b_message".
Proof.
  intros src ext request.
  split; [reflexivity|]. split; [reflexivity|].
  destruct (completed_response_lists_messages ext sample_world request
              100%N {| query := "hi"; chat_mode := "general" |}
              eq_refl eq_refl ltac:(vm_compute; reflexivity) eq_refl
              ltac:(vm_compute; reflexivity))
    as (before & r & Hout & _ & Hstatus & _ & Houtput & _ & Husage).
  exists before, r. split; [exact Hout|]. split; [exact Hstatus|].
  split; [exact Houtput|]. rewrite Husage, Houtput. reflexivity.
Defined.

Lemma creation_failure_fails_with_500_witness :
  let down := Exception "OperationalError" "database is down" in
  let ext := with_creation (λ _, inl down) (sample_externals silent_backend) in
  let request := sample_request (PStr "hi") in
  _health (runner sample_world) = true
  ∧ py_truthy (_extract_text_from_agent_request request) = true
  ∧ _session_conv_cache (runner sample_world) !! session_id_of ext request
    = None
  ∧ ∃ w',
      stream_query ext sample_world request =
        (opening_events ext request
           ++ [early_failure ext request "500"
                 "Failed to create conversation: database is down"],
         inr w')
      ∧ runner w' = runner sample_world.
Proof.
  intros down ext request.
  split; [reflexivity|]. split; [reflexivity|]. split; [reflexivity|].
  destruct (creation_failure_fails_with_500 ext sample_world request down
              eq_refl eq_refl eq_refl eq_refl eq_refl)
    as (w' & Hout & Hrunner & _).
  exists w'. split; [exact Hout|exact Hrunner].
Defined.

Lemma resolved_conversation_is_reused_witness :
  let ext := sample_externals silent_backend in
  let w' := cache_store "s1" 100%N (call_create 1%N sample_world) in
  let w'' := cache_store "s2" 7%N (call_create 3%N w') in
  let later := resolve_in_turn ext [("s2", 3%N); ("s1", 4%N); ("s3", 5%N)] w' in
  _get_or_create_conversation_id ext "s1" 1%N sample_world = (inr 100%N, w')
  ∧ _get_or_create_conversation_id ext "s1" 2%N w'' = (inr 100%N, w'')
  ∧ _get_or_create_conversation_id ext "s1" 2%N later = (inr 100%N, later)
  ∧ length (created_conversations later) = 3.
Proof.
  intros ext w' w'' later.
  assert (_get_or_create_conversation_id ext "s1" 1%N sample_world
          = (inr 100%N, w')) as Hfirst by reflexivity.
  destruct (resolved_conversation_is_reused ext "s1" 1%N sample_world
              100%N w' Hfirst) as (_ & Hentry & Hturn).
  split; [exact Hfirst|].
  split; [apply Hentry; vm_compute; reflexivity|].
  split; [exact (Hturn _ 2%N)|vm_compute; reflexivity].
Defined.

Lemma resolution_changes_only_its_session_witness :
  let ext := sample_externals silent_backend in
  let w := cache_store "s0" 7%N sample_world in
  let w' := cache_store "s1" 100%N (call_create 1%N w) in
  _get_or_create_conversation_id ext "s1" 1%N w = (inr 100%N, w')
  ∧ _session_conv_cache (runner w') !! "s0" = Some 7%N
  ∧ _session_conv_cache (runner w') !! "s1" = Some 100%N
  ∧ created_conversations w' = [(1%N, "webui")].
Proof.
  intros ext w w'.
  assert (_get_or_create_conversation_id ext "s1" 1%N w = (inr 100%N, w'))
    as Hcall by (vm_compute; reflexivity).
  split; [exact Hcall|].
  destruct (resolution_changes_only_its_session ext "s1" 1%N w _ w' Hcall)
    as (Hother & _ & _ & _ & Hown & Hcreated).
  split; [|split; [exact Hown|exact Hcreated]].
  etrans; [exact (Hother "s0" ltac:(discriminate))|reflexivity].
Defined.

Lemma explicit_conversation_ignores_cache_witness :
  let ext :=
    with_uuid_parse (λ s, if String.eqb s "c-9" then Some 9%N else None)
      (sample_externals silent_backend) in
  let request :=
    {| req_id := None; req_session_id := Some "s1"; req_input := PStr "hi";
       req_user_id := None; req_conversation_id := Some "c-9";
       req_task_id := None; req_chat_mode := None |} in
  let w2 := cache_store "s1" 5%N sample_world in
  _to_uuid ext (req_conversation_id request) = Some 9%N
  ∧ yielded (stream_query ext sample_world request)
    = yielded (stream_query ext w2 request)
  ∧ (stream_query ext sample_world request).2 = inr sample_world.
Proof.
  intros ext request w2.
  split; [reflexivity|].
  destruct (explicit_conversation_ignores_cache ext sample_world w2 request
              9%N eq_refl eq_refl eq_refl)
    as (Hsame & _ & Hworld).
  split; [exact Hsame|].
  destruct ((stream_query ext sample_world request).2) as [x|w'] eqn:Hres.
  - vm_compute in Hres. discriminate Hres.
  - f_equal. by apply Hworld.
Defined.

(** ** Text extraction *)

Lemma last_text_block_skips l rest :
  Forall (λ b, is_text_block b = false) l →
  last_text_block (l ++ rest) = last_text_block rest.
Proof.
  induction 1 as [|b l Hb _ IH]; [done|]. simpl.
  destruct b as [| | | | |d]; try exact IH.
  simpl in Hb. by rewrite Hb.
Qed.

(** X10.  When the input of a request is a list of turns and
    the content of the last turn is a list of blocks, the extracted text
    is decided by the last block of type text alone: it is that block's
    text, or the empty string when the text is missing or falsy.  Earlier
    turns, the other blocks and the turn's own text field play no
    part. *)
Theorem last_text_block_decides request turns last_turn before blk after :
  req_input request = PList (turns ++ [PDict last_turn]) →
  dict_get last_turn "content" = PList (before ++ PDict blk :: after) →
  is_text_block (PDict blk) = true →
  Forall (λ b, is_text_block b = false) after →
  _extract_text_from_agent_request request =
    if py_truthy (dict_get blk "text") then dict_get blk "text" else PStr "".
Proof.
  intros Hinput Hcontent Hblk Hafter.
  unfold _extract_text_from_agent_request.
  rewrite Hinput, last_snoc, Hcontent.
  rewrite reverse_app, reverse_cons, <- app_assoc.
  rewrite last_text_block_skips by by apply Forall_reverse.
  simpl in *. by rewrite Hblk.
Qed.

Lemma last_text_block_decides_witness :
  let blocks :=
    [PDict [("type", PStr "text"); ("text", PStr "first")];
     PDict [("type", PStr "text"); ("text", PStr "")];
     PDict [("type", PStr "image"); ("url", PStr "u")]] in
  let last_turn := [("content", PList blocks); ("text", PStr "fallback")] in
  let request :=
    sample_request
      (PList [PDict [("content", PStr "earlier")]; PDict last_turn]) in
  _extract_text_from_agent_request request = PStr "".
Proof.
  intros blocks last_turn request.
  exact (last_text_block_decides request
           [PDict [("content", PStr "earlier")]] last_turn
           [PDict [("type", PStr "text"); ("text", PStr "first")]]
           [("type", PStr "text"); ("text", PStr "")]
           [PDict [("type", PStr "image"); ("url", PStr "u")]]
           eq_refl eq_refl eq_refl
           ltac:(repeat constructor)).
Defined.

(** ** The native path in closed form *)

Section NativePaths.
Variable ext : Externals.

Lemma event_generator_cases w request kwargs :
  event_generator ext w request kwargs =
    if negb (_health (runner w)) then
      ([SseData (NativeDict [("code", PInt 500);
                             ("message", PStr (exn_str ext not_started))]);
        SseDone], inr tt)
    else
      match kw_or ext (kw_user_id kwargs) (nreq_user_id request),
            kw_or ext (kw_conversation_id kwargs)
              (nreq_conversation_id request) with
      | Some user, Some conv =>
          match ChatRequest_model_validate ext (nreq_dict request) with
          | Valid cr =>
              match query_handler ext user conv cr
                      (default (uuid4_task ext)
                         (kw_or ext (kw_task_id kwargs)
                            (nreq_task_id request))) with
              | inl exc => ([SseData (native_error_chunk ext exc)], inr tt)
              | inr src =>
                  ((SseData ∘ NativeRaw <$> chunks src)
                     ++ match failure src with
                        | Some exc => [SseData (native_error_chunk ext exc)]
                        | None => [SseDone]
                        end,
                   inr tt)
              end
          | v => ([SseData (invalid_request_chunk ext v)], inr tt)
          end
      | _, _ => ([SseData missing_context_chunk], inr tt)
      end.
Proof.
  unfold event_generator, stream_query_native.
  destruct (negb (_health (runner w))); [done|].
  destruct (kw_or ext (kw_user_id kwargs) (nreq_user_id request))
    as [user|]; [|done].
  destruct (kw_or ext (kw_conversation_id kwargs)
              (nreq_conversation_id request)) as [conv|]; [|done].
  destruct (ChatRequest_model_validate ext (nreq_dict request))
    as [cr|text detail|exc]; [|done|done].
  unfold relay_native.
  destruct (query_handler ext user conv cr _) as [exc|src].
  { by destruct exc. }
  destruct (failure src) as [exc|]; [destruct exc|]; simpl;
    unfold try_except, mbind, Gen_bind, gen_bind, yield; simpl;
    rewrite ?app_nil_r, fmap_app, <- list_fmap_compose; done.
Qed.
End NativePaths.

(** ** Properties of the native path *)

Section NativeProperties.
Variable ext : Externals.

(** X12.  On a started runner the native path answers with the
    single missing_context dictionary exactly when no user id or no
    conversation id can be had from the keyword arguments or, failing
    those, from the request body.  The backend is not reached in that
    case, and a caller that passes both ids as keyword arguments never
    gets this answer. *)
Theorem missing_context_iff w request kwargs :
  _health (runner w) = true →
  event_generator ext w request kwargs
    = ([SseData missing_context_chunk], inr tt)
  ↔ kw_or ext (kw_user_id kwargs) (nreq_user_id request) = None
    ∨ kw_or ext (kw_conversation_id kwargs) (nreq_conversation_id request)
      = None.
Proof.
  intros Hhealth. rewrite event_generator_cases, Hhealth. cbn [negb].
  destruct (kw_or ext (kw_user_id kwargs) (nreq_user_id request))
    as [user|]; [|by split; [left|]].
  destruct (kw_or ext (kw_conversation_id kwargs)
              (nreq_conversation_id request)) as [conv|];
    [|by split; [right|]].
  split; [|by intros [|]].
  destruct (ChatRequest_model_validate ext (nreq_dict request))
    as [cr|text detail|exc]; [|done|done].
  destruct (query_handler ext user conv cr _) as [exc|src].
  { by destruct exc. }
  destruct (chunks src) as [|c cs]; [|by destruct cs].
  destruct (failure src) as [[]|]; done.
Qed.
End NativeProperties.

Lemma missing_context_iff_witness :
  let ext := sample_externals silent_backend in
  let request :=
    {| nreq_user_id := Some "not-a-uuid"; nreq_conversation_id := None;
       nreq_task_id := None; nreq_dict := PDict [("query", PStr "hi")] |} in
  let kwargs :=
    {| kw_user_id := None; kw_conversation_id := Some 2%N;
       kw_task_id := None |} in
  _health (runner sample_world) = true
  ∧ event_generator ext sample_world request kwargs
    = ([SseData missing_context_chunk], inr tt).
Proof.
  intros ext request kwargs.
  split; [reflexivity|].
  apply (proj2 (missing_context_iff ext sample_world request kwargs eq_refl)).
  left. reflexivity.
Defined.

(** ** The SSE relay when a chunk does not serialise *)

Section SseRelay.
Variable frame_raises : NativeChunk → option exn.
Variable ext : Externals.

Lemma stream_query_native_cases w request kwargs :
  stream_query_native ext w request kwargs =
    if negb (_health (runner w)) then ([], inl not_started)
    else
      match kw_or ext (kw_user_id kwargs) (nreq_user_id request),
            kw_or ext (kw_conversation_id kwargs)
              (nreq_conversation_id request) with
      | Some user, Some conv =>
          match ChatRequest_model_validate ext (nreq_dict request) with
          | Valid cr =>
              match query_handler ext user conv cr
                      (default (uuid4_task ext)
                         (kw_or ext (kw_task_id kwargs)
                            (nreq_task_id request))) with
              | inl exc => ([native_error_chunk ext exc], inr tt)
              | inr src =>
                  ((NativeRaw <$> chunks src)
                     ++ [match failure src with
                         | Some exc => native_error_chunk ext exc
                         | None => NativeStr DONE
                         end],
                   inr tt)
              end
          | v => ([invalid_request_chunk ext v], inr tt)
          end
      | _, _ => ([missing_context_chunk], inr tt)
      end.
Proof.
  unfold stream_query_native.
  destruct (negb (_health (runner w))); [done|].
  destruct (kw_or ext (kw_user_id kwargs) (nreq_user_id request))
    as [user|]; [|done].
  destruct (kw_or ext (kw_conversation_id kwargs)
              (nreq_conversation_id request)) as [conv|]; [|done].
  destruct (ChatRequest_model_validate ext (nreq_dict request))
    as [cr|text detail|exc]; [|done|done].
  unfold relay_native.
  destruct (query_handler ext user conv cr _) as [exc|src].
  { by destruct exc. }
  destruct (failure src) as [exc|]; [destruct exc|]; simpl;
    unfold try_except, mbind, Gen_bind, gen_bind, yield; simpl;
    by rewrite ?app_nil_r.
Qed.

Lemma relay_frames_cons chunk l ending :
  ChatRuntime.relay_frames frame_raises (chunk :: l) ending =
    match ChatRuntime._to_raw_sse_event frame_raises chunk with
    | inl x => ([], inl x)
    | inr frame =>
        (frame :: (ChatRuntime.relay_frames frame_raises l ending).1,
         (ChatRuntime.relay_frames frame_raises l ending).2)
    end.
Proof.
  cbn [ChatRuntime.relay_frames]. unfold ChatRuntime.yield_frame.
  destruct (ChatRuntime._to_raw_sse_event frame_raises chunk); [done|].
  unfold mbind, Gen_bind, gen_bind, yield. cbn.
  by destruct (ChatRuntime.relay_frames frame_raises l ending) as [? []].
Qed.

Lemma to_raw_sse_event_raw c :
  ChatRuntime._to_raw_sse_event frame_raises (NativeRaw c) =
    match frame_raises (NativeRaw c) with
    | Some x => inl x
    | None => inr (SseData (NativeRaw c))
    end.
Proof. done. Qed.

(** The loop over backend chunks: all of them are framed, or the
    frames stop before the first one that does not serialise and its
    exception is raised. *)
Lemma relay_frames_raw cs : ∀ rest ending,
  (Forall (λ c, frame_raises (NativeRaw c) = None) cs
   ∧ ChatRuntime.relay_frames frame_raises ((NativeRaw <$> cs) ++ rest)
       ending
     = ((SseData ∘ NativeRaw <$> cs)
          ++ (ChatRuntime.relay_frames frame_raises rest ending).1,
        (ChatRuntime.relay_frames frame_raises rest ending).2))
  ∨ ∃ before c after x,
      cs = before ++ c :: after
      ∧ Forall (λ c, frame_raises (NativeRaw c) = None) before
      ∧ frame_raises (NativeRaw c) = Some x
      ∧ ChatRuntime.relay_frames frame_raises ((NativeRaw <$> cs) ++ rest)
          ending
        = (SseData ∘ NativeRaw <$> before, inl x).
Proof.
  induction cs as [|c cs IH]; intros rest ending.
  { left. split; [constructor|]. simpl.
    by destruct (ChatRuntime.relay_frames frame_raises rest ending). }
  rewrite fmap_cons, <- app_comm_cons, relay_frames_cons,
    to_raw_sse_event_raw.
  destruct (frame_raises (NativeRaw c)) as [x|] eqn:Hc.
  { right. exists [], c, cs, x. by repeat split. }
  destruct (IH rest ending)
    as [[Hall Heq]|(before & c' & after & x & -> & Hall & Hc' & Heq)];
    rewrite Heq.
  - left. split; [by constructor|]. done.
  - right. exists (c :: before), c', after, x.
    split; [done|]. split; [by constructor|]. by split.
Qed.

(** When every chunk serialises, the relay is the one of
    [event_generator] above. *)
Lemma relay_frames_serialising chunks ending :
  (∀ c, frame_raises c = None) →
  ChatRuntime.relay_frames frame_raises chunks ending
    = (_to_raw_sse_event <$> chunks, ending).
Proof.
  intros Hok. induction chunks as [|chunk rest IH].
  { simpl. by destruct ending as [x|[]]. }
  rewrite relay_frames_cons, IH.
  assert (ChatRuntime._to_raw_sse_event frame_raises chunk
            = inr (_to_raw_sse_event chunk)) as ->; [|done].
  destruct chunk as [c|d|s]; simpl; rewrite ?Hok; [done| |done].
  by destruct (ChatRuntime.scalar_fields d).
Qed.

Lemma event_generator_serialising w request kwargs :
  (∀ c, frame_raises c = None) →
  ChatRuntime.event_generator frame_raises ext w request kwargs
    = event_generator ext w request kwargs.
Proof.
  intros Hok. unfold ChatRuntime.event_generator, event_generator.
  cbv zeta. rewrite relay_frames_serialising by done.
  unfold ChatRuntime.yield_frame, ChatRuntime.error_data.
  destruct (stream_query_native ext w request kwargs) as [es [x|[]]];
    [|done].
  by destruct x.
Qed.

(** What the handler of lines 88-96 yields. *)
Lemma handler_frames x :
  (ChatRuntime.yield_frame frame_raises
     (NativeDict (ChatRuntime.error_data ext x)) ;;
   ChatRuntime.yield_frame frame_raises (NativeStr DONE))
  = ([SseData (NativeDict (ChatRuntime.error_data ext x)); SseDone],
     inr tt).
Proof. by destruct x. Qed.

Lemma relay_handled es x :
  try_except (es, inl x)
    (λ e, ChatRuntime.yield_frame frame_raises
            (NativeDict (ChatRuntime.error_data ext e)) ;;
          ChatRuntime.yield_frame frame_raises (NativeStr DONE))
  = (es ++ [SseData (NativeDict (ChatRuntime.error_data ext x)); SseDone],
     inr tt).
Proof.
  unfold try_except. cbn [fst snd]. cbv zeta. by rewrite handler_frames.
Qed.

(** X11.  [event_generator] never lets an exception reach the
    streaming response.  The frames it produces are frames of backend
    chunks followed by one of these endings: the terminator alone; one
    error dictionary without terminator, on a started runner; an error
    dictionary and the terminator, either with no chunk before them
    when the runner was not started, or, on a started runner, in place
    of a chunk that cannot be turned into text and of all that would
    follow it. *)
Theorem event_generator_endings w request kwargs :
  let out := ChatRuntime.event_generator frame_raises ext w request kwargs in
  escaped out = None
  ∧ ∃ cs tail,
      yielded out = (SseData ∘ NativeRaw <$> cs) ++ tail
      ∧ Forall (λ c, frame_raises (NativeRaw c) = None) cs
      ∧ ((tail = [SseDone] ∧ _health (runner w) = true)
         ∨ (∃ d, tail = [SseData (NativeDict d)]
                 ∧ _health (runner w) = true)
         ∨ (∃ x, tail = [SseData (NativeDict (ChatRuntime.error_data ext x));
                         SseDone]
                 ∧ (cs = [] ∧ _health (runner w) = false
                    ∨ _health (runner w) = true
                      ∧ ∃ c, ChatRuntime.always_serialises c = false
                             ∧ frame_raises c = Some x))).
Proof.
  intros out. unfold out, ChatRuntime.event_generator.
  rewrite stream_query_native_cases.
  destruct (_health (runner w)); cbn [negb].
  2:{ cbn [fst snd ChatRuntime.relay_frames]. unfold raise.
      rewrite relay_handled.
      split; [done|]. eexists [], _. split; [reflexivity|].
      split; [constructor|]. right; right. eexists. split; [done|]. by left. }
  assert (∀ d : list (string * pyval),
            let out := try_except
                         (ChatRuntime.relay_frames frame_raises
                            [NativeDict d] (inr tt))
                         (λ e, ChatRuntime.yield_frame frame_raises
                                 (NativeDict (ChatRuntime.error_data ext e)) ;;
                               ChatRuntime.yield_frame frame_raises
                                 (NativeStr DONE)) in
            escaped out = None
            ∧ ∃ cs tail,
                yielded out = (SseData ∘ NativeRaw <$> cs) ++ tail
                ∧ Forall (λ c, frame_raises (NativeRaw c) = None) cs
                ∧ ((tail = [SseDone] ∧ true = true)
                   ∨ (∃ d, tail = [SseData (NativeDict d)] ∧ true = true)
                   ∨ (∃ x, tail = [SseData (NativeDict
                                              (ChatRuntime.error_data ext x));
                                   SseDone]
                           ∧ (cs = [] ∧ true = false
                              ∨ true = true
                                ∧ ∃ c, ChatRuntime.always_serialises c = false
                                       ∧ frame_raises c = Some x))))
    as Hdict.
  { intros d. rewrite relay_frames_cons.
    unfold ChatRuntime._to_raw_sse_event. cbn [ChatRuntime.relay_frames].
    destruct (ChatRuntime.always_serialises (NativeDict d)) eqn:Hs;
      [|destruct (frame_raises (NativeDict d)) as [x|] eqn:Hx].
    - split; [done|]. eexists [], _. split; [reflexivity|].
      split; [constructor|]. right; left. by eexists.
    - rewrite relay_handled.
      split; [done|]. eexists [], _. split; [reflexivity|].
      split; [constructor|]. right; right. exists x. split; [done|].
      right. split; [done|]. by exists (NativeDict d).
    - split; [done|]. eexists [], _. split; [reflexivity|].
      split; [constructor|]. right; left. by eexists. }
  destruct (kw_or ext (kw_user_id kwargs) (nreq_user_id request))
    as [user|]; [|apply Hdict].
  destruct (kw_or ext (kw_conversation_id kwargs)
              (nreq_conversation_id request)) as [conv|]; [|apply Hdict].
  destruct (ChatRequest_model_validate ext (nreq_dict request))
    as [cr|text detail|exc]; [|apply Hdict|apply Hdict].
  destruct (query_handler ext user conv cr _) as [exc|src];
    [destruct exc; apply Hdict|].
  cbn [fst snd].
  destruct (relay_frames_raw (chunks src)
              [match failure src with
               | Some exc => native_error_chunk ext exc
               | None => NativeStr DONE
               end] (inr tt))
    as [[Hall ->]|(before & c & after & x & Hcs & Hall & Hc & ->)].
  - destruct (failure src) as [[]|]; (split; [done|]);
      eexists (chunks src), _; (split; [reflexivity|]); (split; [done|]).
    + right; left. by eexists.
    + right; left. by eexists.
    + by left.
  - rewrite relay_handled.
    split; [done|]. eexists before, _. split; [reflexivity|].
    split; [done|]. right; right. exists x. split; [done|].
    right. split; [done|]. by exists (NativeRaw c).
Qed.
End SseRelay.

(** The last ending at work: the second of three backend chunks has no
    JSON text; the client receives the first chunk, the error dictionary
    and the terminator, and the third chunk is never asked for. *)
Lemma unserialisable_chunk_is_replaced :
  let backend : exn + SourceStream :=
    inr {| chunks := [DataChunk None; NotAData; DataChunk None];
           failure := None |} in
  let frame_raises := λ c : NativeChunk,
    match c with
    | NativeRaw NotAData =>
        Some (Exception "TypeError" "not JSON serializable")
    | _ => None
    end in
  let request :=
    {| nreq_user_id := None; nreq_conversation_id := None;
       nreq_task_id := None; nreq_dict := PDict [("query", PStr "hi")] |} in
  let kwargs :=
    {| kw_user_id := Some 1%N; kw_conversation_id := Some 2%N;
       kw_task_id := None |} in
  ChatRuntime.event_generator frame_raises (sample_externals backend)
    sample_world request kwargs
  = ([SseData (NativeRaw (DataChunk None));
      SseData (NativeDict [("code", PInt 500);
                           ("message", PStr "not JSON serializable")]);
      SseDone],
     inr tt).
Proof. vm_compute. reflexivity. Qed.

(** ** The disconnect listener *)

(** X13.  [listen_for_disconnect] reads messages up to the
    first one of type http.disconnect.  When there is none it calls
    nothing and keeps waiting; otherwise it calls [stop_chat] exactly
    once, for the user and the task of its own response, and then leaves
    its loop without reading any later message. *)
Theorem disconnect_stops_chat_once stop_chat self messages :
  (¬ "http.disconnect" ∈ messages
   ∧ listen_for_disconnect stop_chat self messages = ([], Receiving, []))
  ∨ ∃ before unread,
      messages = before ++ "http.disconnect" :: unread
      ∧ ¬ "http.disconnect" ∈ before
      ∧ listen_for_disconnect stop_chat self messages =
          ([(esr_user_id self, esr_task_id self)],
           match stop_chat (esr_user_id self) (esr_task_id self) with
           | Some x => LeftRaising x
           | None => Left
           end,
           unread).
Proof.
  induction messages as [|message rest IH].
  { left. split; [apply not_elem_of_nil|done]. }
  simpl. destruct (String.eqb_spec message "http.disconnect") as [->|Hne].
  { right. exists [], rest. split; [done|]. split; [apply not_elem_of_nil|done]. }
  destruct IH as [[Hnone Hcalls]|(before & unread & -> & Hnone & Hcalls)].
  - left. split; [|done].
    intros [Heq|Hin]%elem_of_cons; [by apply Hne|by apply Hnone].
  - right. exists (message :: before), unread. split; [done|]. split; [|done].
    intros [Heq|Hin]%elem_of_cons; [by apply Hne|by apply Hnone].
Qed.

(** ** The runner singleton *)

Section SingletonFacts.
Variable start_raises : nat → option exn.

Lemma guarded_initial : Guarded start_raises initial_callers.
Proof. by split. Qed.

(** A stretch that leaves the globals alone and neither enters nor
    leaves the guarded section keeps the invariant. *)
Lemma guarded_outside i pc c :
  Guarded start_raises c →
  (∀ r, callers c i ≠ AwaitingStart r) →
  (∀ r, pc ≠ AwaitingStart r) →
  (∀ r, pc = GotRunner r → _runner (globals c) = Some r) →
  Guarded start_raises
    {| globals := globals c;
       callers := λ j, if decide (j = i) then pc else callers c j |}.
Proof.
  intros [Hholder Hheld Halone Hunset Hgot Hstarted] Hout Hpc Hrun.
  split; simpl; try done.
  - intros Hl. destruct (Hholder Hl) as (i' & r' & Hi').
    exists i', r'. case_decide; [|done]. subst. by destruct (Hout r').
  - intros j r. case_decide; [by intros ?%Hpc|apply Hheld].
  - intros j j' r r'. repeat case_decide; try by intros ?%Hpc.
    + by intros _ ?%Hpc.
    + apply Halone.
  - intros j r. case_decide; [apply Hrun|apply Hgot].
Qed.

Lemma resume_caller_guarded i c :
  Guarded start_raises c →
  Guarded start_raises (resume_caller start_raises i c).
Proof.
  intros Hc. pose proof Hc as [Hholder Hheld Halone Hunset Hgot Hstarted].
  unfold resume_caller.
  destruct (callers c i) as [| |r|r|x] eqn:Hpc; simpl.
  - (* Calling *)
    destruct (_runner (globals c)) as [r|] eqn:Hr; simpl;
      apply guarded_outside; try done; rewrite ?Hpc; try done.
    by intros r' [= <-].
  - (* AwaitingLock *)
    destruct (_lock_held (globals c)) eqn:Hl; simpl.
    { apply guarded_outside; try done; by rewrite ?Hpc. }
    destruct (_runner (globals c)) as [r|] eqn:Hr; simpl.
    { apply guarded_outside; try done; rewrite ?Hpc; try done.
      by intros r' [= <-]. }
    split; simpl; try done.
    + intros _. exists i, (constructed (globals c)). by rewrite decide_True.
    + intros j j' r r'. repeat case_decide; subst; try done.
      * intros _ Hj'. apply Hheld in Hj'. congruence.
      * intros Hj _. apply Hheld in Hj. congruence.
      * intros Hj _. apply Hheld in Hj. congruence.
    + intros j r. case_decide; [done|].
      intros Hj. apply Hgot in Hj. congruence.
  - (* AwaitingStart *)
    pose proof (Hheld _ _ Hpc) as Hl. pose proof (Hunset Hl) as Hr.
    assert (∀ j r', j ≠ i → callers c j ≠ AwaitingStart r') as Hothers.
    { intros j r' Hj Hs. apply Hj. by eapply Halone. }
    destruct (start_raises r) as [x|] eqn:Hs; simpl.
    + split; simpl; try done.
      * intros j r'. case_decide; [done|]. intros Hj.
        by destruct (Hothers j r').
      * intros j j' r' r''. case_decide; [done|].
        intros Hj. by destruct (Hothers j r').
      * intros j r'. case_decide; [done|apply Hgot].
    + split; simpl; try done.
      * intros j r'. case_decide; [done|]. intros Hj.
        by destruct (Hothers j r').
      * intros j j' r' r''. case_decide; [done|].
        intros Hj. by destruct (Hothers j r').
      * intros j r'. case_decide; [by intros [= <-]|].
        intros Hj. apply Hgot in Hj. congruence.
      * by intros r' [= <-].
  - apply guarded_outside; try done; rewrite ?Hpc; try done.
    intros r' [= <-]. by eapply Hgot.
  - apply guarded_outside; try done; by rewrite ?Hpc.
Qed.

Lemma run_callers_guarded schedule : ∀ c,
  Guarded start_raises c →
  Guarded start_raises (run_callers start_raises schedule c).
Proof.
  induction schedule as [|i schedule IH]; intros c Hc; [done|].
  simpl. apply IH. by apply resume_caller_guarded.
Qed.
End SingletonFacts.

Section SingletonCount.
Variable start_raises : nat → option exn.
Hypothesis start_succeeds : ∀ r, start_raises r = None.

Lemma first_only_initial : FirstOnly initial_callers.
Proof. by split. Qed.

Lemma resume_caller_first_only i c :
  Guarded start_raises c → FirstOnly c →
  FirstOnly (resume_caller start_raises i c).
Proof using start_succeeds.
  intros Hc [Hcount Hrun Hwait]. unfold resume_caller.
  assert (∀ pc, (∀ r, pc = AwaitingStart r → r = 0) →
            ∀ j r, (if decide (j = i) then pc else callers c j)
                   = AwaitingStart r → r = 0) as Hkeep.
  { intros pc Hpc j r. case_decide; [apply Hpc|apply Hwait]. }
  destruct (callers c i) as [| |r|r|x] eqn:Hpc; simpl.
  - destruct (_runner (globals c)) eqn:Hr; simpl;
      (split; simpl; [by rewrite Hr|by rewrite Hr|by apply Hkeep]).
  - destruct (_lock_held (globals c)) eqn:Hl; simpl.
    { split; simpl; [by rewrite Hl|done|by apply Hkeep]. }
    destruct (_runner (globals c)) eqn:Hr; simpl.
    { split; simpl; [by rewrite Hl, Hr|by rewrite Hr|by apply Hkeep]. }
    split; simpl; [by rewrite Hcount|done|].
    apply Hkeep. intros r [= <-]. by rewrite Hcount.
  - rewrite start_succeeds. simpl. split; simpl.
    + by rewrite Hcount, (guarded_held _ _ Hc _ _ Hpc).
    + intros r' [= <-]. by eapply Hwait.
    + by apply Hkeep.
  - split; simpl; [done|done|by apply Hkeep].
  - split; simpl; [done|done|by apply Hkeep].
Qed.

Lemma run_callers_first_only schedule : ∀ c,
  Guarded start_raises c → FirstOnly c →
  FirstOnly (run_callers start_raises schedule c).
Proof using start_succeeds.
  induction schedule as [|i schedule IH]; intros c Hc Hn; [done|].
  simpl. apply IH; [by apply resume_caller_guarded|].
  by apply resume_caller_first_only.
Qed.
End SingletonCount.

(** X14.  However concurrent calls of [get_alias_runner] are
    interleaved, and whether or not starts fail: at most one call at a
    time is between acquiring the lock and the end of [start()]; every
    call that has returned holds the runner stored in the global, whose
    start had succeeded; so all returned calls hold the same runner. *)
Theorem singleton_callers_agree start_raises schedule :
  let final := run_callers start_raises schedule initial_callers in
  (∀ i j r r', callers final i = AwaitingStart r →
               callers final j = AwaitingStart r' → i = j)
  ∧ (∀ i r, callers final i = GotRunner r →
            _runner (globals final) = Some r ∧ start_raises r = None)
  ∧ (∀ i j r r', callers final i = GotRunner r →
                 callers final j = GotRunner r' → r = r').
Proof.
  intros final.
  pose proof (run_callers_guarded start_raises schedule _
                (guarded_initial start_raises)) as Hfinal.
  fold final in Hfinal.
  destruct Hfinal as [_ _ Halone _ Hgot Hstarted].
  split; [exact Halone|]. split.
  - intros i r Hi. split; [by eapply Hgot|]. eapply Hstarted, Hgot, Hi.
  - intros i j r r' Hi Hj. apply Hgot in Hi, Hj. congruence.
Qed.

(** X15.  When [start()] does not fail, concurrent calls of
    [get_alias_runner] construct at most one [AliasRunner], however they
    are interleaved, and every call that has returned holds that first
    runner. *)
Theorem runner_constructed_at_most_once start_raises schedule :
  (∀ r, start_raises r = None) →
  let final := run_callers start_raises schedule initial_callers in
  (constructed (globals final) ≤ 1)%nat
  ∧ ∀ i r, callers final i = GotRunner r → r = 0.
Proof.
  intros Hstart final.
  pose proof (run_callers_guarded start_raises schedule _
                (guarded_initial start_raises)) as Hfinal.
  pose proof (run_callers_first_only start_raises Hstart schedule _
                (guarded_initial start_raises) first_only_initial) as Hfirst.
  fold final in Hfinal, Hfirst.
  destruct Hfirst as [Hcount Hrun _]. split.
  - rewrite Hcount. destruct (_lock_held _); [lia|].
    destruct (_runner _); lia.
  - intros i r Hi. eapply Hrun, (guarded_got _ _ Hfinal), Hi.
Qed.

Lemma runner_constructed_at_most_once_witness :
  let final := run_callers (λ _, None) [0; 1; 0; 1; 2; 0; 1; 2] initial_callers in
  constructed (globals final) = 1
  ∧ callers final 0 = GotRunner 0
  ∧ callers final 1 = GotRunner 0
  ∧ callers final 2 = GotRunner 0
  ∧ ∀ i r, callers final i = GotRunner r → r = 0.
Proof.
  intros final.
  split; [reflexivity|]. split; [reflexivity|]. split; [reflexivity|].
  split; [reflexivity|].
  exact (proj2 (runner_constructed_at_most_once (λ _, None)
                  [0; 1; 0; 1; 2; 0; 1; 2] (λ _, eq_refl))).
Defined.

(** X16.  When [start()] raises in a call of [get_alias_runner]
    that found the lock free, the exception leaves the call, the lock is
    released and the global stays unset: the failed runner is not kept,
    and the next call constructs a new one. *)
Theorem failed_start_is_not_kept start_raises g x g' :
  _lock_held g = false →
  get_alias_runner start_raises g = (inl x, g') →
  _runner g' = None ∧ _lock_held g' = false
  ∧ start_raises (constructed g) = Some x
  ∧ constructed g' = S (constructed g)
  ∧ ∃ g'', get_alias_runner_step start_raises AwaitingLock g'
           = (AwaitingStart (constructed g'), g'').
Proof.
  intros Hl. unfold get_alias_runner. cbn [get_alias_runner_step].
  destruct (_runner g) as [r|] eqn:Hr; [by cbn|].
  cbn. rewrite Hl, Hr. cbn.
  destruct (start_raises (constructed g)) as [x'|] eqn:Hs; cbn; [|done].
  intros [= <- <-]. cbn. repeat split; try done. by eexists.
Qed.

Lemma failed_start_is_not_kept_witness :
  let start_raises := λ r : nat,
    if decide (r = 0) then Some (Exception "ConnectionError" "redis")
    else None in
  let g' := {| _runner := None; _lock_held := false; constructed := 1 |} in
  get_alias_runner start_raises initial_singleton
    = (inl (Exception "ConnectionError" "redis"), g')
  ∧ get_alias_runner start_raises g'
    = (inr 1, {| _runner := Some 1; _lock_held := false; constructed := 2 |}).
Proof.
  intros start_raises g'.
  assert (get_alias_runner start_raises initial_singleton
          = (inl (Exception "ConnectionError" "redis"), g')) as Hcall
    by reflexivity.
  split; [exact Hcall|].
  destruct (failed_start_is_not_kept start_raises initial_singleton _ g'
              eq_refl Hcall) as (_ & _ & _ & _ & _).
  reflexivity.
Defined.

(** ** The adapter: chunks and failing sources *)

Section AdapterRuns.
Variables cbr mbr : string → option exn.
Variable js : pyval → string.
Variable ex : string → pyval.

(** X17.  The adapter's output depends on the items of the
    source stream and on how the stream ends, not on how the items are
    grouped into chunks: chunks that are no data dictionaries, that
    have no messages or an empty list of them leave no trace. *)
Theorem chunking_is_irrelevant src1 src2 :
  stream_items src1 = stream_items src2 →
  failure src1 = failure src2 →
  adapt_alias_message_stream cbr mbr js ex src1
  = adapt_alias_message_stream cbr mbr js ex src2.
Proof.
  unfold stream_items. intros Hitems Hfail.
  unfold adapt_alias_message_stream, consume.
  by rewrite !process_chunks_items, Hitems, Hfail.
Qed.

(** X18.  When the source stream raises after its chunks were
    processed, the exception leaves the adapter right there: the output
    is the two opening events and the events of the chunks, the final
    loop does not run, so the messages still open are opened but never
    completed, and no response-level completed event is yielded. *)
Theorem source_failure_leaves_messages_open src x es v :
  failure src = Some x →
  process_chunks cbr mbr js ex (chunks src) initial_vars = (es, inr v) →
  let out := adapt_alias_message_stream cbr mbr js ex src in
  out = ([RbCreated; RbInProgress] ++ es, inl x)
  ∧ (RbCompleted ∉ yielded out)
  ∧ ∀ k, k ∈ open_keys v →
      k ∈ opened_keys (yielded out)
      ∧ occurrences (ContentCompleted k) (yielded out) = 0
      ∧ occurrences (MessageCompleted k) (yielded out) = 0.
Proof.
  intros Hfail Hrun out.
  assert (out = ([RbCreated; RbInProgress] ++ es, inl x)) as Hout.
  { unfold out. by rewrite adapt_cases, Hrun, Hfail. }
  destruct (stream_phase_tracked _ _ _ _ _ _ _ Hrun) as (Htr & _ & _).
  split; [done|]. rewrite Hout. unfold yielded. cbn [fst]. split.
  - intros [Hin|Hin]%elem_of_app.
    { by repeat (apply elem_of_cons in Hin as [?|Hin]);
        try apply elem_of_nil in Hin. }
    rewrite process_chunks_items in Hrun.
    pose proof (process_items_keyed cbr mbr js ex
                  (concat (chunk_items <$> chunks src)) initial_vars)
      as Hkeyed.
    rewrite Hrun in Hkeyed. cbn [fst] in Hkeyed.
    rewrite Forall_forall in Hkeyed. apply Hkeyed in Hin.
    by destruct Hin.
  - intros k [Hopen Hk]%list_elem_of_filter.
    unfold opened_keys. rewrite omap_app, !occurrences_app.
    change (omap opened_key es) with (opened_keys es).
    rewrite (tracked_opened _ _ Htr), (tracked_content _ _ Htr),
      (tracked_message _ _ Htr), closed_count_open by done.
    split; [by apply elem_of_app; right|]. done.
Qed.
End AdapterRuns.

Lemma chunking_is_irrelevant_witness :
  let first := text_item "a" None "x" in
  let second := text_item "a" (Some "finished") "xy" in
  adapt_alias_message_stream no_failure no_failure (λ _, "{}") PStr
    {| chunks := [NotAData; DataChunk (Some [first]); DataChunk None;
                  DataChunk (Some []); DataChunk (Some [second])];
       failure := None |}
  = adapt_alias_message_stream no_failure no_failure (λ _, "{}") PStr
      {| chunks := [DataChunk (Some [first; second])]; failure := None |}.
Proof.
  intros first second.
  exact (chunking_is_irrelevant no_failure no_failure (λ _, "{}") PStr
           _ _ eq_refl eq_refl).
Defined.

Lemma source_failure_leaves_messages_open_witness :
  let src :=
    {| chunks := [DataChunk (Some [text_item "a" None "x"])];
       failure := Some (BaseError 503 "down") |} in
  let out :=
    adapt_alias_message_stream no_failure no_failure (λ _, "{}") PStr src in
  failure src = Some (BaseError 503 "down")
  ∧ yielded out = [RbCreated; RbInProgress;
                   MessageOpened "a_message" ASSISTANT MESSAGE;
                   TextDelta "a_message" "x"]
  ∧ escaped out = Some (BaseError 503 "down")
  ∧ occurrences (MessageCompleted "a_message") (yielded out) = 0.
Proof.
  intros src out.
  destruct (process_chunks no_failure no_failure (λ _, "{}") PStr
              (chunks src) initial_vars) as [es r] eqn:Hrun.
  vm_compute in Hrun. injection Hrun as <- <-.
  destruct (source_failure_leaves_messages_open no_failure no_failure
              (λ _, "{}") PStr src _ _ _ eq_refl eq_refl)
    as (Hout & _ & Hopen).
  fold out in Hout, Hopen.
  split; [reflexivity|]. split; [by rewrite Hout|]. split; [by rewrite Hout|].
  apply (Hopen "a_message"). vm_compute. left.
Defined.

(** ** Builders are opened before they are used *)

Lemma opened_before_use_mono es : ∀ seen seen',
  seen ⊆ seen' → opened_before_use seen es → opened_before_use seen' es.
Proof.
  induction es as [|e es IH]; intros seen seen' Hsub; [done|]. simpl.
  destruct (opened_key e) as [k|].
  - apply IH. by apply union_mono_l.
  - intros [He Hes]. split; [|by eapply IH].
    destruct (event_key e); [by apply Hsub|done].
Qed.

Lemma opened_keys_cons e es :
  opened_keys (e :: es)
  = match opened_key e with Some k => [k] | None => [] end ++ opened_keys es.
Proof. unfold opened_keys. simpl. by destruct (opened_key e). Qed.

Lemma opened_keys_app es1 es2 :
  opened_keys (es1 ++ es2) = opened_keys es1 ++ opened_keys es2.
Proof. unfold opened_keys. apply omap_app. Qed.

Lemma opened_before_use_app a : ∀ seen b,
  opened_before_use seen a →
  opened_before_use (seen ∪ list_to_set (opened_keys a)) b →
  opened_before_use seen (a ++ b).
Proof.
  induction a as [|e a IH]; intros seen b Ha Hb.
  { unfold opened_keys in Hb. simpl in *. by rewrite union_empty_r_L in Hb. }
  rewrite opened_keys_cons in Hb. simpl in *.
  destruct (opened_key e) as [k|].
  - apply IH; [done|].
    assert (seen ∪ list_to_set ([k] ++ opened_keys a)
            = {[k]} ∪ seen ∪ list_to_set (opened_keys a)) as Heq.
    { apply set_eq. intros x.
      rewrite !elem_of_union, !elem_of_list_to_set, elem_of_app.
      rewrite elem_of_singleton, list_elem_of_singleton. tauto. }
    by rewrite Heq in Hb.
  - destruct Ha as [He Ha]. split; [done|]. by apply IH.
Qed.

Lemma opened_before_use_used seen es :
  Forall (λ e, opened_key e = None ∧ ∀ k, event_key e = Some k → k ∈ seen) es →
  opened_before_use seen es ∧ opened_keys es = [].
Proof.
  induction 1 as [|e es [Hop He] _ [IH1 IH2]]; [done|].
  rewrite opened_keys_cons. simpl. rewrite Hop. split; [|done].
  split; [|done]. destruct (event_key e); [by apply He|done].
Qed.

Section OpenedFirst.
Variables cbr mbr : string → option exn.
Variable js : pyval → string.
Variable ex : string → pyval.

Lemma uses_opened_ret {A} seen (a : A) (post : A → gset string → Prop) :
  post a seen → uses_opened seen (mret a) post.
Proof.
  intros Hpost. split; [done|]. intros a' [= <-]. simpl.
  by rewrite union_empty_r_L.
Qed.

Lemma uses_opened_bind {A B} seen (m : Gen Event A) (f : A → Gen Event B)
    (mid : A → gset string → Prop) (post : B → gset string → Prop) :
  uses_opened seen m mid →
  (∀ a, mid a (seen ∪ list_to_set (opened_keys m.1)) →
        uses_opened (seen ∪ list_to_set (opened_keys m.1)) (f a) post) →
  uses_opened seen (m ≫= f) post.
Proof.
  intros [Hm Hmid] Hf. destruct m as [es [x|a]];
    unfold mbind, Gen_bind, gen_bind; cbn [fst snd] in *; [by split|].
  destruct (Hf a (Hmid a eq_refl)) as [Hfa Hpost].
  split; [by apply opened_before_use_app|].
  intros b Hb. specialize (Hpost b Hb). cbn [fst snd].
  assert (seen ∪ list_to_set (opened_keys (es ++ (f a).1))
          = seen ∪ list_to_set (opened_keys es)
            ∪ list_to_set (opened_keys (f a).1)) as ->; [|done].
  apply set_eq. intros x. rewrite opened_keys_app.
  rewrite !elem_of_union, !elem_of_list_to_set, elem_of_app. tauto.
Qed.

Lemma uses_opened_weaken {A} seen (m : Gen Event A)
    (post post' : A → gset string → Prop) :
  uses_opened seen m post →
  (∀ a s, post a s → post' a s) →
  uses_opened seen m post'.
Proof. intros [Hm Hpost] Himpl. split; [done|]. eauto. Qed.

Lemma close_state_uses seen k v :
  k ∈ seen →
  uses_opened seen (close_state cbr mbr k v)
    (λ v' s, s = seen ∧ v' = mark_completed k v).
Proof.
  intros Hk. rewrite close_state_cases.
  destruct (cbr k), (mbr k); (split; [simpl; by auto|]); try done.
  intros v' [= <-]. simpl. split; [|done]. by rewrite union_empty_r_L.
Qed.

Lemma covers_mark seen k v : covers seen v → covers seen (mark_completed k v).
Proof. intros Hc k' Hk'. apply Hc. by apply is_some_mark in Hk'. Qed.

Lemma covers_mono seen seen' v : seen ⊆ seen' → covers seen v → covers seen' v.
Proof. intros Hsub Hc k Hk. apply Hsub, Hc, Hk. Qed.

Lemma close_previous_uses seen key v :
  covers seen v →
  uses_opened seen (close_previous cbr mbr key v) (λ v' s, covers s v').
Proof.
  intros Hc. unfold close_previous.
  destruct (last_active_key v) as [last|]; [|by apply uses_opened_ret].
  destruct (_ && _); [|by apply uses_opened_ret].
  destruct (state_map v !! last) as [old|] eqn:Hlast;
    [|by apply uses_opened_ret].
  destruct (negb _); [|by apply uses_opened_ret].
  eapply uses_opened_weaken; [apply close_state_uses, Hc; by eexists|].
  intros v' s [-> ->]. by apply covers_mark.
Qed.

Lemma close_if_finished_uses seen item key v :
  covers seen v →
  uses_opened seen (close_if_finished cbr mbr item key v)
    (λ v' s, covers s v').
Proof.
  intros Hc. unfold close_if_finished.
  destruct (state_map v !! key) as [st|] eqn:Hkey; [|by split].
  destruct (_ && _); [|by apply uses_opened_ret].
  eapply uses_opened_weaken; [apply close_state_uses, Hc; by eexists|].
  intros v' s [-> ->]. by apply covers_mark.
Qed.

Lemma process_item_uses seen item v :
  covers seen v →
  uses_opened seen (process_item cbr mbr js ex item v) (λ v' s, covers s v').
Proof.
  intros Hc. unfold process_item.
  destruct (classify (msg_type (inner_message item))) as [t role].
  eapply (uses_opened_bind _ _ _ (λ v' s, covers s v'));
    [by apply close_previous_uses|].
  intros v1 Hc1.
  set (s1 := seen ∪ _) in *. clearbody s1.
  eapply (uses_opened_bind _ _ _
            (λ v3 s, covers s v3 ∧ state_key item ∈ s)).
  { rewrite open_if_new_cases. simpl.
    destruct (state_map v1 !! state_key item) as [st|] eqn:Hkey; simpl.
    - apply uses_opened_ret. split; [done|]. apply Hc1. by eexists.
    - split; [done|]. intros v3 [= <-]. simpl.
      assert (state_key item ∈ s1 ∪ ({[state_key item]} ∪ ∅)) as Hin.
      { apply elem_of_union_r, elem_of_union_l. by apply elem_of_singleton. }
      split; [|done].
      intros k [->|Hk]%is_some_store; [done|].
      apply elem_of_union_l, Hc1, Hk. }
  intros v3 [Hc3 Hkey].
  set (s3 := s1 ∪ _) in *. clearbody s3.
  destruct (state_map v3 !! state_key item) as [st|] eqn:Hst; [|by split].
  pose proof (payload_yielded js ex item (state_key item) st) as Hall.
  eapply (uses_opened_bind _ _ _ (λ _ s, s = s3)).
  { destruct (opened_before_use_used s3
                (payload js ex item (state_key item) st).1)
      as [Huse Hnone].
    { eapply Forall_impl; [exact Hall|]. intros e [He1 He2].
      split; [by destruct e|]. intros k Hk. congruence. }
    split; [done|]. intros a _. rewrite Hnone. simpl.
    by rewrite union_empty_r_L. }
  intros st'' ->.
  apply close_if_finished_uses.
  intros k [->|Hk]%is_some_store; [done|by apply Hc3].
Qed.

Lemma process_items_uses items : ∀ seen v,
  covers seen v →
  uses_opened seen (process_items cbr mbr js ex items v)
    (λ v' s, covers s v').
Proof.
  induction items as [|item items IH]; intros seen v Hc; simpl.
  { by apply uses_opened_ret. }
  eapply (uses_opened_bind _ _ _ (λ v' s, covers s v'));
    [by apply process_item_uses|].
  intros v' Hc'. by apply IH.
Qed.

Lemma finalize_uses keys : ∀ seen v,
  covers seen v →
  uses_opened seen (finalize cbr mbr keys v) (λ v' s, covers s v').
Proof.
  induction keys as [|key keys IH]; intros seen v Hc; simpl.
  { by apply uses_opened_ret. }
  destruct (state_map v !! key) as [st|] eqn:Hkey; [|by apply IH].
  eapply (uses_opened_bind _ _ _ (λ v' s, covers s v'));
    [|intros v' Hc'; apply IH, Hc'].
  destruct (negb (is_completed st)); [|by apply uses_opened_ret].
  unfold try_except. rewrite close_state_cases.
  destruct (cbr key), (mbr key); simpl.
  - by apply uses_opened_ret.
  - by apply uses_opened_ret.
  - split; [simpl; split; [apply Hc; by eexists|done]|].
    intros v' [= <-]. simpl. eapply covers_mono; [|exact Hc].
    apply union_subseteq_l.
  - split; [simpl; repeat split; apply Hc; by eexists|].
    intros v' [= <-]. simpl. apply covers_mark.
    eapply covers_mono; [|exact Hc]. apply union_subseteq_l.
Qed.

Lemma adapt_uses src :
  opened_before_use ∅
    (yielded (adapt_alias_message_stream cbr mbr js ex src)).
Proof.
  unfold adapt_alias_message_stream, yielded.
  assert (uses_opened ∅
            (consume cbr mbr js ex src initial_vars ≫= λ v,
               finalize cbr mbr (state_keys v) v ≫= λ _, yield RbCompleted)
            (λ _ _, True)) as [Huse _].
  { eapply (uses_opened_bind _ _ _ (λ v' s, covers s v')).
    - unfold consume.
      eapply (uses_opened_bind _ _ _ (λ v' s, covers s v')).
      + rewrite process_chunks_items. apply process_items_uses.
        intros k [st Hk]. simpl in Hk. by rewrite lookup_empty in Hk.
      + intros v Hc. destruct (failure src); [by split|].
        apply uses_opened_ret. exact Hc.
    - intros v Hc.
      eapply (uses_opened_bind _ _ _ (λ v' s, covers s v'));
        [by apply finalize_uses|].
      intros v' _. by split. }
  unfold mbind at 1 2, Gen_bind at 1 2, gen_bind at 1 2. simpl.
  split; [done|]. split; [done|]. exact Huse.
Qed.
End OpenedFirst.

Lemma opened_before_use_at pre : ∀ seen e post k,
  opened_before_use seen (pre ++ e :: post) →
  event_key e = Some k → opened_key e = None →
  k ∈ seen ∨ k ∈ opened_keys pre.
Proof.
  induction pre as [|e' pre IH]; intros seen e post k Huse Hk Hop; simpl in Huse.
  { rewrite Hop, Hk in Huse. left. by destruct Huse. }
  rewrite opened_keys_cons.
  destruct (opened_key e') as [k'|].
  - destruct (IH _ _ _ _ Huse Hk Hop) as [[Hin|Hin]%elem_of_union|Hin].
    + right. apply elem_of_app. left. by apply elem_of_singleton in Hin as ->;
        apply list_elem_of_singleton.
    + by left.
    + right. apply elem_of_app. by right.
  - destruct Huse as [_ Huse].
    destruct (IH _ _ _ _ Huse Hk Hop) as [Hin|Hin]; [by left|by right].
Qed.

(** X19.  In every run of the adapter, whether it returns or
    is left by an exception, no content or completion event of a builder
    is yielded before the message-opened event of that builder. *)
Theorem builders_opened_before_use cbr mbr js ex src pre e post k :
  yielded (adapt_alias_message_stream cbr mbr js ex src) = pre ++ e :: post →
  event_key e = Some k →
  opened_key e = Some k ∨ k ∈ opened_keys pre.
Proof.
  intros Hout Hk.
  destruct (opened_key e) as [k'|] eqn:Hop.
  { left. destruct e; simplify_eq/=; done. }
  right.
  pose proof (adapt_uses cbr mbr js ex src) as Huse. rewrite Hout in Huse.
  destruct (opened_before_use_at _ _ _ _ _ Huse Hk Hop) as [Hin|Hin];
    [|done].
  by apply elem_of_empty in Hin.
Qed.

Lemma builders_opened_before_use_witness :
  let boom := Exception "RuntimeError" "boom" in
  let mb_raises := λ k : string,
    if String.eqb k "a_message" then Some boom else None in
  let src :=
    {| chunks := [DataChunk (Some [text_item "a" None "x";
                                   text_item "b" None "y"])];
       failure := None |} in
  let out := adapt_alias_message_stream no_failure mb_raises (λ _, "{}") PStr src in
  out = ([RbCreated; RbInProgress;
          MessageOpened "a_message" ASSISTANT MESSAGE;
          TextDelta "a_message" "x"]
         ++ ContentCompleted "a_message" :: [], inl boom)
  ∧ "a_message" ∈ opened_keys [RbCreated; RbInProgress;
                               MessageOpened "a_message" ASSISTANT MESSAGE;
                               TextDelta "a_message" "x"].
Proof.
  intros boom mb_raises src out.
  assert (out = ([RbCreated; RbInProgress;
                  MessageOpened "a_message" ASSISTANT MESSAGE;
                  TextDelta "a_message" "x"]
                 ++ ContentCompleted "a_message" :: [], inl boom)) as Hout
    by (vm_compute; reflexivity).
  split; [exact Hout|].
  destruct (builders_opened_before_use no_failure mb_raises (λ _, "{}") PStr
              src _ (ContentCompleted "a_message") [] "a_message"
              (f_equal fst Hout) eq_refl) as [Hop|Hin].
  - discriminate Hop.
  - exact Hin.
Defined.

(** ** A message is completed right after its content *)

Lemma completions_paired_weaken prev es :
  completions_paired None es → completions_paired prev es.
Proof.
  destruct es as [|e es]; [done|]. simpl. intros [He Hes]. split; [|done].
  by destruct e.
Qed.

Lemma completions_paired_app a : ∀ prev b,
  completions_paired prev a → completions_paired None b →
  completions_paired prev (a ++ b).
Proof.
  induction a as [|e a IH]; intros prev b Ha Hb; simpl.
  { by apply completions_paired_weaken. }
  destruct Ha as [He Ha]. split; [done|]. by apply IH.
Qed.

Lemma completions_paired_content es :
  Forall (λ e, completed_message e = None) es →
  ∀ prev, completions_paired prev es.
Proof.
  induction 1 as [|e es He _ IH]; intros prev; [done|]. simpl.
  split; [by destruct e|apply IH].
Qed.

Lemma completions_paired_at pre : ∀ prev post k,
  completions_paired prev (pre ++ MessageCompleted k :: post) →
  (pre = [] ∧ prev = Some (ContentCompleted k))
  ∨ ∃ before, pre = before ++ [ContentCompleted k].
Proof.
  induction pre as [|e pre IH]; intros prev post k; simpl.
  { intros [-> _]. by left. }
  intros [_ Hrest]. right.
  destruct (IH _ _ _ Hrest) as [[-> [= ->]]|[before ->]].
  - by exists [].
  - by exists (e :: before).
Qed.

Lemma bind_yielded_paired {A B} (m : Gen Event A) (f : A → Gen Event B) :
  completions_paired None m.1 →
  (∀ a, completions_paired None (f a).1) →
  completions_paired None (m ≫= f).1.
Proof.
  intros Hm Hf. destruct m as [es [x|a]];
    unfold mbind, Gen_bind, gen_bind; cbn [fst snd]; [done|].
  by apply completions_paired_app.
Qed.

Section Pairing.
Variables cbr mbr : string → option exn.
Variable js : pyval → string.
Variable ex : string → pyval.

Lemma close_state_paired k v :
  completions_paired None (close_state cbr mbr k v).1.
Proof.
  rewrite close_state_cases. by destruct (cbr k), (mbr k).
Qed.

Lemma process_item_paired item v :
  completions_paired None (process_item cbr mbr js ex item v).1.
Proof.
  unfold process_item.
  destruct (classify (msg_type (inner_message item))) as [t role].
  apply bind_yielded_paired.
  { unfold close_previous. destruct (last_active_key v); [|done].
    destruct (_ && _); [|done].
    destruct (state_map v !! _); [|done].
    destruct (negb _); [apply close_state_paired|done]. }
  intros v1. apply bind_yielded_paired.
  { rewrite open_if_new_cases. by destruct (state_map _ !! _). }
  intros v3. destruct (state_map v3 !! state_key item) as [st|]; [|done].
  apply bind_yielded_paired.
  { apply completions_paired_content.
    eapply Forall_impl; [apply payload_yielded|].
    intros e [He _]. by destruct e. }
  intros st'. unfold close_if_finished.
  destruct (state_map _ !! _); [|done].
  destruct (_ && _); [apply close_state_paired|done].
Qed.

Lemma process_items_paired items : ∀ v,
  completions_paired None (process_items cbr mbr js ex items v).1.
Proof.
  induction items as [|item items IH]; intros v; simpl; [done|].
  apply bind_yielded_paired; [apply process_item_paired|apply IH].
Qed.

Lemma finalize_paired keys : ∀ v,
  completions_paired None (finalize cbr mbr keys v).1.
Proof.
  induction keys as [|key keys IH]; intros v; simpl; [done|].
  destruct (state_map v !! key) as [st|]; [|apply IH].
  apply bind_yielded_paired; [|apply IH].
  destruct (negb (is_completed st)); [|done].
  unfold try_except. rewrite close_state_cases.
  by destruct (cbr key), (mbr key).
Qed.

Lemma adapt_paired src :
  completions_paired None
    (yielded (adapt_alias_message_stream cbr mbr js ex src)).
Proof.
  unfold adapt_alias_message_stream, yielded.
  apply bind_yielded_paired; [done|]. intros _.
  apply bind_yielded_paired; [done|]. intros _.
  apply bind_yielded_paired.
  { unfold consume. apply bind_yielded_paired.
    - rewrite process_chunks_items. apply process_items_paired.
    - intros v. by destruct (failure src). }
  intros v. apply bind_yielded_paired; [apply finalize_paired|done].
Qed.
End Pairing.

(** X20.  In every run of the adapter, whether it returns or is
    left by an exception, a message-completed event directly follows the
    content-completed event of the same builder: no message is reported
    complete before its content is, and nothing comes between the
    two. *)
Theorem message_completed_follows_content cbr mbr js ex src pre post k :
  yielded (adapt_alias_message_stream cbr mbr js ex src)
    = pre ++ MessageCompleted k :: post →
  ∃ before, pre = before ++ [ContentCompleted k].
Proof.
  intros Hout.
  pose proof (adapt_paired cbr mbr js ex src) as Hpaired.
  rewrite Hout in Hpaired.
  by destruct (completions_paired_at _ _ _ _ Hpaired) as [[_ ?]|?].
Qed.

Lemma message_completed_follows_content_witness :
  let src :=
    {| chunks := [DataChunk (Some [text_item "a" None "x";
                                   text_item "b" None "y"])];
       failure := None |} in
  let pre :=
    [RbCreated; RbInProgress;
     MessageOpened "a_message" ASSISTANT MESSAGE; TextDelta "a_message" "x";
     ContentCompleted "a_message"] in
  let post :=
    [MessageOpened "b_message" ASSISTANT MESSAGE; TextDelta "b_message" "y";
     ContentCompleted "b_message"; MessageCompleted "b_message";
     RbCompleted] in
  yielded (adapt_alias_message_stream no_failure no_failure (λ _, "{}") PStr
             src)
    = pre ++ MessageCompleted "a_message" :: post
  ∧ ∃ before, pre = before ++ [ContentCompleted "a_message"].
Proof.
  intros src pre post.
  assert (yielded (adapt_alias_message_stream no_failure no_failure
                     (λ _, "{}") PStr src)
          = pre ++ MessageCompleted "a_message" :: post) as Hout
    by (vm_compute; reflexivity).
  split; [exact Hout|].
  exact (message_completed_follows_content no_failure no_failure (λ _, "{}")
           PStr src pre post "a_message" Hout).
Defined.

(** ** Events agree with the kind of their message *)

Lemma classify_role alias_type :
  (classify alias_type).2
  = if decide ((classify alias_type).1 = PLUGIN_CALL_OUTPUT) then TOOL
    else ASSISTANT.
Proof.
  unfold classify. repeat case_bool_decide; done.
Qed.

Section Kinds.
Variables cbr mbr : string → option exn.
Variable js : pyval → string.
Variable ex : string → pyval.

Lemma close_state_kinded k v :
  Forall well_kinded (close_state cbr mbr k v).1.
Proof.
  rewrite close_state_cases.
  destruct (cbr k), (mbr k); simpl; repeat constructor.
Qed.

Lemma payload_kinded item st :
  Forall well_kinded (payload js ex item (state_key item) st).1.
Proof.
  unfold payload, state_key.
  destruct (message_kind item) eqn:Hkind.
  - rewrite text_payload_cases. cbn [fst].
    destruct (String.prefix _ _); [case_bool_decide|];
      repeat constructor; by exists (correlation_id item), REASONING.
  - repeat constructor.
  - destruct (correlation_id item); repeat constructor.
  - rewrite text_payload_cases. cbn [fst].
    destruct (String.prefix _ _); [case_bool_decide|];
      repeat constructor; by exists (correlation_id item), MESSAGE.
Qed.

Lemma process_item_kinded item v :
  Forall well_kinded (process_item cbr mbr js ex item v).1.
Proof.
  unfold process_item.
  pose proof (classify_role (msg_type (inner_message item))) as Hrole.
  assert ((classify (msg_type (inner_message item))).1 = message_kind item)
    as Hkind by done.
  destruct (classify (msg_type (inner_message item))) as [t role].
  simpl in Hrole, Hkind.
  apply bind_yielded_Forall.
  { unfold close_previous. destruct (last_active_key v); [|constructor].
    destruct (_ && _); [|constructor].
    destruct (state_map v !! _); [|constructor].
    destruct (negb _); [apply close_state_kinded|constructor]. }
  intros v1. apply bind_yielded_Forall.
  { rewrite open_if_new_cases.
    destruct (state_map _ !! _); simpl; repeat constructor; [|done].
    exists (correlation_id item). unfold state_key. by rewrite Hkind. }
  intros v3. destruct (state_map v3 !! state_key item) as [st|]; [|constructor].
  apply bind_yielded_Forall; [apply payload_kinded|].
  intros st'. unfold close_if_finished.
  destruct (state_map _ !! _); [|constructor].
  destruct (_ && _); [apply close_state_kinded|constructor].
Qed.

Lemma process_items_kinded items : ∀ v,
  Forall well_kinded (process_items cbr mbr js ex items v).1.
Proof.
  induction items as [|item items IH]; intros v; simpl; [constructor|].
  apply bind_yielded_Forall; [apply process_item_kinded|apply IH].
Qed.

Lemma adapt_kinded src :
  Forall well_kinded
    (yielded (adapt_alias_message_stream cbr mbr js ex src)).
Proof.
  destruct (process_chunks cbr mbr js ex (chunks src) initial_vars)
    as [es r] eqn:Hrun.
  destruct (adapt_stream_phase cbr mbr js ex src es r Hrun)
    as (tail & -> & Htail).
  repeat (apply Forall_cons; split; [done|]).
  apply Forall_app. split.
  - rewrite process_chunks_items in Hrun.
    pose proof (process_items_kinded
                  (concat (chunk_items <$> chunks src)) initial_vars) as H.
    by rewrite Hrun in H.
  - eapply Forall_impl; [exact Htail|]. intros e He. by destruct e.
Qed.
End Kinds.

(** X21.  Every event the adapter yields agrees with the kind named
    by its key: a message is opened with the type of its key and with
    role tool exactly for plugin-call outputs; text deltas and
    replacements go to MESSAGE and REASONING messages only; structured
    data goes to PLUGIN_CALL messages as a function call and to
    PLUGIN_CALL_OUTPUT messages as a function-call output, with the call
    id of the key.  So no builder ever receives both text and data. *)
Theorem events_agree_with_their_kind cbr mbr js ex src :
  let out := yielded (adapt_alias_message_stream cbr mbr js ex src) in
  Forall well_kinded out
  ∧ ∀ k data, DataSet k data ∈ out →
      ∀ text, (TextDelta k text ∉ out) ∧ (TextSet k text ∉ out).
Proof.
  intros out. pose proof (adapt_kinded cbr mbr js ex src) as Hall.
  fold out in Hall. split; [done|].
  rewrite Forall_forall in Hall.
  assert (∀ k data id t,
            DataSet k data ∈ out → k = make_state_key id t →
            is_text_kind t = true → False) as Hno.
  { intros k data id t Hdata -> Htext. apply Hall in Hdata.
    destruct data as [id' ? ?|id' ? ?]; simpl in Hdata;
      apply make_state_key_inj in Hdata as [_ ->]; done. }
  intros k data Hdata text. split; intros Hin; apply Hall in Hin;
    destruct Hin as (id & t & -> & Htext); by eapply Hno.
Qed.

(** ** Replaying the text events *)

Lemma string_app_nil_r (s : string) : s +:+ "" = s.
Proof.
  induction s as [|c s IH]; [done|].
  change (String c (s +:+ "") = String c s). by rewrite IH.
Qed.

Lemma replay_app key acc a b :
  replay key acc (a ++ b) = replay key (replay key acc a) b.
Proof. apply foldl_app. Qed.

Lemma replay_silent key es :
  Forall (λ e, text_delta e = None ∧ ∀ k t, e ≠ TextSet k t) es →
  ∀ acc, replay key acc es = acc.
Proof.
  induction 1 as [|e es [He1 He2] _ IH]; intros acc; [done|].
  unfold replay in *. simpl. rewrite IH.
  destruct e; try done. by destruct (He2 key0 text).
Qed.

Lemma replay_other key k es :
  k ≠ key → Forall (λ e, event_key e = Some k) es →
  ∀ acc, replay key acc es = acc.
Proof.
  intros Hne. induction 1 as [|e es He _ IH]; intros acc; [done|].
  unfold replay in *. simpl. rewrite IH.
  destruct e; simplify_eq/=; try done;
    by destruct (String.eqb_spec k key).
Qed.

Lemma replay_closing key es :
  Forall (λ e, is_closing_event e = true) es →
  ∀ acc, replay key acc es = acc.
Proof.
  intros Hall. apply replay_silent.
  eapply Forall_impl; [exact Hall|]. intros e He. by destruct e.
Qed.

Lemma accumulated_mark k v k' :
  accumulated (mark_completed k v) k' = accumulated v k'.
Proof.
  unfold accumulated, mark_completed. simpl.
  destruct (decide (k = k')) as [->|Hne].
  - rewrite lookup_alter_eq. by destruct (state_map v !! k').
  - by rewrite lookup_alter_ne.
Qed.

Lemma accumulated_store k st v k' :
  accumulated (store_state k st v) k'
  = if decide (k' = k) then last_content st else accumulated v k'.
Proof.
  unfold accumulated, store_state. simpl. case_decide as Hk.
  - subst. by rewrite lookup_insert_eq.
  - by rewrite lookup_insert_ne.
Qed.

Section Replay.
Variables cbr mbr : string → option exn.
Variable js : pyval → string.
Variable ex : string → pyval.

Lemma previous_closed_replay key v es v' :
  previous_closed cbr mbr key v es v' →
  (∀ k acc, replay k acc es = acc) ∧ ∀ k, accumulated v' k = accumulated v k.
Proof.
  intros [Hkept|last Hlast Hne1 Hne2 Hopen Hcb Hmb]; [done|].
  split; [|intros k; apply accumulated_mark].
  intros k acc. apply replay_closing. by repeat constructor.
Qed.

Lemma finished_closed_replay item key v es v' :
  finished_closed cbr mbr item key v es v' →
  (∀ k acc, replay k acc es = acc) ∧ ∀ k, accumulated v' k = accumulated v k.
Proof.
  intros [Hkept|Hfin Hopen Hcb Hmb]; [done|].
  split; [|intros k; apply accumulated_mark].
  intros k acc. apply replay_closing. by repeat constructor.
Qed.

Lemma text_payload_replay key text st :
  replay key (last_content st) (text_payload key text st).1 = text.
Proof.
  rewrite text_payload_cases. cbn [fst].
  destruct (String.prefix (last_content st) text) eqn:Hprefix.
  - apply prefix_drop in Hprefix.
    case_bool_decide as Hdelta; unfold replay; simpl.
    + rewrite Hdelta, string_app_nil_r in Hprefix. by rewrite Hprefix.
    + by rewrite String.eqb_refl, <- Hprefix.
  - unfold replay. simpl. by rewrite String.eqb_refl.
Qed.

Lemma payload_replay item key st es st' :
  payload js ex item key st = (es, inr st') →
  replay key (last_content st) es = last_content st'
  ∧ last_content st'
    = if is_text_kind (message_kind item) then raw_text item
      else last_content st.
Proof.
  unfold payload.
  destruct (message_kind item) eqn:Hkind; simpl.
  - intros Hpay. pose proof (text_payload_replay key (raw_text item) st) as H.
    rewrite Hpay in H. cbn [fst] in H.
    rewrite text_payload_cases in Hpay. injection Hpay as _ <-.
    by rewrite H.
  - by intros [= <- <-].
  - destruct (correlation_id item); [|done]. by intros [= <- <-].
  - intros Hpay. pose proof (text_payload_replay key (raw_text item) st) as H.
    rewrite Hpay in H. cbn [fst] in H.
    rewrite text_payload_cases in Hpay. injection Hpay as _ <-.
    by rewrite H.
Qed.

(** The text a consumer holds for any builder follows the text the
    adapter has accumulated for it. *)
Lemma process_item_replay item v es v' :
  process_item cbr mbr js ex item v = (es, inr v') →
  ∀ k, replay k (accumulated v k) es = accumulated v' k
       ∧ accumulated v' k
         = if decide (k = state_key item) then
             if is_text_kind (message_kind item) then raw_text item
             else accumulated v k
           else accumulated v k.
Proof.
  intros (es1 & v1 & es3 & v3 & st & es4 & st' & es5 & H1 & H3 & Hst & H4
          & _ & Hall & H5 & ->)%process_item_returned k.
  simpl in *.
  apply previous_closed_replay in H1 as [Hr1 Ha1].
  apply finished_closed_replay in H5 as [Hr5 Ha5].
  assert ((∀ k acc, replay k acc es3 = acc)
          ∧ ∀ k, accumulated v3 k = accumulated v k) as [Hr3 Ha3].
  { rewrite open_if_new_cases in H3.
    destruct (state_map (set_last_active _ v1) !! _) eqn:Hnew;
      injection H3 as <- <-.
    - split; [done|]. intros k'. by rewrite <- Ha1.
    - split; [done|]. intros k'. rewrite accumulated_store, <- Ha1.
      case_decide; [|done]. subst.
      unfold accumulated. simpl in *. by rewrite Hnew. }
  rewrite !replay_app, Hr1, Hr3, Hr5, Ha5, accumulated_store.
  destruct (payload_replay _ _ _ _ _ H4) as [Hr4 Hlast].
  case_decide as Hk.
  - subst k.
    assert (accumulated v (state_key item) = last_content st) as ->.
    { rewrite <- Ha3. unfold accumulated. by rewrite Hst. }
    done.
  - split; [|done]. rewrite Ha3. apply replay_other with (k := state_key item);
      [done|].
    eapply Forall_impl; [exact Hall|]. by intros e [_ He].
Qed.

Lemma process_items_replay items : ∀ v es v',
  process_items cbr mbr js ex items v = (es, inr v') →
  ∀ id t, is_text_kind t = true →
    let key := make_state_key id t in
    replay key (accumulated v key) es = accumulated v' key
    ∧ accumulated v' key
      = default (accumulated v key) (last_text_of key items).
Proof.
  induction items as [|item items IH]; intros v es v' Hrun id t Ht key.
  { by injection Hrun as <- <-. }
  simpl in Hrun.
  apply bind_inv_returned in Hrun as (es1 & v1 & es2 & H1 & H2 & ->).
  destruct (process_item_replay _ _ _ _ H1 key) as [Hr1 Ha1].
  destruct (IH _ _ _ H2 id t Ht) as [Hr2 Ha2]. fold key in Hr2, Ha2.
  rewrite replay_app, Hr1, Hr2. split; [done|].
  rewrite Ha2, Ha1. unfold last_text_of. rewrite filter_cons.
  case_decide as Hk; case_decide as Hk'; try congruence.
  - assert (is_text_kind (message_kind item) = true) as ->.
    { unfold state_key, key in Hk'.
      by apply make_state_key_inj in Hk' as [_ ->]. }
    rewrite fmap_cons, last_cons.
    by destruct (last (raw_text <$> filter _ items)).
Qed.
End Replay.

(** X22.  When the processing of the chunks does not raise, a
    consumer that appends every text delta of a MESSAGE or REASONING
    message and replaces its text on every text replacement ends up with
    the raw text of the last item of that message, whatever the
    producer sent before: growing texts, unchanged texts, or texts that
    do not extend the previous one. *)
Theorem replay_rebuilds_last_text cbr mbr js ex src id t :
  escaped (process_chunks cbr mbr js ex (chunks src) initial_vars) = None →
  is_text_kind t = true →
  let key := make_state_key id t in
  replay key "" (yielded (adapt_alias_message_stream cbr mbr js ex src))
  = default "" (last_text_of key (stream_items src)).
Proof.
  intros Hret Ht key.
  destruct (process_chunks cbr mbr js ex (chunks src) initial_vars)
    as [es [x|v]] eqn:Hrun; [done|].
  destruct (adapt_stream_phase cbr mbr js ex src es _ Hrun)
    as (tail & -> & Htail).
  rewrite process_chunks_items in Hrun.
  destruct (process_items_replay cbr mbr js ex _ _ _ _ Hrun id t Ht)
    as [Hreplay Hlast].
  fold key in Hreplay, Hlast.
  rewrite !replay_app, (replay_closing _ _ Htail).
  change (replay key "" [RbCreated; RbInProgress]) with "".
  change "" with (accumulated initial_vars key) at 1.
  by rewrite Hreplay, Hlast.
Qed.

Lemma replay_rebuilds_last_text_witness :
  let src :=
    {| chunks := [DataChunk (Some [text_item "m" None "draft";
                                   text_item "t" None "thinking";
                                   text_item "m" None "final"]);
                  DataChunk (Some [text_item "m" (Some "finished")
                                     "final answer"])];
       failure := None |} in
  let out :=
    yielded (adapt_alias_message_stream no_failure no_failure (λ _, "{}") PStr
               src) in
  content_events out =
    [TextDelta "m_message" "draft"; TextDelta "t_message" "thinking";
     TextSet "m_message" "final"; TextDelta "m_message" " answer"]
  ∧ replay "m_message" "" out = "final answer".
Proof.
  intros src out. split; [vm_compute; reflexivity|].
  exact (replay_rebuilds_last_text no_failure no_failure (λ _, "{}") PStr src
           (Some "m") MESSAGE ltac:(vm_compute; reflexivity) eq_refl).
Defined.

(** ** JSON helpers of the adapter *)

Lemma weight_elem v l :
  v ∈ l → (AdapterJson.weight v ≤ list_sum (map AdapterJson.weight l))%nat.
Proof.
  induction 1 as [v l|v v' l _ IH]; simpl; lia.
Qed.

Lemma weight_value kv (d : list (string * pyval)) :
  kv ∈ d →
  (AdapterJson.weight kv.2
   ≤ list_sum (map (λ kv, AdapterJson.weight kv.2) d))%nat.
Proof.
  induction 1 as [kv l|kv kv' l _ IH]; simpl; lia.
Qed.

Section JsonHelpers.
Variable json_loads : string → option pyval.
Variable json_dumps : pyval → string.
Variable strip : string → string.
Hypothesis loads_shrinks : AdapterJson.shrinking json_loads.
Hypothesis strip_shortens : AdapterJson.shortening strip.

Lemma deep_parse_fuel fuel1 : ∀ fuel2 v,
  (AdapterJson.weight v ≤ fuel1)%nat → (AdapterJson.weight v ≤ fuel2)%nat →
  AdapterJson._try_deep_parse json_loads strip fuel1 v
  = AdapterJson._try_deep_parse json_loads strip fuel2 v.
Proof using loads_shrinks strip_shortens.
  induction fuel1 as [|fuel1 IH]; intros fuel2 v H1 H2.
  { destruct v; simpl in H1; lia. }
  destruct fuel2 as [|fuel2]; [destruct v; simpl in H2; lia|].
  destruct v as [| | |s|l|d]; simpl; try done.
  - destruct (AdapterJson.bracketed (strip s)); [|done].
    destruct (json_loads (strip s)) as [parsed|] eqn:Hloads; [|done].
    pose proof (loads_shrinks _ _ Hloads). pose proof (strip_shortens s).
    simpl in H1, H2. apply IH; lia.
  - f_equal. apply map_ext_in. intros v Hv%list_elem_of_In%weight_elem.
    simpl in H1, H2. apply IH; lia.
  - f_equal. apply map_ext_in. intros kv Hkv%list_elem_of_In%weight_value.
    simpl in H1, H2. f_equal. apply IH; lia.
Qed.

Lemma deep_parse_settled fuel : ∀ v,
  (AdapterJson.weight v ≤ fuel)%nat →
  AdapterJson.settled json_loads strip
    (AdapterJson._try_deep_parse json_loads strip fuel v).
Proof using loads_shrinks strip_shortens.
  induction fuel as [|fuel IH]; intros v Hv.
  { destruct v; simpl in Hv; lia. }
  destruct v as [| | |s|l|d]; simpl; try by constructor.
  - destruct (AdapterJson.bracketed (strip s)) eqn:Hb;
      [|constructor; by left].
    destruct (json_loads (strip s)) as [parsed|] eqn:Hloads;
      [|constructor; by right].
    pose proof (loads_shrinks _ _ Hloads). pose proof (strip_shortens s).
    simpl in Hv. apply IH. lia.
  - constructor. apply Forall_forall. intros v' Hin.
    apply list_elem_of_In, in_map_iff in Hin as (v & <- & Hin).
    apply list_elem_of_In, weight_elem in Hin. simpl in Hv. apply IH. lia.
  - constructor. apply Forall_forall. intros kv' Hin.
    apply list_elem_of_In, in_map_iff in Hin as (kv & <- & Hin).
    apply list_elem_of_In, weight_value in Hin. simpl in *. apply IH. lia.
Qed.

Lemma deep_parse_fixed fuel : ∀ v,
  AdapterJson.settled json_loads strip v →
  AdapterJson._try_deep_parse json_loads strip fuel v = v.
Proof.
  induction fuel as [|fuel IH]; intros v Hv; [done|].
  destruct v as [| | |s|l|d]; simpl; try done.
  - inversion Hv as [| | |s' Hin| |]; subst. destruct Hin as [Hb|Hl].
    + by rewrite Hb.
    + rewrite Hl. by destruct (AdapterJson.bracketed (strip s)).
  - inversion Hv as [| | | |l' Hall|]; subst. f_equal. clear Hv.
    induction Hall as [|v l Hv' _ IHl]; [reflexivity|].
    simpl. by rewrite IH, IHl.
  - inversion Hv as [| | | | |d' Hall]; subst. f_equal. clear Hv.
    induction Hall as [|[k v] d Hv' _ IHd]; [reflexivity|].
    simpl in *. by rewrite IH, IHd.
Qed.

(** The fuelled function follows the calls of the source as long as
    the fuel covers the size of its argument. *)
Lemma deep_parse_derivation fuel : ∀ v,
  (AdapterJson.weight v ≤ fuel)%nat →
  AdapterJson.deep_parse_returns json_loads strip fuel v
    (AdapterJson._try_deep_parse json_loads strip fuel v).
Proof using loads_shrinks strip_shortens.
  induction fuel as [|fuel IH]; intros v Hv.
  { destruct v; simpl in Hv; lia. }
  destruct v as [| | |s|l|d]; simpl; try by constructor.
  - destruct (AdapterJson.bracketed (strip s)) eqn:Hb;
      [|by apply AdapterJson.returns_plain].
    destruct (json_loads (strip s)) as [parsed|] eqn:Hloads;
      [|by apply AdapterJson.returns_undecoded].
    pose proof (loads_shrinks _ _ Hloads). pose proof (strip_shortens s).
    simpl in Hv. eapply AdapterJson.returns_nested; [done|done|].
    apply IH. lia.
  - constructor.
    assert (∀ v, v ∈ l → (AdapterJson.weight v ≤ fuel)%nat) as Hl.
    { intros v Hin%weight_elem. simpl in Hv. lia. }
    clear Hv. induction l as [|v l IHl]; simpl; constructor.
    + apply IH, Hl. by left.
    + apply IHl. intros v' Hin. apply Hl. by right.
  - constructor.
    assert (∀ kv, kv ∈ d → (AdapterJson.weight kv.2 ≤ fuel)%nat) as Hd.
    { intros kv Hin%weight_value. simpl in Hv. lia. }
    clear Hv. induction d as [|kv d IHd]; simpl; constructor.
    + split; [done|]. apply IH, Hd. by left.
    + apply IHd. intros kv' Hin. apply Hd. by right.
Qed.

(** A call has one result. *)
Lemma deep_parse_returns_once n : ∀ v r,
  AdapterJson.deep_parse_returns json_loads strip n v r →
  ∀ m r', AdapterJson.deep_parse_returns json_loads strip m v r' → r' = r.
Proof.
  induction n as [|n IH]; intros v r Hr m r' Hr'; [by inversion Hr|].
  inversion Hr as [? s parsed ? Hb Hl Hp|? s Hb Hl|? s Hb|? l rs Hall
                   |? d rs Hall| | |]; subst;
    inversion Hr' as [? s' parsed' ? Hb' Hl' Hp'|? s' Hb' Hl'|? s' Hb'
                      |? l' rs' Hall'|? d' rs' Hall'| | |]; subst;
    try done; try congruence.
  - rewrite Hl in Hl'. injection Hl' as <-. by eapply IH.
  - f_equal. clear Hr Hr'. revert rs' Hall'.
    induction Hall as [|v r l rs Hv _ IHl]; intros rs' Hall';
      inversion Hall' as [|? r' ? rs'' Hv' Hrest]; subst; [done|].
    f_equal; [by eapply IH|by apply IHl].
  - f_equal. clear Hr Hr'. revert rs' Hall'.
    induction Hall as [|[k v] [k1 r] d rs [Hk Hv] _ IHd]; intros rs' Hall';
      inversion Hall' as [|? [k2 r'] ? rs'' [Hk' Hv'] Hrest]; subst; [done|].
    simpl in *. subst. f_equal; [|by apply IHd].
    f_equal. by eapply IH.
Qed.
End JsonHelpers.

Lemma sample_json_loads_shrinking :
  AdapterJson.shrinking AdapterJson.sample_json_loads.
Proof.
  intros s v. unfold AdapterJson.sample_json_loads.
  destruct (String.eqb_spec s "[]") as [->|_]; [intros [= <-]; simpl; lia|].
  destruct (String.eqb_spec s "{}") as [->|_]; [intros [= <-]; simpl; lia|].
  destruct (String.eqb_spec s "[[]]") as [->|_]; [intros [= <-]; simpl; lia|].
  destruct (String.eqb_spec s "[{}]") as [->|_]; [intros [= <-]; simpl; lia|].
  destruct (String.eqb_spec s "[1]") as [->|_]; [intros [= <-]; simpl; lia|].
  done.
Qed.

Lemma sample_strip_shortening : AdapterJson.shortening AdapterJson.sample_strip.
Proof. intros s. unfold AdapterJson.sample_strip. lia. Qed.

(** X23.  With a decoder whose results are no larger than the
    text they are decoded from, every call of [_try_deep_parse] returns:
    the calls it makes nest no deeper than the size of its argument,
    the call has one result, and the fuelled function computes that
    result from any fuel that covers the size, so that running out of
    fuel plays no part in it. *)
Theorem deep_parse_terminates json_loads strip v :
  AdapterJson.shrinking json_loads →
  AdapterJson.shortening strip →
  ∃ r,
    AdapterJson.deep_parse_returns json_loads strip (AdapterJson.weight v) v r
    ∧ (∀ n r', AdapterJson.deep_parse_returns json_loads strip n v r' →
               r' = r)
    ∧ ∀ fuel, (AdapterJson.weight v ≤ fuel)%nat →
        AdapterJson._try_deep_parse json_loads strip fuel v = r.
Proof.
  intros Hloads Hstrip.
  exists (AdapterJson._try_deep_parse json_loads strip
            (AdapterJson.weight v) v).
  assert (AdapterJson.deep_parse_returns json_loads strip
            (AdapterJson.weight v) v
            (AdapterJson._try_deep_parse json_loads strip
               (AdapterJson.weight v) v)) as Hr
    by by apply deep_parse_derivation.
  split; [done|]. split.
  - intros n r' Hr'. by eapply deep_parse_returns_once.
  - intros fuel Hfuel. by apply deep_parse_fuel.
Qed.

Lemma deep_parse_terminates_witness :
  let v := PList [PStr "[[]]"; PStr "plain"; PDict [("k", PStr "[1]")]] in
  let r := PList [PList [PList []]; PStr "plain"; PDict [("k", PList [PInt 1])]] in
  AdapterJson.deep_parse_returns AdapterJson.sample_json_loads
    AdapterJson.sample_strip (AdapterJson.weight v) v r
  ∧ AdapterJson._try_deep_parse AdapterJson.sample_json_loads
      AdapterJson.sample_strip 100 v = r.
Proof.
  intros v r.
  destruct (deep_parse_terminates AdapterJson.sample_json_loads
              AdapterJson.sample_strip v sample_json_loads_shrinking
              sample_strip_shortening) as (r0 & Hr & _ & Hfuel).
  assert (AdapterJson.weight v ≤ 100)%nat as Hle by (vm_compute; lia).
  specialize (Hfuel 100%nat Hle).
  assert (r0 = r) as <-.
  { rewrite <- Hfuel. vm_compute. reflexivity. }
  split; [exact Hr|exact Hfuel].
Defined.

(** X24.  With enough fuel [_try_deep_parse] is thorough and
    idempotent: no string is left in its result that is bracketed and
    that the decoder accepts, at any depth of lists and dictionaries, and
    parsing the result again changes nothing. *)
Theorem deep_parse_is_thorough json_loads strip v fuel :
  AdapterJson.shrinking json_loads →
  AdapterJson.shortening strip →
  (AdapterJson.weight v ≤ fuel)%nat →
  let parsed := AdapterJson._try_deep_parse json_loads strip fuel v in
  AdapterJson.settled json_loads strip parsed
  ∧ ∀ fuel', AdapterJson._try_deep_parse json_loads strip fuel' parsed = parsed.
Proof.
  intros Hloads Hstrip Hfuel parsed.
  assert (AdapterJson.settled json_loads strip parsed) as Hsettled
    by by apply deep_parse_settled.
  split; [done|]. intros fuel'. by apply deep_parse_fixed.
Qed.

Lemma deep_parse_is_thorough_witness :
  let v := PList [PStr "[[]]"; PStr "[oops]"] in
  let parsed :=
    AdapterJson._try_deep_parse AdapterJson.sample_json_loads
      AdapterJson.sample_strip 20 v in
  (AdapterJson.weight v ≤ 20)%nat
  ∧ parsed = PList [PList [PList []]; PStr "[oops]"]
  ∧ AdapterJson._try_deep_parse AdapterJson.sample_json_loads
      AdapterJson.sample_strip 7 parsed = parsed.
Proof.
  intros v parsed.
  assert (AdapterJson.weight v ≤ 20)%nat as Hfuel by (vm_compute; lia).
  split; [exact Hfuel|]. split; [vm_compute; reflexivity|].
  exact (proj2 (deep_parse_is_thorough AdapterJson.sample_json_loads
                  AdapterJson.sample_strip v 20 sample_json_loads_shrinking
                  sample_strip_shortening Hfuel) 7).
Defined.


